(** * The time-shift ring buffer of the roboTV server plugin

    A shallow embedding of [LiveQueue] (src/live/livequeue.cpp): the two file
    cursors over the bounded on-disk region, the keyframe index, the bounded
    submission list, and the operations [queue], [write], [read], [seek],
    [seekNextKeyFrame], [trim] and [pause], the turns of the writer thread,
    the destructor and [removeTimeShiftFiles], followed by the properties
    established about them.

    Every method of the class runs under the instance mutex, so a method is
    modelled as one atomic function on the state of the instance. The
    methods are given first for an instance whose two descriptors were
    opened, then, in [Fd], for descriptors that may be invalid. *)

From stdpp Require Import base decidable option list gmap sorting strings.
From Stdlib Require Import ZArith Lia.

Local Open Scope Z_scope.

(** ** Collaborators declared outside the sources at hand *)

(** Modelled from the spec: [StreamInfo::Content], the content kind of a
    submitted packet ("enum{VIDEO, AUDIO, OTHER}"); the code names only
    [scVIDEO]. *)
Inductive Content := scVIDEO | scAUDIO | scOTHER.

Global Instance Content_eq_dec : EqDecision Content.
Proof. solve_decision. Defined.

(** Modelled from the spec: [StreamInfo::FrameType], the tag a packet carries
    in its client id field (the "is keyframe" flag); the code names only
    [ftIFRAME]. *)
Inductive FrameType := ftUNKNOWN | ftIFRAME | ftPFRAME | ftBFRAME.

Global Instance FrameType_eq_dec : EqDecision FrameType.
Proof. solve_decision. Defined.

(** Modelled from the spec: [MsgPacket], an opaque packet with an identity,
    a frame tag and an encoded length. A packet always carries its header, so
    the encoded length is a positive number of bytes. *)
Record MsgPacket := {
  msgID : Z;
  getClientID : FrameType;
  packetBytes : positive
}.

Global Instance MsgPacket_eq_dec : EqDecision MsgPacket.
Proof. solve_decision. Defined.

Definition getPacketLength (m : MsgPacket) : Z := Z.pos (packetBytes m).

(** Modelled from the spec: [struct PacketData], an entry of the submission
    list ("QueueEntry"); the struct is declared in the class header and the
    code uses its three fields. *)
Module PacketData.
Record t := mk {
  p : MsgPacket;
  content : Content;
  pts : Z
}.
End PacketData.

(** Modelled from the spec: [struct PacketIndex], an entry of the keyframe
    index ("KeyframeEntry"); the struct is declared in the class header and
    the code uses its four fields. The wrap generation is "a monotonically
    increasing counter": it is kept unbounded. *)
Module PacketIndex.
Record t := mk {
  filePosition : Z;
  wallclockTime : Z;
  pts : Z;
  wrapCount : Z
}.
End PacketIndex.

(** The value of a [uint64_t] after the cast [(off_t)]: reinterpretation as a
    signed 64-bit integer. *)
Definition to_off_t (u : Z) : Z := (u + 2 ^ 63) mod 2 ^ 64 - 2 ^ 63.

(** ** The backing file *)

(** Modelled from the spec: the codec reads and writes a whole packet
    atomically at a descriptor's offset. The file is therefore the finite map
    from the start offset of every intact packet to that packet; writing the
    byte range of a packet destroys every packet sharing a byte with it. *)
Definition overlaps (lo hi : Z) (x : Z * MsgPacket) : Prop :=
  x.1 < hi ∧ lo < x.1 + getPacketLength x.2.

Global Instance overlaps_dec lo hi x : Decision (overlaps lo hi x).
Proof. unfold overlaps. apply _. Defined.

(** Modelled from the spec: the file after the whole packet [m] was written
    at offset [pos]. *)
Definition file_write (f : gmap Z MsgPacket) (pos : Z) (m : MsgPacket)
  : gmap Z MsgPacket :=
  <[pos := m]> (filter (λ x, ¬ overlaps pos (pos + getPacketLength m) x) f).

(** ** State of a [LiveQueue] instance *)

(** The members the methods use. [m_readFd] and [m_writeFd] stand for the
    current file offsets of the two descriptors (what
    [lseek(fd, 0, SEEK_CUR)] returns, an [off_t]); [m_file] is the content of
    the file both descriptors are opened on. [m_bufferSize] is the static
    capacity, a [uint64_t]. The wall-clock times are counts of milliseconds
    and, like the presentation timestamps, 64-bit signed integers that the
    code only compares and copies. Offsets are bounded by the capacity plus
    the length of one packet and stay far from the limits of [off_t], so they
    are added without wrap-around. The last two fields are not members of the
    class:
    [g_readWraps] counts the wraps of the read cursor (the class counts only
    those of the write cursor, in [m_wrapCount]) and [g_deleted] lists the
    packets destroyed by [delete], oldest first. *)
Record LiveQueue := mkLiveQueue {
  m_bufferSize : Z;
  m_readFd : Z;
  m_writeFd : Z;
  m_file : gmap Z MsgPacket;
  m_wrapped : bool;
  m_hasWrapped : bool;
  m_wrapCount : Z;
  m_pause : bool;
  m_queueStartTime : Z;
  m_indexList : list PacketIndex.t;
  m_writerQueue : list PacketData.t;
  g_readWraps : Z;
  g_deleted : list MsgPacket
}.

Definition set_readFd (v : Z) (q : LiveQueue) : LiveQueue :=
  mkLiveQueue (m_bufferSize q) v (m_writeFd q) (m_file q) (m_wrapped q)
    (m_hasWrapped q) (m_wrapCount q) (m_pause q) (m_queueStartTime q)
    (m_indexList q) (m_writerQueue q) (g_readWraps q) (g_deleted q).

Definition set_writeFd (v : Z) (q : LiveQueue) : LiveQueue :=
  mkLiveQueue (m_bufferSize q) (m_readFd q) v (m_file q) (m_wrapped q)
    (m_hasWrapped q) (m_wrapCount q) (m_pause q) (m_queueStartTime q)
    (m_indexList q) (m_writerQueue q) (g_readWraps q) (g_deleted q).

Definition set_file (v : gmap Z MsgPacket) (q : LiveQueue) : LiveQueue :=
  mkLiveQueue (m_bufferSize q) (m_readFd q) (m_writeFd q) v (m_wrapped q)
    (m_hasWrapped q) (m_wrapCount q) (m_pause q) (m_queueStartTime q)
    (m_indexList q) (m_writerQueue q) (g_readWraps q) (g_deleted q).

Definition set_wrapped (v : bool) (q : LiveQueue) : LiveQueue :=
  mkLiveQueue (m_bufferSize q) (m_readFd q) (m_writeFd q) (m_file q) v
    (m_hasWrapped q) (m_wrapCount q) (m_pause q) (m_queueStartTime q)
    (m_indexList q) (m_writerQueue q) (g_readWraps q) (g_deleted q).

Definition set_hasWrapped (v : bool) (q : LiveQueue) : LiveQueue :=
  mkLiveQueue (m_bufferSize q) (m_readFd q) (m_writeFd q) (m_file q)
    (m_wrapped q) v (m_wrapCount q) (m_pause q) (m_queueStartTime q)
    (m_indexList q) (m_writerQueue q) (g_readWraps q) (g_deleted q).

Definition set_wrapCount (v : Z) (q : LiveQueue) : LiveQueue :=
  mkLiveQueue (m_bufferSize q) (m_readFd q) (m_writeFd q) (m_file q)
    (m_wrapped q) (m_hasWrapped q) v (m_pause q) (m_queueStartTime q)
    (m_indexList q) (m_writerQueue q) (g_readWraps q) (g_deleted q).

Definition set_pause (v : bool) (q : LiveQueue) : LiveQueue :=
  mkLiveQueue (m_bufferSize q) (m_readFd q) (m_writeFd q) (m_file q)
    (m_wrapped q) (m_hasWrapped q) (m_wrapCount q) v (m_queueStartTime q)
    (m_indexList q) (m_writerQueue q) (g_readWraps q) (g_deleted q).

Definition set_queueStartTime (v : Z) (q : LiveQueue) : LiveQueue :=
  mkLiveQueue (m_bufferSize q) (m_readFd q) (m_writeFd q) (m_file q)
    (m_wrapped q) (m_hasWrapped q) (m_wrapCount q) (m_pause q) v
    (m_indexList q) (m_writerQueue q) (g_readWraps q) (g_deleted q).

Definition set_indexList (v : list PacketIndex.t) (q : LiveQueue) : LiveQueue :=
  mkLiveQueue (m_bufferSize q) (m_readFd q) (m_writeFd q) (m_file q)
    (m_wrapped q) (m_hasWrapped q) (m_wrapCount q) (m_pause q)
    (m_queueStartTime q) v (m_writerQueue q) (g_readWraps q) (g_deleted q).

Definition set_writerQueue (v : list PacketData.t) (q : LiveQueue) : LiveQueue :=
  mkLiveQueue (m_bufferSize q) (m_readFd q) (m_writeFd q) (m_file q)
    (m_wrapped q) (m_hasWrapped q) (m_wrapCount q) (m_pause q)
    (m_queueStartTime q) (m_indexList q) v (g_readWraps q) (g_deleted q).

Definition set_readWraps (v : Z) (q : LiveQueue) : LiveQueue :=
  mkLiveQueue (m_bufferSize q) (m_readFd q) (m_writeFd q) (m_file q)
    (m_wrapped q) (m_hasWrapped q) (m_wrapCount q) (m_pause q)
    (m_queueStartTime q) (m_indexList q) (m_writerQueue q) v (g_deleted q).

(** [delete p]: the packet is destroyed. *)
Definition delete_packet (m : MsgPacket) (q : LiveQueue) : LiveQueue :=
  mkLiveQueue (m_bufferSize q) (m_readFd q) (m_writeFd q) (m_file q)
    (m_wrapped q) (m_hasWrapped q) (m_wrapCount q) (m_pause q)
    (m_queueStartTime q) (m_indexList q) (m_writerQueue q) (g_readWraps q)
    (g_deleted q ++ [m]).

(** The instance after its constructor ran, both calls of [open] in
    [cleanup] having succeeded: the file is truncated and both descriptors
    are at offset 0, nothing has wrapped, the index and the submission list
    are empty. The instance a failed [open] leaves is [Fd.LiveQueue_new]
    below. Modelled from the spec: the start time is "unset, reading as zero"
    (its initialiser is in the class header). *)
Definition LiveQueue_new (bufferSize : Z) : LiveQueue :=
  mkLiveQueue bufferSize 0 0 ∅ false false 0 false 0 [] [] 0 [].

(** ** The codec on the two descriptors *)

(** Modelled from the spec: [MsgPacket::read(m_readFd, 1000)] reads a whole
    packet or nothing. It returns the packet starting at the read offset,
    which then advances by its length, and [NULL], moving nothing, where no
    intact packet starts. *)
Definition MsgPacket_read (q : LiveQueue) : option MsgPacket * LiveQueue :=
  match m_file q !! m_readFd q with
  | Some m => (Some m, set_readFd (m_readFd q + getPacketLength m) q)
  | None => (None, q)
  end.

(** Modelled from the spec: [p->write(m_writeFd, 1000)] writes a whole
    packet or nothing. [io_ok] tells whether the descriptor accepts the packet
    within the timeout; a packet that is not accepted leaves no trace. *)
Definition MsgPacket_write (io_ok : bool) (m : MsgPacket) (q : LiveQueue)
  : bool * LiveQueue :=
  if io_ok
  then (true, set_file (file_write (m_file q) (m_writeFd q) m)
                (set_writeFd (m_writeFd q + getPacketLength m) q))
  else (false, q).

(** ** Reading *)

(** The read cursor wraps: [lseek(m_readFd, 0, SEEK_SET)] and the flag
    toggles. *)
Definition read_wrap (q : LiveQueue) : LiveQueue :=
  set_readWraps (g_readWraps q + 1)
    (set_wrapped (negb (m_wrapped q)) (set_readFd 0 q)).

(** [LiveQueue::internalRead]. *)
Definition internalRead (q : LiveQueue) : option MsgPacket * LiveQueue :=
  let readPosition := m_readFd q in
  let writePosition := m_writeFd q in
  let '(readPosition, q) :=
    if to_off_t (m_bufferSize q) <=? readPosition
    then (0, read_wrap q)
    else (readPosition, q) in
  if (writePosition <=? readPosition) && negb (m_wrapped q)
  then (None, q)
  else MsgPacket_read q.

(** The loop of [LiveQueue::seekNextKeyFrame] over the index, with [i] at the
    head of [l] and [j] its successor. [None]: the function returned from
    inside the loop ([j] reached the end); [Some pos]: the loop was left with
    the local [readPosition] equal to [pos], which is then passed to
    [lseek]. *)
Fixpoint nextKeyFrame_loop (readPosition : Z) (l : list PacketIndex.t)
  : option Z :=
  match l with
  | [] => Some readPosition
  | i :: tl =>
      match tl with
      | [] => None
      | j :: _ =>
          if (PacketIndex.filePosition i <? readPosition)
             && (readPosition <=? PacketIndex.filePosition j)
          then Some (PacketIndex.filePosition j)
          else nextKeyFrame_loop readPosition tl
      end
  end.

(** [LiveQueue::seekNextKeyFrame]. *)
Definition seekNextKeyFrame (q : LiveQueue) : LiveQueue :=
  match nextKeyFrame_loop (m_readFd q) (m_indexList q) with
  | None => q
  | Some readPosition => set_readFd readPosition q
  end.

(** [LiveQueue::read]. *)
Definition read (keyFrameMode : bool) (q : LiveQueue)
  : option MsgPacket * LiveQueue :=
  if m_pause q then (None, q)
  else
    let q := if keyFrameMode then seekNextKeyFrame q else q in
    internalRead q.

(** [LiveQueue::isPaused]. *)
Definition isPaused (q : LiveQueue) : bool := m_pause q.

(** [LiveQueue::pause]. *)
Definition pause (on : bool) (q : LiveQueue) : bool * LiveQueue :=
  if bool_decide (m_pause q = on) then (false, q)
  else (true, set_pause on q).

(** [LiveQueue::getTimeshiftStartPosition]. *)
Definition getTimeshiftStartPosition (q : LiveQueue) : Z := m_queueStartTime q.

(** ** Seeking by wall-clock time *)

(** The loop [while(s != e)] of [LiveQueue::seek]: [l] is what remains of the
    index from the reverse iterator [s] on, newest first. *)
Fixpoint seek_loop (wallclockPositionMs : Z) (l : list PacketIndex.t)
  : option PacketIndex.t :=
  match l with
  | [] => None
  | s :: tl =>
      if PacketIndex.wallclockTime s <=? wallclockPositionMs
      then Some s
      else seek_loop wallclockPositionMs tl
  end.

(** [LiveQueue::seek]: [s] is the newest entry ([rbegin]) and [h] the oldest
    ([begin]); the result is the presentation timestamp, or 0. *)
Definition seek (wallclockPositionMs : Z) (q : LiveQueue) : Z * LiveQueue :=
  match reverse (m_indexList q), m_indexList q with
  | s :: _, h :: _ =>
      if PacketIndex.wallclockTime s <=? wallclockPositionMs
      then (PacketIndex.pts s, set_readFd (PacketIndex.filePosition s) q)
      else if wallclockPositionMs <=? PacketIndex.wallclockTime h
      then (PacketIndex.pts h, set_readFd (PacketIndex.filePosition h) q)
      else
        match seek_loop wallclockPositionMs (reverse (m_indexList q)) with
        | Some e => (PacketIndex.pts e, set_readFd (PacketIndex.filePosition e) q)
        | None => (0, q)
        end
  | _, _ => (0, q)
  end.

(** ** Submitting and writing *)

(** [LiveQueue::queue]. *)
Definition queue (m : MsgPacket) (content : Content) (pts : Z) (q : LiveQueue)
  : LiveQueue :=
  if 400 <=? Z.of_nat (length (m_writerQueue q))
  then delete_packet m q
  else set_writerQueue (m_writerQueue q ++ [PacketData.mk m content pts]) q.

(** [LiveQueue::trim]. *)
Definition trim (position : Z) (q : LiveQueue) : LiveQueue :=
  if negb (m_hasWrapped q) then q
  else
    match m_indexList q with
    | [] => q
    | p :: rest =>
        let q :=
          if (PacketIndex.filePosition p <? position)
             && (PacketIndex.wrapCount p <? m_wrapCount q)
          then set_indexList rest q
          else q in
        match m_indexList q with
        | [] => q
        | p' :: _ => set_queueStartTime (PacketIndex.wallclockTime p') q
        end
    end.

(** The write cursor wraps: [lseek(m_writeFd, 0, SEEK_SET)], the flag
    toggles, the sticky flag is set and the generation counter advances. *)
Definition write_wrap (q : LiveQueue) : LiveQueue :=
  set_wrapCount (m_wrapCount q + 1)
    (set_hasWrapped true
       (set_wrapped (negb (m_wrapped q)) (set_writeFd 0 q))).

(** The loop [while(packetEndPosition >= readPosition && m_wrapped)] of
    [LiveQueue::write]. [readPosition] is the local variable of [write],
    assigned once before the loop. The result is [Some (true, q')] when the
    loop is left through its condition, [Some (false, q')] when [internalRead]
    returned [NULL], and [None] when [fuel] iterations did not finish it. *)
Fixpoint overrun_loop (fuel : nat) (packetEndPosition readPosition : Z)
    (q : LiveQueue) : option (bool * LiveQueue) :=
  if (readPosition <=? packetEndPosition) && m_wrapped q
  then
    match fuel with
    | O => None
    | S fuel' =>
        match internalRead q with
        | (None, q') => Some (false, q')
        | (Some _, q') => overrun_loop fuel' packetEndPosition readPosition q'
        end
    end
  else Some (true, q).

(** A number of iterations that always lets the loop finish (see
    [overrun_loop_terminates]): every iteration but the last moves the read
    offset forward by at least one byte below the capacity. *)
Definition overrun_fuel (q : LiveQueue) : nat :=
  S (S (Z.to_nat (to_off_t (m_bufferSize q) - m_readFd q))).

(** [LiveQueue::write]. [timeStamp] is what [roboTV::currentTimeMillis()]
    returns during the call and [io_ok] whether the descriptor accepts the
    packet. The early [return NULL] of a [bool] function returns [false]. *)
Definition write (timeStamp : Z) (io_ok : bool) (data : PacketData.t)
    (q : LiveQueue) : option (bool * LiveQueue) :=
  let p := PacketData.p data in
  let content := PacketData.content data in
  let pts := PacketData.pts data in
  let q := if m_queueStartTime q =? 0 then set_queueStartTime timeStamp q
           else q in
  let writePosition := m_writeFd q in
  let readPosition := m_readFd q in
  let '(writePosition, q) :=
    if to_off_t (m_bufferSize q) <=? writePosition
    then (0, write_wrap q)
    else (writePosition, q) in
  let packetEndPosition := writePosition + getPacketLength p in
  match overrun_loop (overrun_fuel q) packetEndPosition readPosition q with
  | None => None
  | Some (false, q) => Some (false, q)
  | Some (true, q) =>
      let q := trim packetEndPosition q in
      let keyFrame := bool_decide (getClientID p = ftIFRAME) in
      let q :=
        if keyFrame && bool_decide (content = scVIDEO)
        then set_indexList
               (m_indexList q
                  ++ [PacketIndex.mk writePosition timeStamp pts (m_wrapCount q)])
               q
        else q in
      let '(success, q) := MsgPacket_write io_ok p q in
      Some (success, delete_packet p q)
  end.

(** One turn of the writer thread's inner loop: the front of the submission
    list is taken off and written. *)
Definition writer_step (timeStamp : Z) (io_ok : bool) (q : LiveQueue)
  : option LiveQueue :=
  match m_writerQueue q with
  | [] => Some q
  | data :: rest =>
      match write timeStamp io_ok data (set_writerQueue rest q) with
      | Some (_, q') => Some q'
      | None => None
      end
  end.

(** ** Histories *)

(** The calls an instance receives: submissions from the producer, turns of
    the writer thread, and the consumer's calls. *)
Inductive Call :=
| CQueue (m : MsgPacket) (content : Content) (pts : Z)
| CWriter (timeStamp : Z) (io_ok : bool)
| CRead (keyFrameMode : bool)
| CSeek (wallclockPositionMs : Z)
| CPause (on : bool).

Definition call (c : Call) (q : LiveQueue) : option LiveQueue :=
  match c with
  | CQueue m content pts => Some (queue m content pts q)
  | CWriter timeStamp io_ok => writer_step timeStamp io_ok q
  | CRead keyFrameMode => Some (read keyFrameMode q).2
  | CSeek t => Some (seek t q).2
  | CPause on => Some (pause on q).2
  end.

Fixpoint run (cs : list Call) (q : LiveQueue) : option LiveQueue :=
  match cs with
  | [] => Some q
  | c :: cs' =>
      match call c q with
      | Some q' => run cs' q'
      | None => None
      end
  end.

(** The states an instance of capacity [bufferSize] whose descriptors were
    opened can be in. *)
Definition reachable (bufferSize : Z) (q : LiveQueue) : Prop :=
  ∃ cs, run cs (LiveQueue_new bufferSize) = Some q.

(** [queue] applied to every entry of [ds] in turn, with no turn of the
    writer thread in between. *)
Definition queue_all (ds : list PacketData.t) (q : LiveQueue) : LiveQueue :=
  foldl (λ q d, queue (PacketData.p d) (PacketData.content d) (PacketData.pts d) q)
    q ds.

(** The state a history leads to from a new instance ([run] never fails,
    see [run_total]). *)
Definition after (cs : list Call) (bufferSize : Z) : LiveQueue :=
  default (LiveQueue_new bufferSize) (run cs (LiveQueue_new bufferSize)).

(** ** Vocabulary of the properties *)

(** The fields no read touches: a read moves the read cursor, toggles the
    wrapped flag and counts its own wraps, nothing else. *)
Definition read_frame (q q' : LiveQueue) : Prop :=
  m_bufferSize q' = m_bufferSize q ∧ m_writeFd q' = m_writeFd q
  ∧ m_file q' = m_file q ∧ m_hasWrapped q' = m_hasWrapped q
  ∧ m_wrapCount q' = m_wrapCount q ∧ m_pause q' = m_pause q
  ∧ m_queueStartTime q' = m_queueStartTime q
  ∧ m_indexList q' = m_indexList q ∧ m_writerQueue q' = m_writerQueue q
  ∧ g_deleted q' = g_deleted q.

(** The wrapped flag is the parity of the wraps of both cursors. *)
Definition wraps_parity (q : LiveQueue) : Prop :=
  m_wrapped q = Z.odd (m_wrapCount q + g_readWraps q).

(** [write] up to its loop: the start time is recorded if it still reads
    zero, and the write cursor wraps if it stands at or beyond the capacity. *)
Definition write_begin (timeStamp : Z) (q : LiveQueue) : LiveQueue :=
  let q := if m_queueStartTime q =? 0 then set_queueStartTime timeStamp q
           else q in
  if to_off_t (m_bufferSize q) <=? m_writeFd q then write_wrap q else q.

(** [write] from its loop on: the index is trimmed, a video keyframe is
    indexed at [writePosition], the packet is written and destroyed. *)
Definition write_finish (timeStamp : Z) (io_ok : bool) (data : PacketData.t)
    (writePosition : Z) (q : LiveQueue) : LiveQueue :=
  let p := PacketData.p data in
  let q := trim (writePosition + getPacketLength p) q in
  let q :=
    if bool_decide (getClientID p = ftIFRAME)
       && bool_decide (PacketData.content data = scVIDEO)
    then set_indexList
           (m_indexList q
              ++ [PacketIndex.mk writePosition timeStamp (PacketData.pts data)
                    (m_wrapCount q)]) q
    else q in
  delete_packet p (MsgPacket_write io_ok p q).2.

(** The write cursor: offset and wrap generation. *)
Definition cursor (q : LiveQueue) : Z * Z := (m_writeFd q, m_wrapCount q).

(** Where the write cursor stands, and in which generation, after a write
    that found it at [c] and persisted [n] bytes: a cursor at or beyond the
    capacity starts the next generation at offset 0, any other stays where it
    is; then it advances by [n]. No packet is split at the capacity. *)
Definition lazy_wrap (capacity : Z) (c : Z * Z) (n : Z) : Z * Z :=
  if capacity <=? c.1 then (n, c.2 + 1) else (c.1 + n, c.2).

Definition sum_bytes (ns : list Z) : Z := foldr Z.add 0 ns.

(** The bytes the calls of [write] made by a call persist: the length of the
    packet, or 0 for a write that fails. *)
Definition persisted (c : Call) (q : LiveQueue) : list Z :=
  match c with
  | CWriter timeStamp io_ok =>
      match m_writerQueue q with
      | [] => []
      | data :: rest =>
          match write timeStamp io_ok data (set_writerQueue rest q) with
          | Some (true, _) => [getPacketLength (PacketData.p data)]
          | _ => [0]
          end
      end
  | _ => []
  end.

Fixpoint persisted_bytes (cs : list Call) (q : LiveQueue) : list Z :=
  match cs with
  | [] => []
  | c :: cs' =>
      persisted c q
        ++ match call c q with
           | Some q' => persisted_bytes cs' q'
           | None => []
           end
  end.

(** The two ways [seek] fails: on an empty index, or when neither clamp
    applies and the scan from the newest entry finds no entry at or before
    the target. *)
Definition seek_fails (t : Z) (idx : list PacketIndex.t) : Prop :=
  idx = []
  ∨ ∃ h s, head idx = Some h ∧ last idx = Some s
           ∧ t < PacketIndex.wallclockTime s
           ∧ PacketIndex.wallclockTime h < t
           ∧ seek_loop t (reverse idx) = None.

(** The order of the index by wall-clock time. *)
Definition time_le (a b : PacketIndex.t) : Prop :=
  PacketIndex.wallclockTime a ≤ PacketIndex.wallclockTime b.

(** A pair of entries between which the read offset lies. *)
Definition boundary (readOffset : Z) (ij : PacketIndex.t * PacketIndex.t)
  : bool :=
  (PacketIndex.filePosition ij.1 <? readOffset)
  && (readOffset <=? PacketIndex.filePosition ij.2).

Definition adjacent_pairs (l : list PacketIndex.t)
  : list (PacketIndex.t * PacketIndex.t) := zip l (tail l).

Definition first_boundary (readOffset : Z) (l : list PacketIndex.t)
  : option (PacketIndex.t * PacketIndex.t) :=
  List.find (boundary readOffset) (adjacent_pairs l).

Definition offset_le (a b : PacketIndex.t) : Prop :=
  PacketIndex.filePosition a ≤ PacketIndex.filePosition b.

Fixpoint insert_by_offset (e : PacketIndex.t) (l : list PacketIndex.t)
  : list PacketIndex.t :=
  match l with
  | [] => [e]
  | x :: l' =>
      if PacketIndex.filePosition e <=? PacketIndex.filePosition x
      then e :: l
      else x :: insert_by_offset e l'
  end.

(** The entries of the index arranged by file offset. *)
Definition in_file_offset_order (l : list PacketIndex.t) : list PacketIndex.t :=
  foldr insert_by_offset [] l.

(** [seekNextKeyFrame] as the specification words it: the scan visits the
    entries in file-offset order. It is compared with the code below. *)
Definition seekNextKeyFrame_in_offset_order (q : LiveQueue) : LiveQueue :=
  match first_boundary (m_readFd q) (in_file_offset_order (m_indexList q)) with
  | Some ij => set_readFd (PacketIndex.filePosition ij.2) q
  | None => q
  end.

(** The read offset [r] lies between the entries [i] and [j]. *)
Definition is_boundary (r : Z) (i j : PacketIndex.t) : Prop :=
  PacketIndex.filePosition i < r ≤ PacketIndex.filePosition j.

(** No two neighbours of [l] have the read offset [r] between them. *)
Definition no_boundary (r : Z) (l : list PacketIndex.t) : Prop :=
  ∀ k1 a b k2, l = k1 ++ a :: b :: k2 → ¬ is_boundary r a b.

(** ** Sample packets and histories *)

Definition pkt (id : Z) (frame : FrameType) (len : positive) : MsgPacket :=
  Build_MsgPacket id frame len.

(** A video packet is submitted and the writer thread, at wall-clock time
    [timeStamp], writes it. *)
Definition submit (timeStamp : Z) (m : MsgPacket) : list Call :=
  [CQueue m scVIDEO (1000 * msgID m); CWriter timeStamp true].

Definition video (m : MsgPacket) : PacketData.t :=
  PacketData.mk m scVIDEO (1000 * msgID m).

(** Ten packets of ten bytes each, filling a buffer of 100 bytes exactly. *)
Definition ten_packets : list Call :=
  submit 1 (pkt 1 ftPFRAME 10) ++ submit 2 (pkt 2 ftPFRAME 10)
  ++ submit 3 (pkt 3 ftPFRAME 10) ++ submit 4 (pkt 4 ftPFRAME 10)
  ++ submit 5 (pkt 5 ftPFRAME 10) ++ submit 6 (pkt 6 ftPFRAME 10)
  ++ submit 7 (pkt 7 ftPFRAME 10) ++ submit 8 (pkt 8 ftPFRAME 10)
  ++ submit 9 (pkt 9 ftPFRAME 10) ++ submit 10 (pkt 10 ftPFRAME 10).

(** The consumer has read five of the ten packets when an eleventh wraps the
    write cursor: the flag is up, the write cursor at 10, the read cursor
    at 50. *)
Definition q_lapped : LiveQueue :=
  after (ten_packets ++ replicate 5 (CRead false)
         ++ submit 11 (pkt 11 ftPFRAME 10)) 100.

(** The consumer has read one of the ten packets; the write cursor stands at
    the capacity. *)
Definition q_full : LiveQueue := after (ten_packets ++ [CRead false]) 100.

(** Two packets of 60 bytes in a buffer of 100. *)
Definition two_sixties : list Call :=
  submit 1 (pkt 1 ftPFRAME 60) ++ submit 2 (pkt 2 ftPFRAME 60).

(** The consumer has caught up with a write cursor standing beyond the
    capacity, and reads once more. *)
Definition q_reader_ahead : LiveQueue :=
  after (two_sixties ++ replicate 3 (CRead false)) 100.

(** A keyframe at offset 60, then a write that wraps and fails in the
    overrun loop. *)
Definition q_after_failed_wrap : LiveQueue :=
  after (submit 1 (pkt 1 ftPFRAME 60) ++ submit 2 (pkt 2 ftIFRAME 60)
         ++ submit 3 (pkt 3 ftPFRAME 10)) 100.

(** The scenario of the specification: a keyframe at 0 ms, a frame at 40 ms,
    a keyframe at 2000 ms, in a buffer that holds all three. *)
Definition q_three : LiveQueue :=
  after (submit 0 (pkt 1 ftIFRAME 100) ++ submit 40 (pkt 2 ftPFRAME 100)
         ++ submit 2000 (pkt 3 ftIFRAME 100)) 1000.


(** A keyframe of the first generation at offset 80, two of the second at
    offsets 0 and 50; the consumer has read up to offset 60. *)
Definition q_two_generations : LiveQueue :=
  after (submit 1 (pkt 1 ftPFRAME 40) ++ submit 2 (pkt 2 ftPFRAME 40)
         ++ submit 3 (pkt 3 ftIFRAME 30) ++ replicate 3 (CRead false)
         ++ submit 4 (pkt 4 ftIFRAME 10) ++ submit 5 (pkt 5 ftPFRAME 40)
         ++ submit 6 (pkt 6 ftIFRAME 10) ++ replicate 3 (CRead false)) 100.

(** ** The methods on descriptors that may be invalid *)

(** [cleanup] assigns the results of its two calls of [open] without
    testing them (a failure of the second is only logged), so an instance can
    live with one or both descriptors invalid. The operations above are the
    methods of an instance whose two descriptors were opened; those of this
    module are the methods of every instance, and coincide with them, in a
    buffer of positive capacity, on an instance whose descriptors were opened
    (see [Fd_run_opened]).

    A descriptor that could not be opened is -1. [lseek] on it fails and
    returns -1, so -1 is what [m_readFd] and [m_writeFd], the offsets [lseek]
    reports, hold for an invalid descriptor; a valid descriptor always reports
    an offset from 0 on. *)
Module Fd.

(** Whether the descriptor reporting [offset] is a valid one. *)
Definition valid (offset : Z) : bool := 0 <=? offset.

(** [lseek(m_readFd, offset, SEEK_SET)], whose result the code never tests:
    the call fails, and moves nothing, on an invalid descriptor and for a
    negative offset. *)
Definition lseek_read (offset : Z) (q : LiveQueue) : LiveQueue :=
  if valid (m_readFd q) && (0 <=? offset) then set_readFd offset q else q.

(** [lseek(m_writeFd, offset, SEEK_SET)]. *)
Definition lseek_write (offset : Z) (q : LiveQueue) : LiveQueue :=
  if valid (m_writeFd q) && (0 <=? offset) then set_writeFd offset q else q.

(** The instance after its constructor ran. [writeOpens] and [readOpens]
    tell whether the first and the second [open] of [cleanup] succeed. The
    first truncates the file; when it fails, the second may still open a file
    left behind, whose content is [old]. A descriptor that was opened is put
    at offset 0. Modelled from the spec: the start time is "unset, reading as
    zero". *)
Definition LiveQueue_new (writeOpens readOpens : bool)
    (old : gmap Z MsgPacket) (bufferSize : Z) : LiveQueue :=
  mkLiveQueue bufferSize (if readOpens then 0 else -1)
    (if writeOpens then 0 else -1) (if writeOpens then ∅ else old)
    false false 0 false 0 [] [] 0 [].

(** Modelled from the spec: [MsgPacket::read(m_readFd, 1000)] reads a whole
    packet or nothing, and nothing from a descriptor that could not be
    created ("creation failure leaves the queue non-functional (subsequent
    operations return empty/failed)"). *)
Definition MsgPacket_read (q : LiveQueue) : option MsgPacket * LiveQueue :=
  if valid (m_readFd q)
  then match m_file q !! m_readFd q with
       | Some m => (Some m, set_readFd (m_readFd q + getPacketLength m) q)
       | None => (None, q)
       end
  else (None, q).

(** Modelled from the spec: [p->write(m_writeFd, 1000)] writes a whole
    packet or nothing, and nothing to a descriptor that could not be
    created. *)
Definition MsgPacket_write (io_ok : bool) (m : MsgPacket) (q : LiveQueue)
  : bool * LiveQueue :=
  if valid (m_writeFd q) && io_ok
  then (true, set_file (file_write (m_file q) (m_writeFd q) m)
                (set_writeFd (m_writeFd q + getPacketLength m) q))
  else (false, q).

(** The read cursor wraps: [lseek(m_readFd, 0, SEEK_SET)] and the flag
    toggles. *)
Definition read_wrap (q : LiveQueue) : LiveQueue :=
  set_readWraps (g_readWraps q + 1)
    (set_wrapped (negb (m_wrapped q)) (lseek_read 0 q)).

(** [LiveQueue::internalRead]. After a wrap the local [readPosition] is 0
    whatever [lseek] did. *)
Definition internalRead (q : LiveQueue) : option MsgPacket * LiveQueue :=
  let readPosition := m_readFd q in
  let writePosition := m_writeFd q in
  let '(readPosition, q) :=
    if to_off_t (m_bufferSize q) <=? readPosition
    then (0, read_wrap q)
    else (readPosition, q) in
  if (writePosition <=? readPosition) && negb (m_wrapped q)
  then (None, q)
  else MsgPacket_read q.

(** [LiveQueue::seekNextKeyFrame]. *)
Definition seekNextKeyFrame (q : LiveQueue) : LiveQueue :=
  match nextKeyFrame_loop (m_readFd q) (m_indexList q) with
  | None => q
  | Some readPosition => lseek_read readPosition q
  end.

(** [LiveQueue::read]. *)
Definition read (keyFrameMode : bool) (q : LiveQueue)
  : option MsgPacket * LiveQueue :=
  if m_pause q then (None, q)
  else
    let q := if keyFrameMode then seekNextKeyFrame q else q in
    internalRead q.

(** [LiveQueue::seek]. *)
Definition seek (wallclockPositionMs : Z) (q : LiveQueue) : Z * LiveQueue :=
  match reverse (m_indexList q), m_indexList q with
  | s :: _, h :: _ =>
      if PacketIndex.wallclockTime s <=? wallclockPositionMs
      then (PacketIndex.pts s, lseek_read (PacketIndex.filePosition s) q)
      else if wallclockPositionMs <=? PacketIndex.wallclockTime h
      then (PacketIndex.pts h, lseek_read (PacketIndex.filePosition h) q)
      else
        match seek_loop wallclockPositionMs (reverse (m_indexList q)) with
        | Some e => (PacketIndex.pts e, lseek_read (PacketIndex.filePosition e) q)
        | None => (0, q)
        end
  | _, _ => (0, q)
  end.

(** The write cursor wraps: [lseek(m_writeFd, 0, SEEK_SET)], the flag
    toggles, the sticky flag is set and the generation counter advances. *)
Definition write_wrap (q : LiveQueue) : LiveQueue :=
  set_wrapCount (m_wrapCount q + 1)
    (set_hasWrapped true
       (set_wrapped (negb (m_wrapped q)) (lseek_write 0 q))).

(** The loop [while(packetEndPosition >= readPosition && m_wrapped)] of
    [LiveQueue::write], with the results of [overrun_loop] above. *)
Fixpoint overrun_loop (fuel : nat) (packetEndPosition readPosition : Z)
    (q : LiveQueue) : option (bool * LiveQueue) :=
  if (readPosition <=? packetEndPosition) && m_wrapped q
  then
    match fuel with
    | O => None
    | S fuel' =>
        match internalRead q with
        | (None, q') => Some (false, q')
        | (Some _, q') => overrun_loop fuel' packetEndPosition readPosition q'
        end
    end
  else Some (true, q).

(** [LiveQueue::write]. After a wrap the local [writePosition] is 0 whatever
    [lseek] did; it is the offset the index entry records. *)
Definition write (timeStamp : Z) (io_ok : bool) (data : PacketData.t)
    (q : LiveQueue) : option (bool * LiveQueue) :=
  let p := PacketData.p data in
  let content := PacketData.content data in
  let pts := PacketData.pts data in
  let q := if m_queueStartTime q =? 0 then set_queueStartTime timeStamp q
           else q in
  let writePosition := m_writeFd q in
  let readPosition := m_readFd q in
  let '(writePosition, q) :=
    if to_off_t (m_bufferSize q) <=? writePosition
    then (0, write_wrap q)
    else (writePosition, q) in
  let packetEndPosition := writePosition + getPacketLength p in
  match overrun_loop (overrun_fuel q) packetEndPosition readPosition q with
  | None => None
  | Some (false, q) => Some (false, q)
  | Some (true, q) =>
      let q := trim packetEndPosition q in
      let keyFrame := bool_decide (getClientID p = ftIFRAME) in
      let q :=
        if keyFrame && bool_decide (content = scVIDEO)
        then set_indexList
               (m_indexList q
                  ++ [PacketIndex.mk writePosition timeStamp pts (m_wrapCount q)])
               q
        else q in
      let '(success, q) := MsgPacket_write io_ok p q in
      Some (success, delete_packet p q)
  end.

(** One turn of the writer thread's inner loop. *)
Definition writer_step (timeStamp : Z) (io_ok : bool) (q : LiveQueue)
  : option LiveQueue :=
  match m_writerQueue q with
  | [] => Some q
  | data :: rest =>
      match write timeStamp io_ok data (set_writerQueue rest q) with
      | Some (_, q') => Some q'
      | None => None
      end
  end.

(** [queue] and [pause] use no descriptor. *)
Definition call (c : Call) (q : LiveQueue) : option LiveQueue :=
  match c with
  | CQueue m content pts => Some (queue m content pts q)
  | CWriter timeStamp io_ok => writer_step timeStamp io_ok q
  | CRead keyFrameMode => Some (read keyFrameMode q).2
  | CSeek t => Some (seek t q).2
  | CPause on => Some (pause on q).2
  end.

Fixpoint run (cs : list Call) (q : LiveQueue) : option LiveQueue :=
  match cs with
  | [] => Some q
  | c :: cs' =>
      match call c q with
      | Some q' => run cs' q'
      | None => None
      end
  end.

End Fd.

(** The state a history leads to from a new instance, whatever became of its
    descriptors. *)
Definition Fd_after (cs : list Call) (writeOpens readOpens : bool)
    (old : gmap Z MsgPacket) (bufferSize : Z) : LiveQueue :=
  default (Fd.LiveQueue_new writeOpens readOpens old bufferSize)
    (Fd.run cs (Fd.LiveQueue_new writeOpens readOpens old bufferSize)).

(** [Fd.write] up to its loop. *)
Definition Fd_write_begin (timeStamp : Z) (q : LiveQueue) : LiveQueue :=
  let q := if m_queueStartTime q =? 0 then set_queueStartTime timeStamp q
           else q in
  if to_off_t (m_bufferSize q) <=? m_writeFd q then Fd.write_wrap q else q.

(** [Fd.write] from its loop on, with what it returns. *)
Definition Fd_write_finish (timeStamp : Z) (io_ok : bool) (data : PacketData.t)
    (writePosition : Z) (q : LiveQueue) : bool * LiveQueue :=
  let p := PacketData.p data in
  let q := trim (writePosition + getPacketLength p) q in
  let q :=
    if bool_decide (getClientID p = ftIFRAME)
       && bool_decide (PacketData.content data = scVIDEO)
    then set_indexList
           (m_indexList q
              ++ [PacketIndex.mk writePosition timeStamp (PacketData.pts data)
                    (m_wrapCount q)]) q
    else q in
  let r := Fd.MsgPacket_write io_ok p q in
  (r.1, delete_packet p r.2).

(** ** Further operations *)

(** The loop of [LiveQueue::~LiveQueue] over the submission list: the packet
    of the front entry is destroyed and the entry popped, until the list is
    empty. *)
Fixpoint destructor_loop (l : list PacketData.t) (q : LiveQueue) : LiveQueue :=
  match l with
  | [] => q
  | data :: rest =>
      destructor_loop rest
        (set_writerQueue rest (delete_packet (PacketData.p data) q))
  end.

(** [LiveQueue::~LiveQueue], as far as the state of the model goes: the
    writer thread has been joined, and the packets still in the submission
    list are destroyed. Closing the descriptors and unlinking the file end
    the life of the storage and are not part of the state. *)
Definition LiveQueue_destructor (q : LiveQueue) : LiveQueue :=
  destructor_loop (m_writerQueue q) q.

(** The value of a [char] of a C string as [strncmp] compares it; the end of
    the string is the character 0. *)
Definition char_at_head (s : string) : Z :=
  match s with
  | EmptyString => 0
  | String c _ => Z.of_N (Ascii.N_of_ascii c)
  end.

Definition string_tail (s : string) : string :=
  match s with
  | EmptyString => EmptyString
  | String _ r => r
  end.

(** [strncmp] of the C library: at most [n] characters are compared, and the
    comparison stops at the end of the strings. The result is zero, or the
    difference of the first two characters that differ. *)
Fixpoint strncmp (s1 s2 : string) (n : nat) : Z :=
  match n with
  | O => 0
  | S n' =>
      let c1 := char_at_head s1 in
      let c2 := char_at_head s2 in
      if c1 =? c2
      then if c1 =? 0 then 0 else strncmp (string_tail s1) (string_tail s2) n'
      else c1 - c2
  end.

(** The name, inside the time-shift directory, of the file [cleanup] opens,
    ["robotv-ringbuffer-%05i.data"]; [number] is the text the conversion
    [%05i] produces for the socket. *)
Definition storage_file (number : string) : string :=
  String.append "robotv-ringbuffer-" (String.append number ".data").

(** [LiveQueue::removeTimeShiftFiles]: [dir] is what [opendir] and the
    [readdir] loop give for the time-shift directory, the names of its
    entries in the order they are read, or [None] when the directory cannot
    be opened. The result lists the names [unlink] is called on. *)
Definition removeTimeShiftFiles (dir : option (list string)) : list string :=
  match dir with
  | None => []
  | Some entries =>
      List.filter (λ d_name, strncmp d_name "robotv-ringbuffer-" 16 =? 0)
        entries
  end.

(** ** Histories of writes and reads *)

(** The packets of [ws] are written one after the other, each at its
    wall-clock time, by a descriptor that accepts them; [None] when a write
    returns false. *)
Fixpoint write_all (ws : list (Z * PacketData.t)) (q : LiveQueue)
  : option LiveQueue :=
  match ws with
  | [] => Some q
  | w :: ws' =>
      match write w.1 true w.2 q with
      | Some (true, q') => write_all ws' q'
      | _ => None
      end
  end.

(** [n] calls of [read] in normal mode, with what each returned. *)
Fixpoint read_all (n : nat) (q : LiveQueue)
  : list (option MsgPacket) * LiveQueue :=
  match n with
  | O => ([], q)
  | S n' =>
      let '(r, q') := read false q in
      let '(rs, q'') := read_all n' q' in
      (r :: rs, q'')
  end.

(** The turns of the writer thread alone: one entry of [env] for each turn,
    the wall-clock time of the write and whether the descriptor accepts the
    packet. *)
Definition writer_turns (env : list (Z * bool)) : list Call :=
  (λ e, CWriter e.1 e.2) <$> env.

(** ** Further vocabulary *)

(** Where a call of [write] puts its packet: at offset 0 when it finds the
    write cursor at or beyond the capacity, at the write cursor otherwise. *)
Definition write_start (q : LiveQueue) : Z :=
  if to_off_t (m_bufferSize q) <=? m_writeFd q then 0 else m_writeFd q.

(** The index entry a write appends for the packet of [data] stored at
    [start]: one entry for an I-frame of the video stream, none otherwise.
    [q'] is the state the write leaves. *)
Definition index_entry (timeStamp : Z) (data : PacketData.t) (q' : LiveQueue)
    (start : Z) : list PacketIndex.t :=
  if bool_decide (getClientID (PacketData.p data) = ftIFRAME)
     && bool_decide (PacketData.content data = scVIDEO)
  then [PacketIndex.mk start timeStamp (PacketData.pts data) (m_wrapCount q')]
  else [].

(** The order of wrap generations, and of file offsets within one
    generation. *)
Definition gen_offset_le (a b : PacketIndex.t) : Prop :=
  PacketIndex.wrapCount a < PacketIndex.wrapCount b
  ∨ PacketIndex.wrapCount a = PacketIndex.wrapCount b
    ∧ PacketIndex.filePosition a ≤ PacketIndex.filePosition b.

(** An index entry lies below the capacity, belongs to a generation that has
    begun, and, if it belongs to the current one, lies at or below the write
    cursor. *)
Definition entry_ok (q : LiveQueue) (e : PacketIndex.t) : Prop :=
  0 ≤ PacketIndex.filePosition e < to_off_t (m_bufferSize q)
  ∧ 0 ≤ PacketIndex.wrapCount e ≤ m_wrapCount q
  ∧ (PacketIndex.wrapCount e = m_wrapCount q →
     PacketIndex.filePosition e ≤ m_writeFd q).

Definition index_ok (q : LiveQueue) : Prop :=
  0 ≤ m_writeFd q ∧ 0 ≤ m_readFd q ∧ 0 ≤ m_wrapCount q
  ∧ (m_hasWrapped q = true ↔ 0 < m_wrapCount q)
  ∧ Forall (entry_ok q) (m_indexList q)
  ∧ StronglySorted gen_offset_le (m_indexList q).

Definition packets_of (ws : list (Z * PacketData.t)) : list MsgPacket :=
  (λ w, PacketData.p w.2) <$> ws.

Definition lengths_of (ms : list MsgPacket) : list Z := getPacketLength <$> ms.

(** The packets [ms] are stored back to back from offset [o] on. *)
Fixpoint laid_out (f : gmap Z MsgPacket) (o : Z) (ms : list MsgPacket) : Prop :=
  match ms with
  | [] => True
  | m :: ms' => f !! o = Some m ∧ laid_out f (o + getPacketLength m) ms'
  end.

(** Every packet of [ms], stored back to back from [o] on, starts below
    [capacity]. *)
Fixpoint starts_below (capacity o : Z) (ms : list MsgPacket) : Prop :=
  match ms with
  | [] => True
  | m :: ms' => o < capacity ∧ starts_below capacity (o + getPacketLength m) ms'
  end.

(** Every stored packet ends at or below [w]. *)
Definition file_below (f : gmap Z MsgPacket) (w : Z) : Prop :=
  ∀ o m, f !! o = Some m → o + getPacketLength m ≤ w.

(** The state in which the consumer has read nothing and the packets [ms],
    written so far, lie back to back from offset 0 on. *)
Definition filled (ms : list MsgPacket) (q : LiveQueue) : Prop :=
  m_wrapped q = false ∧ m_pause q = false ∧ m_readFd q = 0
  ∧ m_writeFd q = sum_bytes (lengths_of ms)
  ∧ laid_out (m_file q) 0 ms ∧ file_below (m_file q) (m_writeFd q).

(** The write of [data] leaves through the [return NULL] of its overrun
    loop. *)
Definition fails_in_loop (timeStamp : Z) (data : PacketData.t) (q : LiveQueue)
  : bool :=
  match overrun_loop (overrun_fuel (write_begin timeStamp q))
          (m_writeFd (write_begin timeStamp q)
           + getPacketLength (PacketData.p data))
          (m_readFd q) (write_begin timeStamp q) with
  | Some (false, _) => true
  | _ => false
  end.

(** The packet a call hands over to the queue. *)
Definition submitted (c : Call) : list MsgPacket :=
  match c with
  | CQueue m _ _ => [m]
  | _ => []
  end.

(** The packet a call drops without destroying it: the one a turn of the
    writer thread has popped when its write leaves through the overrun
    loop. *)
Definition leaked (c : Call) (q : LiveQueue) : list MsgPacket :=
  match c with
  | CWriter timeStamp _ =>
      match m_writerQueue q with
      | [] => []
      | data :: rest =>
          if fails_in_loop timeStamp data (set_writerQueue rest q)
          then [PacketData.p data]
          else []
      end
  | _ => []
  end.

Definition all_submitted (cs : list Call) : list MsgPacket := cs ≫= submitted.

Fixpoint all_leaked (cs : list Call) (q : LiveQueue) : list MsgPacket :=
  match cs with
  | [] => []
  | c :: cs' =>
      leaked c q
        ++ match call c q with
           | Some q' => all_leaked cs' q'
           | None => []
           end
  end.

(** The packets waiting in the submission list. *)
Definition held (q : LiveQueue) : list MsgPacket :=
  PacketData.p <$> m_writerQueue q.

(** The wall-clock times the writes of a history read never go back, and
    start at or after [t0]. *)
Fixpoint clock_monotone (t0 : Z) (cs : list Call) : Prop :=
  match cs with
  | [] => True
  | CWriter timeStamp _ :: cs' => t0 ≤ timeStamp ∧ clock_monotone timeStamp cs'
  | _ :: cs' => clock_monotone t0 cs'
  end.

(** No index entry is later than [t], and the index is in wall-clock
    order. *)
Definition times_ok (t : Z) (q : LiveQueue) : Prop :=
  Forall (λ e, PacketIndex.wallclockTime e ≤ t) (m_indexList q)
  ∧ StronglySorted time_le (m_indexList q).

(** The descriptor accepts the packet of every write of the history. *)
Definition descriptor_accepts (c : Call) : Prop :=
  match c with
  | CWriter _ io_ok => io_ok = true
  | _ => True
  end.

(** Every index entry points at an I-frame packet stored intact below the
    write cursor, at an offset below the capacity. *)
Definition keyframes_intact (q : LiveQueue) : Prop :=
  Forall (λ e, PacketIndex.filePosition e < to_off_t (m_bufferSize q)
               ∧ ∃ m, m_file q !! PacketIndex.filePosition e = Some m
                      ∧ getClientID m = ftIFRAME)
    (m_indexList q)
  ∧ file_below (m_file q) (m_writeFd q).

(** What holds of an instance whose write descriptor is invalid; if its read
    descriptor is invalid as well, the flag stays down. *)
Definition write_unopened (old : gmap Z MsgPacket) (bufferSize : Z)
    (readOpens : bool) (q : LiveQueue) : Prop :=
  m_writeFd q = -1 ∧ m_file q = old ∧ m_hasWrapped q = false
  ∧ m_bufferSize q = bufferSize
  ∧ Forall (λ e, PacketIndex.filePosition e = -1) (m_indexList q)
  ∧ (readOpens = false → m_readFd q = -1 ∧ m_wrapped q = false).

(** ** Further sample histories *)

(** The history of [q_three]. *)
Definition three_frames : list Call :=
  submit 0 (pkt 1 ftIFRAME 100) ++ submit 40 (pkt 2 ftPFRAME 100)
  ++ submit 2000 (pkt 3 ftIFRAME 100).

(** The history of [q_two_generations]. *)
Definition two_generations : list Call :=
  submit 1 (pkt 1 ftPFRAME 40) ++ submit 2 (pkt 2 ftPFRAME 40)
  ++ submit 3 (pkt 3 ftIFRAME 30) ++ replicate 3 (CRead false)
  ++ submit 4 (pkt 4 ftIFRAME 10) ++ submit 5 (pkt 5 ftPFRAME 40)
  ++ submit 6 (pkt 6 ftIFRAME 10) ++ replicate 3 (CRead false).

(** The history of [q_after_failed_wrap]. *)
Definition failed_wrap : list Call :=
  submit 1 (pkt 1 ftPFRAME 60) ++ submit 2 (pkt 2 ftIFRAME 60)
  ++ submit 3 (pkt 3 ftPFRAME 10).

(** Three packets submitted, no turn of the writer thread yet. *)
Definition three_waiting : list Call :=
  [CQueue (pkt 1 ftIFRAME 30) scVIDEO 1000;
   CQueue (pkt 2 ftPFRAME 30) scVIDEO 2000;
   CQueue (pkt 3 ftPFRAME 30) scVIDEO 3000].

(** An I-frame of 30 bytes and a frame of 40 bytes, written at times 1
    and 2. *)
Definition two_writes : list (Z * PacketData.t) :=
  [(1, video (pkt 1 ftIFRAME 30)); (2, video (pkt 2 ftPFRAME 40))].

(** Two packets of 60 bytes, written at times 1 and 2. *)
Definition two_sixty_writes : list (Z * PacketData.t) :=
  [(1, video (pkt 1 ftPFRAME 60)); (2, video (pkt 2 ftPFRAME 60))].

(** The consumer has read both packets of [two_sixties] and stands on the
    write cursor, beyond the capacity. *)
Definition q_caught_up : LiveQueue :=
  after (two_sixties ++ replicate 2 (CRead false)) 100.

(** The consumer has read both of two packets of 40 bytes and stands on the
    write cursor, below the capacity. *)
Definition q_caught_up_below : LiveQueue :=
  after (submit 1 (pkt 1 ftPFRAME 40) ++ submit 2 (pkt 2 ftPFRAME 40)
         ++ replicate 2 (CRead false)) 100.

(** A video I-frame submitted to, and taken up by the writer thread of, an
    instance neither of whose descriptors could be opened. *)
Definition q_unopened : LiveQueue :=
  Fd_after (submit 1 (pkt 1 ftIFRAME 60)) false false ∅ 100.

(** The same on an instance whose read descriptor alone could not be
    opened. *)
Definition q_read_unopened : LiveQueue :=
  Fd_after (submit 1 (pkt 1 ftIFRAME 60)) true false ∅ 100.

(** * Properties *)

(** ** Record plumbing *)

Lemma set_readFd_same q : set_readFd (m_readFd q) q = q.
Proof. by destruct q. Qed.

Lemma set_pause_same q : set_pause (m_pause q) q = q.
Proof. by destruct q. Qed.

(** ** Reads and the overrun loop *)

Lemma read_frame_refl q : read_frame q q.
Proof. by repeat split. Qed.

Lemma read_frame_trans q1 q2 q3 :
  read_frame q1 q2 → read_frame q2 q3 → read_frame q1 q3.
Proof. unfold read_frame. intros H1 H2. destruct_and!. repeat split; congruence. Qed.

Lemma getPacketLength_pos m : 0 < getPacketLength m.
Proof. unfold getPacketLength. lia. Qed.

Lemma MsgPacket_read_some q m q' :
  MsgPacket_read q = (Some m, q') →
  m_file q !! m_readFd q = Some m ∧ q' = set_readFd (m_readFd q + getPacketLength m) q.
Proof. unfold MsgPacket_read. case_match; naive_solver. Qed.

Lemma MsgPacket_read_none q q' :
  MsgPacket_read q = (None, q') → q' = q.
Proof. unfold MsgPacket_read. case_match; naive_solver. Qed.

(** What one call of [internalRead] does, by cases on the source's two
    tests. *)
Lemma internalRead_cases q r q' :
  internalRead q = (r, q') →
  (to_off_t (m_bufferSize q) ≤ m_readFd q ∧
     ((r = None ∧ q' = read_wrap q) ∨ MsgPacket_read (read_wrap q) = (r, q')))
  ∨ (m_readFd q < to_off_t (m_bufferSize q) ∧
     ((r = None ∧ q' = q ∧ m_writeFd q ≤ m_readFd q ∧ m_wrapped q = false)
      ∨ MsgPacket_read q = (r, q'))).
Proof.
  unfold internalRead.
  destruct (Z.leb_spec (to_off_t (m_bufferSize q)) (m_readFd q)) as [Hw|Hw].
  - intros H. left. split; [done|].
    destruct (_ && _); [left|right]; naive_solver.
  - intros H. right. split; [done|].
    destruct (Z.leb_spec (m_writeFd q) (m_readFd q)) as [Hr|Hr]; simpl in H.
    + destruct (m_wrapped q) eqn:Ew; simpl in H; [by right|left]. naive_solver.
    + by right.
Qed.

Lemma MsgPacket_read_frame q r q' : MsgPacket_read q = (r, q') → read_frame q q'.
Proof.
  destruct r as [m|]; intros H.
  - apply MsgPacket_read_some in H as [_ ->]. by repeat split.
  - apply MsgPacket_read_none in H as ->. apply read_frame_refl.
Qed.

Lemma internalRead_frame q r q' : internalRead q = (r, q') → read_frame q q'.
Proof.
  intros H. apply internalRead_cases in H as [[_ [[_ ->]|H]]|[_ [(_&->&_)|H]]].
  - by repeat split.
  - apply MsgPacket_read_frame in H.
    eapply read_frame_trans; [|exact H]. by repeat split.
  - apply read_frame_refl.
  - by apply MsgPacket_read_frame in H.
Qed.

Lemma Z_odd_succ_negb n : Z.odd (n + 1) = negb (Z.odd n).
Proof. change (n + 1) with (Z.succ n). by rewrite Z.odd_succ, <- Z.negb_odd. Qed.

Lemma read_wrap_parity q : wraps_parity q → wraps_parity (read_wrap q).
Proof.
  unfold wraps_parity, read_wrap. simpl. intros ->.
  by rewrite Z.add_assoc, Z_odd_succ_negb.
Qed.

Lemma MsgPacket_read_parity q r q' :
  MsgPacket_read q = (r, q') → wraps_parity q → wraps_parity q'.
Proof.
  destruct r as [m|]; intros H.
  - by apply MsgPacket_read_some in H as [_ ->].
  - by apply MsgPacket_read_none in H as ->.
Qed.

Lemma internalRead_parity q r q' :
  internalRead q = (r, q') → wraps_parity q → wraps_parity q'.
Proof.
  intros H Hq. apply internalRead_cases in H as [[_ [[_ ->]|H]]|[_ [(_&->&_)|H]]].
  - by apply read_wrap_parity.
  - eapply MsgPacket_read_parity; [exact H|]. by apply read_wrap_parity.
  - done.
  - by eapply MsgPacket_read_parity.
Qed.

Lemma overrun_loop_frame fuel pe rp q b q' :
  overrun_loop fuel pe rp q = Some (b, q') → read_frame q q'.
Proof.
  revert q. induction fuel as [|fuel IH]; intros q; simpl.
  - destruct (_ && _); [done|]. intros [= <- <-]. apply read_frame_refl.
  - destruct (_ && _); [|intros [= <- <-]; apply read_frame_refl].
    destruct (internalRead q) as [[m|] q1] eqn:Hr.
    + intros H. eapply read_frame_trans; [by eapply internalRead_frame|by apply IH].
    + intros [= <- <-]. by eapply internalRead_frame.
Qed.

Lemma overrun_loop_parity fuel pe rp q b q' :
  overrun_loop fuel pe rp q = Some (b, q') → wraps_parity q → wraps_parity q'.
Proof.
  revert q. induction fuel as [|fuel IH]; intros q; simpl.
  - destruct (_ && _); [done|]. by intros [= <- <-].
  - destruct (_ && _); [|by intros [= <- <-]].
    destruct (internalRead q) as [[m|] q1] eqn:Hr.
    + intros H Hq. apply (IH q1); [done|]. by eapply internalRead_parity.
    + intros [= <- <-]. by eapply internalRead_parity.
Qed.

(** The loop is left through its condition only once the flag is down: the
    comparison of the two positions never changes during the loop. *)
Lemma overrun_loop_exit fuel pe rp q q' :
  overrun_loop fuel pe rp q = Some (true, q') →
  q' = q ∧ (pe < rp ∨ m_wrapped q = false) ∨ m_wrapped q' = false.
Proof.
  revert q. induction fuel as [|fuel IH]; intros q; simpl.
  - destruct (Z.leb_spec rp pe) as [Hle|Hgt]; simpl.
    + destruct (m_wrapped q) eqn:E; [done|]. intros [= <-]. left; auto.
    + intros [= <-]. left; auto.
  - destruct (Z.leb_spec rp pe) as [Hle|Hgt]; simpl.
    + destruct (m_wrapped q) eqn:E; [|intros [= <-]; left; auto].
      destruct (internalRead q) as [[m|] q1] eqn:Hr; [|done].
      intros Hl. apply IH in Hl as [[-> [?|?]]|?]; [lia|by right|by right].
    + intros [= <-]. left; auto.
Qed.

(** The loop always finishes within [overrun_fuel] iterations. *)
Lemma overrun_loop_terminates fuel pe rp q :
  (Z.to_nat (to_off_t (m_bufferSize q) - m_readFd q) + 2 ≤ fuel)%nat →
  overrun_loop fuel pe rp q ≠ None.
Proof.
  revert q. induction fuel as [|fuel IH]; intros q Hf; [lia|]. simpl.
  destruct (rp <=? pe); simpl; [|done].
  destruct (m_wrapped q) eqn:Ew; [|done].
  destruct (internalRead q) as [[m|] q1] eqn:Hr; [|done].
  apply internalRead_cases in Hr as [[Hge [[? _]|Hr]]|[Hlt [(?&_)|Hr]]]; try done.
  - apply MsgPacket_read_some in Hr as [_ ->].
    destruct fuel; simpl; rewrite Ew; simpl; by rewrite andb_false_r.
  - apply MsgPacket_read_some in Hr as [_ ->].
    apply IH. simpl. pose proof (getPacketLength_pos m). lia.
Qed.

Lemma write_unfold ts io d q :
  write ts io d q =
    let q1 := write_begin ts q in
    match overrun_loop (overrun_fuel q1)
            (m_writeFd q1 + getPacketLength (PacketData.p d)) (m_readFd q) q1 with
    | None => None
    | Some (false, q2) => Some (false, q2)
    | Some (true, q2) => Some (io, write_finish ts io d (m_writeFd q1) q2)
    end.
Proof.
  unfold write, write_begin, write_finish.
  destruct (m_queueStartTime q =? 0);
    cbv beta iota zeta; cbn [m_bufferSize m_writeFd m_readFd set_queueStartTime];
    destruct (to_off_t (m_bufferSize q) <=? m_writeFd q);
    cbv beta iota zeta;
    (destruct (overrun_loop _ _ _ _) as [[[] q2]|]; [|done..]);
    unfold MsgPacket_write; by destruct io.
Qed.

Lemma write_begin_readFd ts q : m_readFd (write_begin ts q) = m_readFd q.
Proof.
  unfold write_begin.
  destruct (m_queueStartTime q =? 0); cbn;
    by destruct (to_off_t (m_bufferSize q) <=? m_writeFd q).
Qed.

Lemma write_begin_bufferSize ts q :
  m_bufferSize (write_begin ts q) = m_bufferSize q.
Proof.
  unfold write_begin.
  destruct (m_queueStartTime q =? 0); cbn;
    by destruct (to_off_t (m_bufferSize q) <=? m_writeFd q).
Qed.

Lemma write_returns ts io d q : ∃ ok q', write ts io d q = Some (ok, q').
Proof.
  rewrite write_unfold. cbv zeta.
  destruct (overrun_loop _ _ _ _) as [[[] q2]|] eqn:Hl; [by eauto..|].
  apply overrun_loop_terminates in Hl; [done|].
  unfold overrun_fuel.
  rewrite write_begin_readFd, write_begin_bufferSize. lia.
Qed.

(** Inversion of a call of [write]: the loop ran on [write_begin] and either
    failed, which is the result, or was left, and [write_finish] followed. *)
Lemma write_inv ts io d q ok q' :
  write ts io d q = Some (ok, q') →
  ∃ b q2,
    overrun_loop (overrun_fuel (write_begin ts q))
      (m_writeFd (write_begin ts q) + getPacketLength (PacketData.p d))
      (m_readFd q) (write_begin ts q) = Some (b, q2)
    ∧ if b
      then ok = io
           ∧ q' = write_finish ts io d (m_writeFd (write_begin ts q)) q2
      else ok = false ∧ q' = q2.
Proof.
  rewrite write_unfold. cbv zeta.
  destruct (overrun_loop _ _ _ _) as [[[] q2]|]; [| |done]; intros [= <- <-].
  - by exists true, q2.
  - by exists false, q2.
Qed.

Lemma write_begin_cursor ts q :
  cursor (write_begin ts q)
  = lazy_wrap (to_off_t (m_bufferSize q)) (cursor q) 0.
Proof.
  unfold write_begin, lazy_wrap, cursor.
  destruct (m_queueStartTime q =? 0); cbn;
    destruct (to_off_t (m_bufferSize q) <=? m_writeFd q); cbn; f_equal; lia.
Qed.

Lemma trim_cursor pos q : cursor (trim pos q) = cursor q.
Proof. unfold trim. by repeat (case_match; simpl). Qed.

Lemma write_finish_cursor ts io d wp q :
  cursor (write_finish ts io d wp q)
  = (m_writeFd q + (if io then getPacketLength (PacketData.p d) else 0),
     m_wrapCount q).
Proof.
  unfold write_finish, MsgPacket_write.
  pose proof (trim_cursor (wp + getPacketLength (PacketData.p d)) q) as Ht.
  unfold cursor in *. injection Ht as Hw Hc.
  destruct (_ && _), io; cbn; rewrite ?Hw, ?Hc; f_equal; lia.
Qed.

Lemma lazy_wrap_add capacity c n :
  lazy_wrap capacity c n
  = ((lazy_wrap capacity c 0).1 + n, (lazy_wrap capacity c 0).2).
Proof. unfold lazy_wrap. destruct (_ <=? _); cbn; f_equal; lia. Qed.

(** One write moves the write cursor as [lazy_wrap] says, whatever happens to
    the read cursor in the overrun loop. *)
Lemma write_cursor ts io d q ok q' :
  write ts io d q = Some (ok, q') →
  cursor q'
  = lazy_wrap (to_off_t (m_bufferSize q)) (cursor q)
      (if ok then getPacketLength (PacketData.p d) else 0).
Proof.
  intros H. apply write_inv in H as ([] & q2 & Hl & -> & ->);
    apply overrun_loop_frame in Hl as (_&Hw&_&_&Hc&_).
  - rewrite write_finish_cursor, Hw, Hc, lazy_wrap_add.
    by rewrite <- (write_begin_cursor ts).
  - unfold cursor at 1. rewrite Hw, Hc. apply write_begin_cursor.
Qed.

Lemma write_begin_parity ts q : wraps_parity q → wraps_parity (write_begin ts q).
Proof.
  unfold write_begin, wraps_parity.
  destruct (m_queueStartTime q =? 0); cbn;
    destruct (to_off_t (m_bufferSize q) <=? m_writeFd q); cbn; try done;
    intros ->; by rewrite <- Z.add_assoc, (Z.add_comm 1), Z.add_assoc,
                  Z_odd_succ_negb.
Qed.

Lemma trim_wraps pos q :
  m_wrapped (trim pos q) = m_wrapped q
  ∧ m_wrapCount (trim pos q) = m_wrapCount q
  ∧ g_readWraps (trim pos q) = g_readWraps q
  ∧ m_bufferSize (trim pos q) = m_bufferSize q
  ∧ m_writerQueue (trim pos q) = m_writerQueue q
  ∧ m_hasWrapped (trim pos q) = m_hasWrapped q.
Proof. unfold trim. by repeat (case_match; simpl). Qed.

Lemma write_finish_wraps ts io d wp q :
  m_wrapped (write_finish ts io d wp q) = m_wrapped q
  ∧ m_wrapCount (write_finish ts io d wp q) = m_wrapCount q
  ∧ g_readWraps (write_finish ts io d wp q) = g_readWraps q
  ∧ m_bufferSize (write_finish ts io d wp q) = m_bufferSize q
  ∧ m_writerQueue (write_finish ts io d wp q) = m_writerQueue q
  ∧ m_hasWrapped (write_finish ts io d wp q) = m_hasWrapped q.
Proof.
  unfold write_finish, MsgPacket_write.
  pose proof (trim_wraps (wp + getPacketLength (PacketData.p d)) q).
  by destruct (_ && _), io; cbn.
Qed.

Lemma write_parity ts io d q ok q' :
  write ts io d q = Some (ok, q') → wraps_parity q → wraps_parity q'.
Proof.
  intros H Hq. apply (write_begin_parity ts) in Hq.
  apply write_inv in H as ([] & q2 & Hl & -> & ->);
    eapply overrun_loop_parity in Hl; try done.
  unfold wraps_parity in *.
  by destruct (write_finish_wraps ts io d (m_writeFd (write_begin ts q)) q2)
    as (->&->&->&_).
Qed.

Lemma write_bufferSize ts io d q ok q' :
  write ts io d q = Some (ok, q') → m_bufferSize q' = m_bufferSize q.
Proof.
  intros H. apply write_inv in H as ([] & q2 & Hl & -> & ->);
    apply overrun_loop_frame in Hl as (Hb&_).
  - destruct (write_finish_wraps ts io d (m_writeFd (write_begin ts q)) q2)
      as (_&_&_&->&_). by rewrite Hb, write_begin_bufferSize.
  - by rewrite Hb, write_begin_bufferSize.
Qed.

Lemma write_writerQueue ts io d q ok q' :
  write ts io d q = Some (ok, q') → m_writerQueue q' = m_writerQueue q.
Proof.
  intros H.
  assert (m_writerQueue (write_begin ts q) = m_writerQueue q) as Hq.
  { unfold write_begin. destruct (m_queueStartTime q =? 0); cbn;
      by destruct (to_off_t (m_bufferSize q) <=? m_writeFd q). }
  apply write_inv in H as ([] & q2 & Hl & -> & ->);
    apply overrun_loop_frame in Hl as (_&_&_&_&_&_&_&_&Hw&_).
  - destruct (write_finish_wraps ts io d (m_writeFd (write_begin ts q)) q2)
      as (_&_&_&_&->&_). congruence.
  - congruence.
Qed.

Lemma seekNextKeyFrame_frame q : read_frame q (seekNextKeyFrame q).
Proof. unfold seekNextKeyFrame. case_match; by repeat split. Qed.

Lemma seekNextKeyFrame_parity q : wraps_parity q → wraps_parity (seekNextKeyFrame q).
Proof. unfold seekNextKeyFrame. by case_match. Qed.

Lemma read_frame_of_read k q : read_frame q (read k q).2.
Proof.
  unfold read. destruct (m_pause q); [apply read_frame_refl|].
  destruct k.
  - eapply read_frame_trans; [apply seekNextKeyFrame_frame|].
    eapply internalRead_frame. apply surjective_pairing.
  - eapply internalRead_frame. apply surjective_pairing.
Qed.

Lemma read_parity k q : wraps_parity q → wraps_parity (read k q).2.
Proof.
  unfold read. destruct (m_pause q); [done|]. intros Hq.
  destruct k.
  - eapply internalRead_parity; [apply surjective_pairing|].
    by apply seekNextKeyFrame_parity.
  - eapply internalRead_parity; [apply surjective_pairing|done].
Qed.

(** [seek] moves nothing but the read cursor. *)
Lemma seek_frame t q : ∃ pos, (seek t q).2 = set_readFd pos q.
Proof.
  unfold seek. repeat case_match; simpl; eauto;
    exists (m_readFd q); by rewrite set_readFd_same.
Qed.

Lemma call_total c q : is_Some (call c q).
Proof.
  destruct c as [m c t|ts io|k|t|on]; simpl; try done.
  unfold writer_step. destruct (m_writerQueue q) as [|d rest]; [done|].
  by destruct (write_returns ts io d (set_writerQueue rest q)) as (ok&q'&->).
Qed.

Lemma run_total cs q : is_Some (run cs q).
Proof.
  revert q. induction cs as [|c cs IH]; intros q; simpl; [done|].
  destruct (call_total c q) as [q' ->]. apply IH.
Qed.

Lemma call_bufferSize c q q' : call c q = Some q' → m_bufferSize q' = m_bufferSize q.
Proof.
  destruct c as [m c t|ts io|k|t|on]; simpl.
  - intros [= <-]. unfold queue. by case_match.
  - unfold writer_step. destruct (m_writerQueue q) as [|d rest]; [by intros [= <-]|].
    destruct (write _ _ _ _) as [[ok q1]|] eqn:Hw; [|done]. intros [= <-].
    by apply write_bufferSize in Hw.
  - intros [= <-]. by destruct (read_frame_of_read k q) as (->&_).
  - intros [= <-]. by destruct (seek_frame t q) as [pos ->].
  - intros [= <-]. unfold pause. by case_match.
Qed.

Lemma call_parity c q q' : call c q = Some q' → wraps_parity q → wraps_parity q'.
Proof.
  destruct c as [m c t|ts io|k|t|on]; simpl.
  - intros [= <-]. unfold queue. by case_match.
  - unfold writer_step. destruct (m_writerQueue q) as [|d rest]; [by intros [= <-]|].
    destruct (write _ _ _ _) as [[ok q1]|] eqn:Hw; [|done]. intros [= <-] Hq.
    by apply write_parity in Hw.
  - intros [= <-]. apply read_parity.
  - intros [= <-]. by destruct (seek_frame t q) as [pos ->].
  - intros [= <-]. unfold pause. by case_match.
Qed.

Lemma call_cursor c q q' :
  call c q = Some q' →
  cursor q' = foldl (lazy_wrap (to_off_t (m_bufferSize q))) (cursor q) (persisted c q).
Proof.
  destruct c as [m c t|ts io|k|t|on]; simpl.
  - intros [= <-]. unfold queue. by case_match.
  - unfold writer_step. destruct (m_writerQueue q) as [|d rest]; [by intros [= <-]|].
    destruct (write _ _ _ _) as [[ok q1]|] eqn:Hw; [|done]. intros [= <-].
    apply write_cursor in Hw. rewrite Hw. by destruct ok.
  - intros [= <-]. destruct (read_frame_of_read k q) as (_&Hw&_&_&Hc&_).
    unfold cursor. by rewrite Hw, Hc.
  - intros [= <-]. by destruct (seek_frame t q) as [pos ->].
  - intros [= <-]. unfold pause. by case_match.
Qed.

(** ** Histories and reachable states *)

Lemma run_app cs1 cs2 q :
  run (cs1 ++ cs2) q = run cs1 q ≫= run cs2.
Proof.
  revert q. induction cs1 as [|c cs1 IH]; intros q; simpl; [done|].
  destruct (call c q); [apply IH|done].
Qed.

Lemma run_after cs bufferSize :
  run cs (LiveQueue_new bufferSize) = Some (after cs bufferSize).
Proof.
  unfold after. by destruct (run_total cs (LiveQueue_new bufferSize)) as [q ->].
Qed.

Lemma reachable_after cs bufferSize : reachable bufferSize (after cs bufferSize).
Proof. exists cs. apply run_after. Qed.

(** A property of the new instance that every call preserves holds in every
    reachable state. *)
Lemma reachable_invariant (P : LiveQueue → Prop) bufferSize :
  P (LiveQueue_new bufferSize) →
  (∀ c q q', call c q = Some q' → P q → P q') →
  ∀ q, reachable bufferSize q → P q.
Proof.
  intros Hnew Hstep q [cs Hrun]. revert Hrun Hnew.
  generalize (LiveQueue_new bufferSize). revert q.
  induction cs as [|c cs IH]; intros q q0; simpl.
  - by intros [= <-].
  - destruct (call c q0) as [q1|] eqn:Hc; [|done]. eauto.
Qed.

Lemma run_bufferSize cs q q' : run cs q = Some q' → m_bufferSize q' = m_bufferSize q.
Proof.
  revert q. induction cs as [|c cs IH]; intros q; simpl.
  - by intros [= <-].
  - destruct (call c q) as [q1|] eqn:Hc; [|done]. intros Hr.
    apply IH in Hr. apply call_bufferSize in Hc. congruence.
Qed.

(** ** The write cursor *)

(** C2 (as amended). For every history of calls, the write offset and the
    wrap generation after it are those before it moved on by [lazy_wrap],
    once for every call of [write] in order, with the bytes that write
    persisted (the packet length, or 0 for a write that failed): a write that
    finds the offset at or beyond the capacity starts at offset 0 in the next
    generation, any other starts where the cursor stands, and the offset then
    advances by the persisted bytes. The offset is not reduced modulo the
    capacity and the generation is not the quotient of the bytes written. *)
Theorem write_cursor_wraps_lazily (cs : list Call) (q q' : LiveQueue) :
  run cs q = Some q' →
  (m_writeFd q', m_wrapCount q')
  = foldl (lazy_wrap (to_off_t (m_bufferSize q)))
      (m_writeFd q, m_wrapCount q) (persisted_bytes cs q).
Proof.
  revert q. induction cs as [|c cs IH]; intros q; simpl.
  - by intros [= <-].
  - destruct (call c q) as [q1|] eqn:Hc; [|done]. intros Hr.
    rewrite foldl_app. apply IH in Hr. rewrite Hr.
    apply call_cursor in Hc as Hcur. unfold cursor in Hcur.
    by rewrite (call_bufferSize _ _ _ Hc), <- Hcur.
Qed.

Lemma write_cursor_wraps_lazily_witness :
  (m_writeFd (after two_sixties 100), m_wrapCount (after two_sixties 100))
  = (120, 0).
Proof.
  rewrite (write_cursor_wraps_lazily two_sixties (LiveQueue_new 100)
             (after two_sixties 100)).
  - vm_compute. reflexivity.
  - vm_compute. reflexivity.
Defined.

(** C2 (as stated) fails: two packets of 60 bytes written into a buffer of
    100 bytes are 120 bytes in all, more than the capacity; the write offset
    is then 120, not 120 mod 100, and the wrap generation 0, not 120 / 100. *)
Lemma write_offset_not_cumulative_modulo :
  run two_sixties (LiveQueue_new 100) = Some (after two_sixties 100)
  ∧ persisted_bytes two_sixties (LiveQueue_new 100) = [60; 60]
  ∧ 100 < sum_bytes [60; 60]
  ∧ m_writeFd (after two_sixties 100) ≠ sum_bytes [60; 60] mod 100
  ∧ m_wrapCount (after two_sixties 100) ≠ sum_bytes [60; 60] / 100.
Proof. vm_compute. repeat split; congruence. Qed.

(** What does hold of the bytes written: a generation is left only after at
    least the capacity was written in it, so the generation times the
    capacity, plus the offset, never exceeds the bytes written. *)
Lemma lazy_wrap_behind_bytes capacity ns o g written :
  Forall (λ n, 0 ≤ n) ns → 0 ≤ o → g * capacity + o ≤ written →
  let c := foldl (lazy_wrap capacity) (o, g) ns in
  0 ≤ c.1 ∧ c.2 * capacity + c.1 ≤ written + sum_bytes ns.
Proof.
  intros Hns. revert o g written.
  induction Hns as [|n ns Hn _ IH]; intros o g written Ho Hg; simpl.
  - lia.
  - assert (lazy_wrap capacity (o, g) n
            = if capacity <=? o then (n, g + 1) else (o + n, g)) as -> by done.
    destruct (Z.leb_spec capacity o) as [Hc|Hc].
    + destruct (IH n (g + 1) (written + n)) as [H1 H2]; [lia|nia|].
      split; [done|]. lia.
    + destruct (IH (o + n) g (written + n)) as [H1 H2]; [lia|lia|].
      split; [done|]. lia.
Qed.

(** ** The wrapped flag *)

(** In every reachable state the wrapped flag is the parity of the number
    of wraps of both cursors together: every wrap of the write cursor and
    every wrap of the read cursor toggles it. *)
Theorem wrapped_is_parity_of_wraps (bufferSize : Z) (q : LiveQueue) :
  reachable bufferSize q →
  m_wrapped q = Z.odd (m_wrapCount q + g_readWraps q)
  ∧ m_wrapped (write_wrap q) = negb (m_wrapped q)
  ∧ m_wrapCount (write_wrap q) = m_wrapCount q + 1
  ∧ m_wrapped (read_wrap q) = negb (m_wrapped q)
  ∧ g_readWraps (read_wrap q) = g_readWraps q + 1.
Proof.
  intros Hq. split; [|done].
  apply (reachable_invariant wraps_parity bufferSize); [done| |done].
  apply call_parity.
Qed.

Lemma wrapped_is_parity_of_wraps_witness :
  m_wrapped q_lapped = Z.odd (m_wrapCount q_lapped + g_readWraps q_lapped).
Proof.
  apply (wrapped_is_parity_of_wraps 100 q_lapped).
  exists (ten_packets ++ replicate 5 (CRead false)
          ++ submit 11 (pkt 11 ftPFRAME 10)).
  vm_compute. reflexivity.
Defined.

(** C9. The flag does not say that the write cursor is a lap ahead of the
    read cursor, because [internalRead] makes its wrap test before it tests
    whether the consumer has caught up.

    In [q_caught_up] two packets of 60 bytes were written into a buffer of
    100 bytes and both were read: both cursors stand at 120, nothing has
    wrapped and nothing is left to read. The next read nevertheless wraps
    the read cursor, raises the flag and returns the first packet a second
    time: in [q_reader_ahead] the flag is up although the write cursor has
    completed no lap and the read cursor one.

    In [q_caught_up_below] the consumer has caught up in the same way at
    offset 80, below the capacity: there the next read returns NULL and
    changes nothing. *)
Theorem caught_up_reader_wraps_ahead_of_writer :
  (reachable 100 q_caught_up
   ∧ m_readFd q_caught_up = 120 ∧ m_writeFd q_caught_up = 120
   ∧ m_wrapped q_caught_up = false ∧ m_wrapCount q_caught_up = 0
   ∧ g_readWraps q_caught_up = 0
   ∧ read false q_caught_up = (Some (pkt 1 ftPFRAME 60), q_reader_ahead)
   ∧ reachable 100 q_reader_ahead
   ∧ m_wrapped q_reader_ahead = true
   ∧ m_wrapCount q_reader_ahead = 0
   ∧ g_readWraps q_reader_ahead = 1
   ∧ ¬ (m_wrapped q_reader_ahead = true
        ↔ m_wrapCount q_reader_ahead = g_readWraps q_reader_ahead + 1))
  ∧ (reachable 100 q_caught_up_below
     ∧ m_readFd q_caught_up_below = 80 ∧ m_writeFd q_caught_up_below = 80
     ∧ m_wrapped q_caught_up_below = false
     ∧ read false q_caught_up_below = (None, q_caught_up_below)).
Proof.
  split.
  - split; [apply reachable_after|].
    do 5 (split; [vm_compute; reflexivity|]).
    split; [vm_compute; reflexivity|].
    split; [apply reachable_after|].
    vm_compute. repeat split; try done. intros [H _]. by specialize (H eq_refl).
  - split; [apply reachable_after|].
    do 3 (split; [vm_compute; reflexivity|]). vm_compute. reflexivity.
Qed.

(** ** Overrun prevention *)

(** C1. The loop of [write] compares the end of the candidate range with the
    read offset taken before the loop and never again, so it keeps skipping
    packets after the range has stopped overtaking the read cursor, until the
    read cursor wraps (or a skip yields no packet).

    In [q_lapped] the flag is up, the write cursor is at 10 and the read
    cursor at 50; a packet of 45 bytes has the candidate range [10, 55). One
    skip takes the read cursor to 60, clear of the range; the write
    nevertheless skips the packets at 50, 60, 70, 80 and 90, wraps the read
    cursor and skips the packet at 0 as well, leaving the read cursor at 10
    and the flag down.

    In [q_full] the write cursor stands at the capacity and the read cursor
    at 10; a packet of 15 bytes wraps the write cursor and has the candidate
    range [0, 15). One skip takes the read cursor to 20, clear of the range;
    the write nevertheless skips all nine packets, wraps the read cursor onto
    the write cursor, fails, and persists nothing. *)
Theorem overrun_loop_skips_beyond_candidate_range :
  (m_wrapped q_lapped = true ∧ m_writeFd q_lapped = 10
   ∧ m_readFd q_lapped = 50
   ∧ m_readFd (internalRead q_lapped).2 = 60
   ∧ ∃ q', write 12 true (video (pkt 12 ftPFRAME 45)) q_lapped = Some (true, q')
           ∧ m_readFd q' = 10 ∧ m_wrapped q' = false ∧ g_readWraps q' = 1
           ∧ m_writeFd q' = 55)
  ∧ (m_writeFd q_full = 100 ∧ m_readFd q_full = 10
     ∧ m_wrapped (write_begin 11 q_full) = true
     ∧ m_writeFd (write_begin 11 q_full) = 0
     ∧ m_readFd (internalRead (write_begin 11 q_full)).2 = 20
     ∧ ∃ q', write 11 true (video (pkt 11 ftPFRAME 15)) q_full = Some (false, q')
             ∧ m_readFd q' = 0 ∧ m_wrapped q' = false ∧ g_readWraps q' = 1
             ∧ m_file q' = m_file q_full).
Proof.
  split.
  - do 4 (split; [vm_compute; reflexivity|]).
    eexists. split; [vm_compute; reflexivity|]. vm_compute. done.
  - do 5 (split; [vm_compute; reflexivity|]).
    eexists. split; [vm_compute; reflexivity|]. vm_compute. done.
Qed.

(** The general fact behind it: a loop entered with the candidate range
    overtaking the read offset is never left through the comparison of the
    positions, only once the flag is down. *)
Lemma overrun_loop_leaves_unwrapped fuel pe rp q q' :
  rp ≤ pe → m_wrapped q = true →
  overrun_loop fuel pe rp q = Some (true, q') → m_wrapped q' = false.
Proof.
  intros Hle Hw Hl. apply overrun_loop_exit in Hl as [[_ [?|?]]|?];
    [lia|congruence|done].
Qed.

(** Hence a write that finds the flag up (or raises it by wrapping) and its
    candidate range overtaking the read offset succeeds only with the flag
    down: the read cursor has been taken around the end of the buffer,
    however little room the packet needed. *)
Lemma write_overrun_forces_read_wrap ts io d q q' :
  m_wrapped (write_begin ts q) = true →
  m_readFd q ≤ m_writeFd (write_begin ts q) + getPacketLength (PacketData.p d) →
  write ts io d q = Some (true, q') → m_wrapped q' = false.
Proof.
  intros Hw Hle H. apply write_inv in H as ([] & q2 & Hl & Hio & ->); [|done].
  destruct (write_finish_wraps ts io d (m_writeFd (write_begin ts q)) q2)
    as (->&_). by eapply overrun_loop_leaves_unwrapped.
Qed.

(** ** The start of the window *)

(** [trim] removes at most the oldest entry, and only one of an earlier
    generation that starts before [position] in a buffer that has wrapped. *)
Lemma trim_index position q :
  m_indexList (trim position q) = m_indexList q
  ∨ m_hasWrapped q = true
    ∧ ∃ e, m_indexList q = e :: m_indexList (trim position q)
           ∧ PacketIndex.filePosition e < position
           ∧ PacketIndex.wrapCount e < m_wrapCount q.
Proof.
  unfold trim. destruct (m_hasWrapped q) eqn:Hw; simpl; [|by left].
  destruct (m_indexList q) as [|e rest] eqn:Hi; [by left|].
  destruct (Z.ltb_spec (PacketIndex.filePosition e) position) as [Hp|Hp];
    destruct (Z.ltb_spec (PacketIndex.wrapCount e) (m_wrapCount q)) as [Hc|Hc];
    simpl; rewrite ?Hi; try (by left).
  right. split; [done|]. exists e. by destruct rest.
Qed.

(** After [trim] the start time is the wall-clock time of the oldest entry
    left, if the buffer has ever wrapped and an entry is left; it is what it
    was otherwise. Whether an entry was removed plays no part. *)
Lemma trim_start position q :
  m_queueStartTime (trim position q)
  = match head (m_indexList (trim position q)) with
    | Some e =>
        if m_hasWrapped q then PacketIndex.wallclockTime e
        else m_queueStartTime q
    | None => m_queueStartTime q
    end.
Proof.
  unfold trim. destruct (m_hasWrapped q) eqn:Hw; simpl.
  - destruct (m_indexList q) as [|e rest] eqn:Hi; [by rewrite Hi|].
    destruct (_ && _); simpl; rewrite ?Hi; simpl; [by destruct rest|by rewrite Hi].
  - by destruct (head (m_indexList q)).
Qed.

Lemma write_finish_start ts io d wp q :
  m_queueStartTime (write_finish ts io d wp q)
  = m_queueStartTime (trim (wp + getPacketLength (PacketData.p d)) q)
  ∧ ∃ new, m_indexList (write_finish ts io d wp q)
           = m_indexList (trim (wp + getPacketLength (PacketData.p d)) q) ++ new.
Proof.
  unfold write_finish, MsgPacket_write.
  destruct (_ && _), io; cbn; (split; [done|]); eauto using app_nil_r.
  all: exists []; by rewrite app_nil_r.
Qed.

Lemma write_begin_start ts q :
  m_queueStartTime (write_begin ts q)
  = (if m_queueStartTime q =? 0 then ts else m_queueStartTime q)
  ∧ m_indexList (write_begin ts q) = m_indexList q.
Proof.
  unfold write_begin.
  destruct (m_queueStartTime q =? 0); cbn;
    by destruct (to_off_t (m_bufferSize q) <=? m_writeFd q).
Qed.

(** [trim] looks at nothing a read changes. *)
Lemma trim_read_frame position q q' :
  read_frame q q' →
  m_queueStartTime (trim position q') = m_queueStartTime (trim position q)
  ∧ m_indexList (trim position q') = m_indexList (trim position q).
Proof.
  intros (_&_&_&Hh&Hc&_&Hs&Hi&_). unfold trim. rewrite Hh, Hi, Hc.
  destruct (m_hasWrapped q); simpl.
  2: done.
  destruct (m_indexList q) as [|e rest] eqn:Hq; simpl.
  1: by rewrite Hq.
  destruct (_ && _); simpl; rewrite ?Hi, ?Hq; simpl.
  - by destruct rest.
  - split; congruence.
Qed.

(** C6 (as amended). The start time of a new instance reads zero. A call of
    [write] that finds it zero records its time stamp before anything else,
    whether or not the write then succeeds; a write that returns from inside
    the overrun loop leaves it at that. Every write that gets past the loop
    runs [trim] at the end of its packet, and the start time it leaves is the
    one [trim] leaves: the wall-clock time of the oldest index entry left
    after pruning if the buffer has ever wrapped and an entry is left,
    whether or not pruning removed an entry, and the recorded one otherwise.
    Pruning removes at most the oldest entry, and only one of an earlier
    generation that starts before the end of the packet. *)
Theorem start_time_bookkeeping
    (bufferSize timeStamp : Z) (io_ok ok : bool) (data : PacketData.t)
    (q q' : LiveQueue) :
  write timeStamp io_ok data q = Some (ok, q') →
  let recorded :=
    if m_queueStartTime q =? 0 then timeStamp else m_queueStartTime q in
  let q1 := write_begin timeStamp q in
  let position := m_writeFd q1 + getPacketLength (PacketData.p data) in
  getTimeshiftStartPosition (LiveQueue_new bufferSize) = 0
  ∧ getTimeshiftStartPosition q1 = recorded
  ∧ (if fails_in_loop timeStamp data q
     then getTimeshiftStartPosition q' = recorded
     else getTimeshiftStartPosition q'
          = getTimeshiftStartPosition (trim position q1)
          ∧ (∃ new, m_indexList q' = m_indexList (trim position q1) ++ new)
          ∧ getTimeshiftStartPosition q'
            = match head (m_indexList (trim position q1)) with
              | Some e =>
                  if m_hasWrapped q1 then PacketIndex.wallclockTime e
                  else recorded
              | None => recorded
              end)
  ∧ (m_indexList (trim position q1) = m_indexList q
     ∨ m_hasWrapped q1 = true
       ∧ ∃ e, m_indexList q = e :: m_indexList (trim position q1)
              ∧ PacketIndex.filePosition e < position
              ∧ PacketIndex.wrapCount e < m_wrapCount q1).
Proof.
  intros Hw recorded q1 position. subst recorded q1 position.
  split; [done|].
  destruct (write_begin_start timeStamp q) as [Hs Hi].
  unfold getTimeshiftStartPosition. split; [done|]. split.
  - apply write_inv in Hw as (b & q2 & Hl & Hq).
    unfold fails_in_loop. rewrite Hl.
    apply overrun_loop_frame in Hl as Hfr.
    destruct b; destruct Hq as [_ ->].
    + destruct (write_finish_start timeStamp io_ok data
                  (m_writeFd (write_begin timeStamp q)) q2) as [-> [new ->]].
      destruct (trim_read_frame
                  (m_writeFd (write_begin timeStamp q)
                   + getPacketLength (PacketData.p data))
                  (write_begin timeStamp q) q2 Hfr) as [-> ->].
      split; [done|]. split; [by exists new|].
      by rewrite trim_start, Hs.
    + destruct Hfr as (_&_&_&_&_&_&->&_). done.
  - destruct (trim_index (m_writeFd (write_begin timeStamp q)
                          + getPacketLength (PacketData.p data))
                (write_begin timeStamp q)) as [->|(?&e&He&?&?)].
    + by left.
    + right. split; [done|]. exists e. by rewrite <- Hi.
Qed.

Lemma start_time_bookkeeping_witness :
  getTimeshiftStartPosition (LiveQueue_new 100) = 0
  ∧ getTimeshiftStartPosition q_after_failed_wrap = 1
  ∧ getTimeshiftStartPosition
      (after (failed_wrap ++ submit 4 (pkt 4 ftPFRAME 10)) 100) = 2.
Proof.
  destruct (start_time_bookkeeping 100 4 true true
              (video (pkt 4 ftPFRAME 10)) q_after_failed_wrap
              (after (failed_wrap ++ submit 4 (pkt 4 ftPFRAME 10)) 100))
    as (Hnew & _ & Hafter & _).
  - vm_compute. reflexivity.
  - split; [exact Hnew|]. split; [vm_compute; reflexivity|].
    assert (fails_in_loop 4 (video (pkt 4 ftPFRAME 10)) q_after_failed_wrap
            = false) as Hf by (vm_compute; reflexivity).
    rewrite Hf in Hafter. destruct Hafter as (_ & _ & ->).
    vm_compute. reflexivity.
Defined.

(** C6 (as stated) fails on both counts. A first write that the descriptor
    refuses returns failure and yet has recorded the start time. And the
    write after [q_after_failed_wrap] prunes nothing (the index is what it
    was) and yet moves the start time from 1, recorded by the first write,
    to 2, the wall-clock time of the only keyframe. *)
Lemma start_time_moves_without_success_or_pruning :
  (∃ q', write 7 false (video (pkt 1 ftPFRAME 60)) (LiveQueue_new 100)
         = Some (false, q')
         ∧ getTimeshiftStartPosition (LiveQueue_new 100) = 0
         ∧ getTimeshiftStartPosition q' = 7)
  ∧ (reachable 100 q_after_failed_wrap
     ∧ ∃ q', write 4 true (video (pkt 4 ftPFRAME 10)) q_after_failed_wrap
             = Some (true, q')
             ∧ m_indexList q' = m_indexList q_after_failed_wrap
             ∧ m_indexList (trim 10 q_after_failed_wrap)
               = m_indexList q_after_failed_wrap
             ∧ getTimeshiftStartPosition q_after_failed_wrap = 1
             ∧ getTimeshiftStartPosition q' = 2).
Proof.
  split.
  - eexists. split; [vm_compute; reflexivity|]. vm_compute. done.
  - split; [apply reachable_after|].
    eexists. split; [vm_compute; reflexivity|]. vm_compute. done.
Qed.

(** ** Seeking by wall-clock time *)

(** What the scan of [seek] returns: the first entry, from the newest on,
    whose wall-clock time is not after the target. *)
Lemma seek_loop_spec t l :
  match seek_loop t l with
  | Some e =>
      ∃ l1 l2, l = l1 ++ e :: l2
               ∧ Forall (λ x, t < PacketIndex.wallclockTime x) l1
               ∧ PacketIndex.wallclockTime e ≤ t
  | None => Forall (λ x, t < PacketIndex.wallclockTime x) l
  end.
Proof.
  induction l as [|s l IH]; simpl; [done|].
  destruct (Z.leb_spec (PacketIndex.wallclockTime s) t) as [Hs|Hs].
  - by exists [], l.
  - destruct (seek_loop t l) as [e|].
    + destruct IH as (l1&l2&->&Hl1&He). exists (s :: l1), l2. auto.
    + auto.
Qed.

Lemma reverse_head_last {A} (l : list A) s l' :
  reverse l = s :: l' → last l = Some s.
Proof. intros H. by rewrite <- head_reverse, H. Qed.

(** Past the two clamps the scan cannot come back empty-handed: the oldest
    entry is then before the target. *)
Lemma seek_loop_finds t (idx : list PacketIndex.t) h :
  head idx = Some h → PacketIndex.wallclockTime h < t →
  is_Some (seek_loop t (reverse idx)).
Proof.
  intros Hh Hlt. pose proof (seek_loop_spec t (reverse idx)) as Hs.
  destruct (seek_loop t (reverse idx)); [done|].
  rewrite Forall_reverse in Hs. destruct idx as [|h' idx]; [done|].
  injection Hh as ->. apply Forall_cons_1 in Hs as [Hs _]. lia.
Qed.

Lemma seek_unfold t q h s :
  head (m_indexList q) = Some h → last (m_indexList q) = Some s →
  seek t q =
    if PacketIndex.wallclockTime s <=? t
    then (PacketIndex.pts s, set_readFd (PacketIndex.filePosition s) q)
    else if t <=? PacketIndex.wallclockTime h
    then (PacketIndex.pts h, set_readFd (PacketIndex.filePosition h) q)
    else match seek_loop t (reverse (m_indexList q)) with
         | Some e => (PacketIndex.pts e, set_readFd (PacketIndex.filePosition e) q)
         | None => (0, q)
         end.
Proof.
  intros Hh Hs. unfold seek.
  destruct (reverse (m_indexList q)) as [|s' r] eqn:Hr.
  - apply (f_equal reverse) in Hr. rewrite reverse_involutive in Hr.
    by rewrite Hr in Hh.
  - apply reverse_head_last in Hr as Hs'. rewrite Hs in Hs'. injection Hs' as <-.
    destruct (m_indexList q) as [|h' idx]; [done|]. by injection Hh as ->.
Qed.



(** On an index in wall-clock order the entry the scan returns has the
    greatest wall-clock time among the entries at or before the target. *)
Lemma seek_loop_latest t idx e :
  Sorted time_le idx → seek_loop t (reverse idx) = Some e →
  ∀ x, x ∈ idx → PacketIndex.wallclockTime x ≤ t →
       PacketIndex.wallclockTime x ≤ PacketIndex.wallclockTime e.
Proof.
  intros Hs He x Hx Hxt.
  pose proof (seek_loop_spec t (reverse idx)) as Hspec. rewrite He in Hspec.
  destruct Hspec as (l1&l2&Hr&Hl1&_).
  apply (f_equal reverse) in Hr. rewrite reverse_involutive in Hr.
  rewrite reverse_app, reverse_cons, <- app_assoc in Hr. simpl in Hr. subst idx.
  apply Sorted_StronglySorted in Hs; [|intros a b c; unfold time_le; lia].
  apply elem_of_app in Hx as [Hx|Hx].
  - apply (StronglySorted_app_1_elem_of time_le _ _ x e Hs Hx). left.
  - apply elem_of_cons in Hx as [->|Hx]; [lia|].
    rewrite elem_of_reverse in Hx. rewrite Forall_forall in Hl1.
    specialize (Hl1 x Hx). lia.
Qed.




(** C10. When [seek] fails, on an empty index or because the scan from the
    newest entry finds no entry at or before the target, it returns 0 and
    leaves the whole state, the read cursor included, as it was. *)
Theorem seek_failure_is_atomic (t : Z) (q : LiveQueue) :
  seek_fails t (m_indexList q) → seek t q = (0, q).
Proof.
  intros [Hnil|(h&s&Hh&Hs&Hnew&Hold&Hscan)].
  - unfold seek. by rewrite Hnil.
  - rewrite (seek_unfold t q h s Hh Hs), Hscan.
    destruct (Z.leb_spec (PacketIndex.wallclockTime s) t); [lia|].
    destruct (Z.leb_spec t (PacketIndex.wallclockTime h)); [lia|done].
Qed.

Lemma seek_failure_is_atomic_witness :
  seek 5 (LiveQueue_new 100) = (0, LiveQueue_new 100).
Proof.
  apply (seek_failure_is_atomic 5 (LiveQueue_new 100)). left. reflexivity.
Defined.

(** The second way of failing never occurs: past the two clamps the oldest
    entry is before the target, so the scan finds an entry. *)
Lemma seek_fails_only_when_empty t idx : seek_fails t idx ↔ idx = [].
Proof.
  split; [|by left]. intros [?|(h&s&Hh&_&_&Hold&Hscan)]; [done|].
  destruct (seek_loop_finds t idx h Hh Hold) as [e He]. congruence.
Qed.


(** ** The next keyframe *)

Lemma boundary_spec r i j : boundary r (i, j) = true ↔ is_boundary r i j.
Proof. unfold boundary, is_boundary. simpl. lia. Qed.

Lemma first_boundary_cons r i j l :
  first_boundary r (i :: j :: l)
  = if boundary r (i, j) then Some (i, j) else first_boundary r (j :: l).
Proof. done. Qed.

Lemma nextKeyFrame_loop_spec r i l :
  nextKeyFrame_loop r (i :: l)
  = (λ ij, PacketIndex.filePosition ij.2) <$> first_boundary r (i :: l).
Proof.
  revert i. induction l as [|j l IH]; intros i; [done|].
  rewrite first_boundary_cons.
  change (nextKeyFrame_loop r (i :: j :: l))
    with (if boundary r (i, j) then Some (PacketIndex.filePosition j)
          else nextKeyFrame_loop r (j :: l)).
  destruct (boundary r (i, j)); [done|apply IH].
Qed.

Lemma seekNextKeyFrame_unfold q :
  seekNextKeyFrame q =
    match first_boundary (m_readFd q) (m_indexList q) with
    | Some ij => set_readFd (PacketIndex.filePosition ij.2) q
    | None => q
    end.
Proof.
  unfold seekNextKeyFrame. destruct (m_indexList q) as [|i l].
  - simpl. apply set_readFd_same.
  - rewrite nextKeyFrame_loop_spec. by destruct (first_boundary _ _).
Qed.

(** [first_boundary] finds the first pair of neighbours, in the order of the
    list, with the read offset between them. *)
Lemma first_boundary_Some r l i j :
  first_boundary r l = Some (i, j) →
  ∃ l1 l2, l = l1 ++ i :: j :: l2 ∧ no_boundary r (l1 ++ [i])
           ∧ is_boundary r i j.
Proof.
  revert i j. induction l as [|a l IH]; intros i j; [done|].
  destruct l as [|b l]; [done|]. rewrite first_boundary_cons.
  destruct (boundary r (a, b)) eqn:Hb.
  - intros [= <- <-]. exists [], l.
    split; [done|]. split; [|by apply boundary_spec].
    intros k1 x y k2 Hk. by destruct k1 as [|? [|? ?]].
  - intros Hf. destruct (IH i j Hf) as (l1&l2&Hl&Hno&Hij).
    exists (a :: l1), l2. split; [by rewrite Hl|]. split; [|done].
    intros k1 x y k2 Hk. destruct k1 as [|a' k1].
    + simpl in Hk. injection Hk as <- Hk. intros Hxy.
      assert (y = b) as ->.
      { destruct l1 as [|b' l1]; simpl in Hl, Hk; congruence. }
      apply boundary_spec in Hxy. congruence.
    + simpl in Hk. injection Hk as <- Hk. by apply (Hno k1 x y k2).
Qed.

Lemma first_boundary_None r l :
  first_boundary r l = None → no_boundary r l.
Proof.
  induction l as [|a l IH]; intros Hf k1 x y k2 Hk.
  - by destruct k1.
  - destruct l as [|b l]; [by destruct k1 as [|? [|? ?]]|].
    rewrite first_boundary_cons in Hf.
    destruct (boundary r (a, b)) eqn:Hb; [done|].
    destruct k1 as [|a' k1]; simpl in Hk.
    + injection Hk as <- <- _. intros Hxy. apply boundary_spec in Hxy.
      congruence.
    + injection Hk as <- Hk. by apply (IH Hf k1 x y k2).
Qed.

(** C5 (as amended). [seekNextKeyFrame] goes through the index in the order
    of the list, which is the order in which the keyframes were written (and
    so file-offset order within one wrap generation only): either the index
    splits at its first pair of neighbours [i], [j] with
    [i.offset < readOffset <= j.offset] and the read cursor moves to the
    offset of [j], or no pair of neighbours has that property (as in an empty
    or single-entry index) and the state is unchanged. *)
Theorem seekNextKeyFrame_first_pair_in_index_order (q : LiveQueue) :
  (∃ l1 i j l2,
      m_indexList q = l1 ++ i :: j :: l2
      ∧ no_boundary (m_readFd q) (l1 ++ [i])
      ∧ is_boundary (m_readFd q) i j
      ∧ seekNextKeyFrame q = set_readFd (PacketIndex.filePosition j) q)
  ∨ (no_boundary (m_readFd q) (m_indexList q) ∧ seekNextKeyFrame q = q).
Proof.
  rewrite seekNextKeyFrame_unfold.
  destruct (first_boundary (m_readFd q) (m_indexList q)) as [[i j]|] eqn:Hf.
  - left. apply first_boundary_Some in Hf as (l1&l2&Hl&Hno&Hij).
    by exists l1, i, j, l2.
  - right. split; [by apply first_boundary_None|done].
Qed.

(** On an index that is in file-offset order the code does what the
    specification words. *)
Lemma in_file_offset_order_sorted l :
  Sorted offset_le l → in_file_offset_order l = l.
Proof.
  induction 1 as [|e l Hl IH Hhd]; [done|].
  change (in_file_offset_order (e :: l))
    with (insert_by_offset e (in_file_offset_order l)).
  rewrite IH. destruct Hhd as [|x l' Hx]; [done|]. simpl.
  unfold offset_le in Hx.
  by destruct (Z.leb_spec (PacketIndex.filePosition e)
                 (PacketIndex.filePosition x)); [|lia].
Qed.

Lemma seekNextKeyFrame_sorted q :
  Sorted offset_le (m_indexList q) →
  seekNextKeyFrame q = seekNextKeyFrame_in_offset_order q.
Proof.
  intros Hs. rewrite seekNextKeyFrame_unfold.
  unfold seekNextKeyFrame_in_offset_order.
  by rewrite in_file_offset_order_sorted.
Qed.

(** C5 (as stated) fails: in [q_two_generations] the index holds, in this
    order, keyframes at the offsets 80 (first generation), 0 and 50 (second
    generation), and the read cursor is at 60. In file-offset order the
    entries at 50 and 80 are neighbours with 50 < 60 <= 80, which would move
    the read cursor to 80; the code, going through the list, finds no such
    pair of neighbours and leaves the cursor at 60. *)
Lemma seekNextKeyFrame_not_in_offset_order :
  reachable 100 q_two_generations
  ∧ m_readFd q_two_generations = 60
  ∧ PacketIndex.filePosition <$> m_indexList q_two_generations = [80; 0; 50]
  ∧ seekNextKeyFrame q_two_generations = q_two_generations
  ∧ m_readFd (seekNextKeyFrame_in_offset_order q_two_generations) = 80
  ∧ seekNextKeyFrame q_two_generations
    ≠ seekNextKeyFrame_in_offset_order q_two_generations.
Proof.
  split; [apply reachable_after|].
  do 4 (split; [vm_compute; reflexivity|]).
  intros H. apply (f_equal m_readFd) in H. vm_compute in H. congruence.
Qed.

(** ** The submission list *)

Lemma queue_full m c t q :
  (400 ≤ length (m_writerQueue q))%nat → queue m c t q = delete_packet m q.
Proof.
  intros H. unfold queue.
  by destruct (Z.leb_spec 400 (Z.of_nat (length (m_writerQueue q)))); [|lia].
Qed.

Lemma queue_room m c t q :
  (length (m_writerQueue q) < 400)%nat →
  queue m c t q = set_writerQueue (m_writerQueue q ++ [PacketData.mk m c t]) q.
Proof.
  intros H. unfold queue.
  by destruct (Z.leb_spec 400 (Z.of_nat (length (m_writerQueue q)))); [lia|].
Qed.

Lemma queue_all_spec ds q :
  (length (m_writerQueue q) ≤ 400)%nat →
  m_writerQueue (queue_all ds q) = take 400 (m_writerQueue q ++ ds)
  ∧ g_deleted (queue_all ds q)
    = g_deleted q
        ++ (PacketData.p <$> drop (400 - length (m_writerQueue q)) ds).
Proof.
  revert q. induction ds as [|d ds IH]; intros q Hq.
  - simpl. rewrite !app_nil_r, drop_nil. split.
    + by rewrite take_ge by lia.
    + simpl. by rewrite app_nil_r.
  - change (queue_all (d :: ds) q)
      with (queue_all ds (queue (PacketData.p d) (PacketData.content d)
                            (PacketData.pts d) q)).
    destruct (decide (length (m_writerQueue q) = 400%nat)) as [Hfull|Hroom].
    + rewrite queue_full by lia.
      destruct (IH (delete_packet (PacketData.p d) q)) as [-> ->]; [done|].
      cbn [m_writerQueue g_deleted delete_packet]. rewrite Hfull.
      replace (400 - 400)%nat with 0%nat by lia. split.
      * rewrite !take_app_le by lia. done.
      * by rewrite <- app_assoc.
    + rewrite queue_room by lia.
      destruct (IH (set_writerQueue
                      (m_writerQueue q ++ [PacketData.mk (PacketData.p d)
                         (PacketData.content d) (PacketData.pts d)]) q))
        as [-> ->].
      { cbn. rewrite length_app. simpl. lia. }
      cbn [m_writerQueue g_deleted set_writerQueue]. split.
      * rewrite <- app_assoc. by destruct d.
      * rewrite length_app. simpl.
        replace (400 - length (m_writerQueue q))%nat
          with (S (400 - (length (m_writerQueue q) + 1)))%nat by lia.
        done.
Qed.

Lemma call_writerQueue_bound c q q' :
  call c q = Some q' →
  (length (m_writerQueue q) ≤ 400)%nat → (length (m_writerQueue q') ≤ 400)%nat.
Proof.
  destruct c as [m c t|ts io|k|t|on]; simpl.
  - intros [= <-] Hq.
    destruct (decide (length (m_writerQueue q) = 400%nat)).
    + by rewrite queue_full by lia.
    + rewrite queue_room by lia. cbn. rewrite length_app. simpl. lia.
  - unfold writer_step. destruct (m_writerQueue q) as [|d rest] eqn:Hq;
      [by intros [= <-]; rewrite Hq|].
    destruct (write _ _ _ _) as [[ok q1]|] eqn:Hw; [|done]. intros [= <-].
    apply write_writerQueue in Hw. rewrite Hw. simpl. lia.
  - intros [= <-]. by destruct (read_frame_of_read k q) as (_&_&_&_&_&_&_&_&->&_).
  - intros [= <-]. by destruct (seek_frame t q) as [pos ->].
  - intros [= <-]. unfold pause. by case_match.
Qed.

(** C7. [queue] never waits: it is a total function of the state. In every
    reachable state the submission list holds at most 400 entries, and it
    still does after a submission. A submission that finds 400 entries (or
    more) destroys the submitted packet and leaves the list as it is. 401
    submissions in a row into an empty list, with no turn of the writer
    thread in between, leave the first 400 in the list, in order, and destroy
    the last one. *)
Theorem queue_sheds_load_at_400
    (bufferSize : Z) (q qf q0 : LiveQueue) (m : MsgPacket) (c : Content)
    (t : Z) (ds : list PacketData.t) :
  reachable bufferSize q →
  (400 ≤ length (m_writerQueue qf))%nat →
  m_writerQueue q0 = [] → length ds = 401%nat →
  (length (m_writerQueue q) ≤ 400)%nat
  ∧ (length (m_writerQueue (queue m c t q)) ≤ 400)%nat
  ∧ queue m c t qf = delete_packet m qf
  ∧ m_writerQueue (queue m c t qf) = m_writerQueue qf
  ∧ g_deleted (queue m c t qf) = g_deleted qf ++ [m]
  ∧ m_writerQueue (queue_all ds q0) = take 400 ds
  ∧ length (m_writerQueue (queue_all ds q0)) = 400%nat
  ∧ g_deleted (queue_all ds q0) = g_deleted q0 ++ (PacketData.p <$> drop 400 ds)
  ∧ length (drop 400 ds) = 1%nat.
Proof.
  intros Hq Hqf Hq0 Hds.
  assert (length (m_writerQueue q) ≤ 400)%nat as Hb.
  { apply (reachable_invariant
             (λ q, (length (m_writerQueue q) ≤ 400)%nat) bufferSize);
      [simpl; lia|apply call_writerQueue_bound|done]. }
  split; [done|]. split.
  { apply (call_writerQueue_bound (CQueue m c t) q); [done|done]. }
  rewrite queue_full by done. do 3 (split; [done|]).
  destruct (queue_all_spec ds q0) as [Hw Hd]; [rewrite Hq0; simpl; lia|].
  rewrite Hq0 in Hw, Hd. simpl in Hw, Hd. rewrite Hw, Hd.
  rewrite length_take, length_drop, Hds. repeat split; lia.
Qed.

Lemma queue_sheds_load_at_400_witness :
  length (m_writerQueue (queue (pkt 0 ftIFRAME 10) scVIDEO 0
                           (queue_all (replicate 400 (video (pkt 1 ftPFRAME 10)))
                              (LiveQueue_new 100)))) = 400%nat
  ∧ length (m_writerQueue (queue_all (replicate 401 (video (pkt 1 ftPFRAME 10)))
                             (LiveQueue_new 100))) = 400%nat
  ∧ g_deleted (queue_all (replicate 401 (video (pkt 1 ftPFRAME 10)))
                 (LiveQueue_new 100)) = [pkt 1 ftPFRAME 10].
Proof.
  destruct (queue_sheds_load_at_400 100 (LiveQueue_new 100)
              (queue_all (replicate 400 (video (pkt 1 ftPFRAME 10)))
                 (LiveQueue_new 100))
              (LiveQueue_new 100) (pkt 0 ftIFRAME 10) scVIDEO 0
              (replicate 401 (video (pkt 1 ftPFRAME 10))))
    as (_ & _ & _ & Hfull & _ & _ & Hlen & Hdel & _).
  - exists []. reflexivity.
  - vm_compute. lia.
  - reflexivity.
  - vm_compute. reflexivity.
  - rewrite Hfull, Hlen, Hdel. vm_compute. repeat split; reflexivity.
Defined.

(** ** Pausing *)

(** C8. [pause on] returns [true] exactly when the pause flag differs from
    [on], and it leaves the flag equal to [on]; on a state whose flag already
    is [on] it returns [false] and changes nothing, so [pause true] called
    twice on an unpaused state returns [true], then [false]. On every paused
    state [read] returns no packet and leaves the whole state, both cursors
    included, as it was. *)
Theorem pause_reports_change_and_stops_reads
    (q qu qp : LiveQueue) (on keyFrameMode : bool) :
  m_pause qu = false → m_pause qp = true →
  ((pause on q).1 = true ↔ m_pause q ≠ on)
  ∧ (pause on q).2 = set_pause on q
  ∧ pause on (pause on q).2 = (false, (pause on q).2)
  ∧ (pause true qu).1 = true
  ∧ (pause true (pause true qu).2).1 = false
  ∧ read keyFrameMode qp = (None, qp)
  ∧ m_readFd (read keyFrameMode qp).2 = m_readFd qp
  ∧ m_writeFd (read keyFrameMode qp).2 = m_writeFd qp.
Proof.
  intros Hu Hp.
  assert (Hsame : ∀ q0 b, m_pause q0 = b → pause b q0 = (false, q0)).
  { intros q0 b Hb. unfold pause. by rewrite bool_decide_eq_true_2. }
  assert (Hset : ∀ q0 b, (pause b q0).2 = set_pause b q0).
  { intros q0 b. unfold pause. case_bool_decide as Hb; simpl; [|done].
    by rewrite <- Hb, set_pause_same. }
  split.
  { unfold pause. case_bool_decide; simpl; split; congruence. }
  split; [apply Hset|]. split; [apply Hsame; by rewrite Hset|]. split.
  { unfold pause. rewrite bool_decide_eq_false_2; [done|congruence]. }
  split; [rewrite Hsame; [done|by rewrite Hset]|].
  unfold read. by rewrite Hp.
Qed.

Lemma pause_reports_change_and_stops_reads_witness :
  (pause true (LiveQueue_new 100)).1 = true
  ∧ (pause true (pause true (LiveQueue_new 100)).2).1 = false
  ∧ read false (set_pause true q_full) = (None, set_pause true q_full).
Proof.
  destruct (pause_reports_change_and_stops_reads (LiveQueue_new 100)
              (LiveQueue_new 100) (set_pause true q_full) true false)
    as (_ & _ & _ & H1 & H2 & H3 & _).
  - reflexivity.
  - reflexivity.
  - repeat split; assumption.
Defined.

(** * Further properties *)

Lemma write_begin_writeFd ts q : m_writeFd (write_begin ts q) = write_start q.
Proof.
  unfold write_begin, write_start.
  destruct (m_queueStartTime q =? 0); cbn;
    by destruct (to_off_t (m_bufferSize q) <=? m_writeFd q).
Qed.

Lemma write_begin_frame ts q :
  m_file (write_begin ts q) = m_file q
  ∧ g_deleted (write_begin ts q) = g_deleted q
  ∧ m_indexList (write_begin ts q) = m_indexList q
  ∧ m_pause (write_begin ts q) = m_pause q.
Proof.
  unfold write_begin.
  destruct (m_queueStartTime q =? 0); cbn;
    by destruct (to_off_t (m_bufferSize q) <=? m_writeFd q).
Qed.

Lemma trim_drop pos q :
  ∃ k, (k ≤ 1)%nat ∧ m_indexList (trim pos q) = drop k (m_indexList q).
Proof.
  destruct (trim_index pos q) as [->|(_&e&->&_)].
  - exists 0%nat. split; [lia|done].
  - exists 1%nat. split; [lia|done].
Qed.

Lemma trim_frame pos q :
  m_file (trim pos q) = m_file q ∧ m_writeFd (trim pos q) = m_writeFd q
  ∧ g_deleted (trim pos q) = g_deleted q ∧ m_readFd (trim pos q) = m_readFd q
  ∧ m_pause (trim pos q) = m_pause q.
Proof. unfold trim. by repeat (case_match; simpl). Qed.

Lemma write_finish_effect ts io d wp q :
  m_file (write_finish ts io d wp q)
  = (if io then file_write (m_file q) (m_writeFd q) (PacketData.p d)
     else m_file q)
  ∧ g_deleted (write_finish ts io d wp q) = g_deleted q ++ [PacketData.p d]
  ∧ m_indexList (write_finish ts io d wp q)
    = m_indexList (trim (wp + getPacketLength (PacketData.p d)) q)
        ++ index_entry ts d (write_finish ts io d wp q) wp
  ∧ m_readFd (write_finish ts io d wp q) = m_readFd q
  ∧ m_pause (write_finish ts io d wp q) = m_pause q
  ∧ m_writeFd (write_finish ts io d wp q)
    = (if io then m_writeFd q + getPacketLength (PacketData.p d)
       else m_writeFd q).
Proof.
  unfold write_finish, MsgPacket_write, index_entry.
  destruct (trim_frame (wp + getPacketLength (PacketData.p d)) q)
    as (Hf&Hw&Hd&Hr&Hp).
  destruct (trim_wraps (wp + getPacketLength (PacketData.p d)) q)
    as (_&Hc&_).
  destruct (_ && _), io; cbn; rewrite ?Hf, ?Hw, ?Hd, ?Hr, ?Hp, ?Hc, ?app_nil_r; done.
Qed.

Lemma file_write_lookup f pos m : file_write f pos m !! pos = Some m.
Proof. unfold file_write. apply lookup_insert_eq. Qed.

(** What a call of [write] does to the file, the write cursor, the destroyed
    packets and the index: nothing if the overrun loop fails; otherwise the
    index is trimmed, the keyframe indexed and the packet destroyed, and the
    packet is in the file if the descriptor accepted it. *)
Lemma write_effect ts io d q ok q' :
  write ts io d q = Some (ok, q') →
  ok = false ∧ m_file q' = m_file q ∧ m_writeFd q' = write_start q
  ∧ g_deleted q' = g_deleted q ∧ m_indexList q' = m_indexList q
  ∨ ok = io
    ∧ m_file q'
      = (if io then file_write (m_file q) (write_start q) (PacketData.p d)
         else m_file q)
    ∧ m_writeFd q'
      = (if io then write_start q + getPacketLength (PacketData.p d)
         else write_start q)
    ∧ g_deleted q' = g_deleted q ++ [PacketData.p d]
    ∧ ∃ k, (k ≤ 1)%nat
           ∧ m_indexList q'
             = drop k (m_indexList q) ++ index_entry ts d q' (write_start q).
Proof.
  intros H. apply write_inv in H as (b & q2 & Hl & Hq).
  apply overrun_loop_frame in Hl as (_&Hw&Hf&_&_&_&_&Hi&_&Hd).
  destruct (write_begin_frame ts q) as (Hf1&Hd1&Hi1&_).
  rewrite write_begin_writeFd in *.
  destruct b; destruct Hq as [-> ->].
  - right.
    destruct (write_finish_effect ts io d (write_start q) q2)
      as (->&->&->&_&_&->).
    rewrite Hw, Hf, Hd, Hf1, Hd1. repeat split; try done.
    destruct (trim_drop (write_start q + getPacketLength (PacketData.p d)) q2)
      as (k&Hk&->). exists k. by rewrite Hi, Hi1.
  - left. by rewrite Hw, Hf, Hd, Hi, Hf1, Hd1, Hi1.
Qed.

(** X1. A write that returns true was made through a descriptor that
    accepted the packet, and leaves the packet stored intact at the offset
    the write started from (0 if it found the write cursor at or beyond the
    capacity, the write cursor otherwise), the write cursor just behind the
    packet, the packet destroyed, and the index as it was but for at most one
    entry trimmed from the front and the entry of the packet, if it is a
    video I-frame, appended. *)
Theorem write_success_effect ts io d q q' :
  write ts io d q = Some (true, q') →
  io = true
  ∧ m_file q' !! write_start q = Some (PacketData.p d)
  ∧ m_writeFd q' = write_start q + getPacketLength (PacketData.p d)
  ∧ g_deleted q' = g_deleted q ++ [PacketData.p d]
  ∧ ∃ k, (k ≤ 1)%nat
         ∧ m_indexList q'
           = drop k (m_indexList q) ++ index_entry ts d q' (write_start q).
Proof.
  intros H. apply write_effect in H as [(?&_)|(<-&Hf&Hw&Hd&Hi)]; [done|].
  rewrite Hf. repeat split; try done. apply file_write_lookup.
Qed.

Lemma write_success_effect_witness :
  true = true
  ∧ m_file (after (submit 1 (pkt 1 ftIFRAME 60)) 100)
      !! write_start (LiveQueue_new 100)
    = Some (PacketData.p (video (pkt 1 ftIFRAME 60)))
  ∧ m_writeFd (after (submit 1 (pkt 1 ftIFRAME 60)) 100)
    = write_start (LiveQueue_new 100)
      + getPacketLength (PacketData.p (video (pkt 1 ftIFRAME 60)))
  ∧ g_deleted (after (submit 1 (pkt 1 ftIFRAME 60)) 100)
    = g_deleted (LiveQueue_new 100)
      ++ [PacketData.p (video (pkt 1 ftIFRAME 60))]
  ∧ ∃ k, (k ≤ 1)%nat
         ∧ m_indexList (after (submit 1 (pkt 1 ftIFRAME 60)) 100)
           = drop k (m_indexList (LiveQueue_new 100))
             ++ index_entry 1 (video (pkt 1 ftIFRAME 60))
                  (after (submit 1 (pkt 1 ftIFRAME 60)) 100)
                  (write_start (LiveQueue_new 100)).
Proof.
  apply (write_success_effect 1 true (video (pkt 1 ftIFRAME 60))
           (LiveQueue_new 100) (after (submit 1 (pkt 1 ftIFRAME 60)) 100)).
  vm_compute. reflexivity.
Defined.

(** What a call of [write] does, by the way it is left. *)
Lemma write_effect_by_cause ts io d q ok q' :
  write ts io d q = Some (ok, q') →
  if fails_in_loop ts d q
  then ok = false ∧ m_file q' = m_file q ∧ m_writeFd q' = write_start q
       ∧ g_deleted q' = g_deleted q ∧ m_indexList q' = m_indexList q
  else ok = io
    ∧ m_file q'
      = (if io then file_write (m_file q) (write_start q) (PacketData.p d)
         else m_file q)
    ∧ m_writeFd q'
      = (if io then write_start q + getPacketLength (PacketData.p d)
         else write_start q)
    ∧ g_deleted q' = g_deleted q ++ [PacketData.p d]
    ∧ ∃ k, (k ≤ 1)%nat
           ∧ m_indexList q'
             = drop k (m_indexList q) ++ index_entry ts d q' (write_start q).
Proof.
  intros H. apply write_inv in H as (b & q2 & Hl & Hq).
  unfold fails_in_loop. rewrite Hl.
  apply overrun_loop_frame in Hl as (_&Hw&Hf&_&_&_&_&Hi&_&Hd).
  destruct (write_begin_frame ts q) as (Hf1&Hd1&Hi1&_).
  rewrite write_begin_writeFd in *.
  destruct b; destruct Hq as [-> ->].
  - destruct (write_finish_effect ts io d (write_start q) q2)
      as (->&->&->&_&_&->).
    rewrite Hw, Hf, Hd, Hf1, Hd1. repeat split; try done.
    destruct (trim_drop (write_start q + getPacketLength (PacketData.p d)) q2)
      as (k&Hk&->). exists k. by rewrite Hi, Hi1.
  - by rewrite Hw, Hf, Hd, Hi, Hf1, Hd1, Hi1.
Qed.

(** X2. A write that returns false stores nothing and leaves the write
    cursor at the offset the write started from. If it left through the
    [return NULL] of the overrun loop, it neither destroyed its packet nor
    touched the index. If it got past the loop, the descriptor refused the
    packet, and then the packet is destroyed all the same and the index has
    been trimmed and extended as by a successful write: the entry of a
    refused video I-frame stays in the index. *)
Theorem write_failure_effect ts io d q q' :
  write ts io d q = Some (false, q') →
  m_file q' = m_file q
  ∧ m_writeFd q' = write_start q
  ∧ (if fails_in_loop ts d q
     then g_deleted q' = g_deleted q ∧ m_indexList q' = m_indexList q
     else io = false
          ∧ g_deleted q' = g_deleted q ++ [PacketData.p d]
          ∧ ∃ k, (k ≤ 1)%nat
                 ∧ m_indexList q'
                   = drop k (m_indexList q)
                     ++ index_entry ts d q' (write_start q)).
Proof.
  intros H. apply write_effect_by_cause in H.
  destruct (fails_in_loop ts d q).
  - by destruct H as (_&Hf&Hw&Hd&Hi).
  - by destruct H as (<-&Hf&Hw&Hd&Hi).
Qed.

Lemma write_failure_effect_witness :
  m_file (delete_packet (pkt 1 ftIFRAME 60)
            (set_indexList [PacketIndex.mk 0 7 1000 0]
               (set_queueStartTime 7 (LiveQueue_new 100))))
  = m_file (LiveQueue_new 100)
  ∧ m_writeFd (delete_packet (pkt 1 ftIFRAME 60)
                 (set_indexList [PacketIndex.mk 0 7 1000 0]
                    (set_queueStartTime 7 (LiveQueue_new 100))))
    = write_start (LiveQueue_new 100)
  ∧ (if fails_in_loop 7 (video (pkt 1 ftIFRAME 60)) (LiveQueue_new 100)
     then g_deleted (delete_packet (pkt 1 ftIFRAME 60)
                       (set_indexList [PacketIndex.mk 0 7 1000 0]
                          (set_queueStartTime 7 (LiveQueue_new 100))))
          = g_deleted (LiveQueue_new 100)
          ∧ m_indexList (delete_packet (pkt 1 ftIFRAME 60)
                           (set_indexList [PacketIndex.mk 0 7 1000 0]
                              (set_queueStartTime 7 (LiveQueue_new 100))))
            = m_indexList (LiveQueue_new 100)
     else false = false
          ∧ g_deleted (delete_packet (pkt 1 ftIFRAME 60)
                         (set_indexList [PacketIndex.mk 0 7 1000 0]
                            (set_queueStartTime 7 (LiveQueue_new 100))))
            = g_deleted (LiveQueue_new 100)
              ++ [PacketData.p (video (pkt 1 ftIFRAME 60))]
          ∧ ∃ k, (k ≤ 1)%nat
                 ∧ m_indexList (delete_packet (pkt 1 ftIFRAME 60)
                                  (set_indexList [PacketIndex.mk 0 7 1000 0]
                                     (set_queueStartTime 7
                                        (LiveQueue_new 100))))
                   = drop k (m_indexList (LiveQueue_new 100))
                     ++ index_entry 7 (video (pkt 1 ftIFRAME 60))
                          (delete_packet (pkt 1 ftIFRAME 60)
                             (set_indexList [PacketIndex.mk 0 7 1000 0]
                                (set_queueStartTime 7 (LiveQueue_new 100))))
                          (write_start (LiveQueue_new 100))).
Proof.
  apply (write_failure_effect 7 false (video (pkt 1 ftIFRAME 60))
           (LiveQueue_new 100)).
  vm_compute. reflexivity.
Defined.

Lemma seekNextKeyFrame_lands q :
  seekNextKeyFrame q = q
  ∨ ∃ e, e ∈ m_indexList q
         ∧ m_readFd q ≤ PacketIndex.filePosition e
         ∧ seekNextKeyFrame q = set_readFd (PacketIndex.filePosition e) q.
Proof.
  rewrite seekNextKeyFrame_unfold.
  destruct (first_boundary (m_readFd q) (m_indexList q)) as [[i j]|] eqn:Hf;
    [|by left].
  right. apply first_boundary_Some in Hf as (l1&l2&Hl&_&Hij).
  exists j. split; [|split; [unfold is_boundary in Hij; lia|done]].
  rewrite Hl. apply elem_of_app. right. apply elem_of_cons. right.
  apply elem_of_cons. by left.
Qed.

Lemma internalRead_some q m q' :
  internalRead q = (Some m, q') →
  ∃ o, m_file q !! o = Some m ∧ m_readFd q' = o + getPacketLength m
       ∧ (o = m_readFd q ∨ o = 0).
Proof.
  intros H.
  apply internalRead_cases in H as [[_ [[? _]|H]]|[_ [(?&_)|H]]]; try done.
  - apply MsgPacket_read_some in H as [Hf ->]. exists 0. simpl in *. auto.
  - apply MsgPacket_read_some in H as [Hf ->]. exists (m_readFd q). auto.
Qed.

(** X3. A packet returned by [read] is one stored intact in the file: the
    queue was not paused, the packet starts at the read cursor, or at offset
    0 when the read cursor stood at or beyond the capacity, or, in keyframe
    mode, at the offset of an index entry; the read cursor ends just behind
    it, and nothing but the read cursor and the wrapped flag changes. *)
Theorem read_returns_stored_packet k q m q' :
  read k q = (Some m, q') →
  m_pause q = false
  ∧ read_frame q q'
  ∧ ∃ o, m_file q !! o = Some m
         ∧ m_readFd q' = o + getPacketLength m
         ∧ (o = m_readFd q ∨ o = 0
            ∨ k = true ∧ ∃ e, e ∈ m_indexList q
                              ∧ o = PacketIndex.filePosition e).
Proof.
  intros H. pose proof (read_frame_of_read k q) as Hfr. rewrite H in Hfr.
  unfold read in H. destruct (m_pause q); [done|]. split; [done|].
  split; [done|]. destruct k.
  - apply internalRead_some in H as (o&Hf&Hr&Ho).
    destruct (seekNextKeyFrame_lands q) as [Hs|(e&He&_&Hs)]; rewrite Hs in *.
    + exists o. destruct Ho; auto.
    + exists o. simpl in *. destruct Ho as [->| ->]; eauto 10.
  - apply internalRead_some in H as (o&Hf&Hr&Ho). exists o. destruct Ho; auto.
Qed.

Lemma read_returns_stored_packet_witness :
  m_pause (after two_sixties 100) = false
  ∧ read_frame (after two_sixties 100)
      (after (two_sixties ++ [CRead false]) 100)
  ∧ ∃ o, m_file (after two_sixties 100) !! o = Some (pkt 1 ftPFRAME 60)
         ∧ m_readFd (after (two_sixties ++ [CRead false]) 100)
           = o + getPacketLength (pkt 1 ftPFRAME 60)
         ∧ (o = m_readFd (after two_sixties 100) ∨ o = 0
            ∨ false = true
              ∧ ∃ e, e ∈ m_indexList (after two_sixties 100)
                     ∧ o = PacketIndex.filePosition e).
Proof.
  apply (read_returns_stored_packet false (after two_sixties 100)
           (pkt 1 ftPFRAME 60) (after (two_sixties ++ [CRead false]) 100)).
  vm_compute. reflexivity.
Defined.

Lemma seek_lands t q :
  m_indexList q ≠ [] →
  ∃ e, e ∈ m_indexList q
       ∧ seek t q = (PacketIndex.pts e, set_readFd (PacketIndex.filePosition e) q).
Proof.
  intros Hne. destruct (m_indexList q) as [|h idx] eqn:Hi; [done|].
  destruct (last (m_indexList q)) as [s|] eqn:Hs;
    [|rewrite Hi in Hs; by apply last_None in Hs].
  assert (head (m_indexList q) = Some h) as Hh by by rewrite Hi.
  rewrite (seek_unfold t q h s Hh Hs). rewrite <- Hi.
  destruct (Z.leb_spec (PacketIndex.wallclockTime s) t).
  { exists s. split; [|done]. apply last_Some in Hs as [l' ->].
    apply elem_of_app. right. by left. }
  destruct (Z.leb_spec t (PacketIndex.wallclockTime h)).
  { exists h. split; [|done]. rewrite Hi. by left. }
  destruct (seek_loop_finds t _ h Hh) as [e He]; [lia|]. rewrite He.
  exists e. split; [|done].
  pose proof (seek_loop_spec t (reverse (m_indexList q))) as Hsp.
  rewrite He in Hsp. destruct Hsp as (l1&l2&Hr&_).
  apply elem_of_reverse. rewrite Hr. apply elem_of_app. right. by left.
Qed.




Lemma index_ok_read_side q q' :
  read_frame q q' → 0 ≤ m_readFd q' → index_ok q → index_ok q'.
Proof.
  intros (Hb&Hw&_&Hh&Hc&_&_&Hi&_) Hr (H1&_&H3&H4&H5&H6).
  unfold index_ok, entry_ok in *. rewrite Hb, Hw, Hh, Hc, Hi. done.
Qed.

Lemma internalRead_readFd_nonneg q r q' :
  internalRead q = (r, q') → 0 ≤ m_readFd q → 0 ≤ m_readFd q'.
Proof.
  intros H Hq.
  apply internalRead_cases in H as [[_ [[_ ->]|H]]|[_ [(_&->&_)|H]]];
    try done.
  - destruct r as [m|].
    + apply MsgPacket_read_some in H as [_ ->]. simpl.
      pose proof (getPacketLength_pos m). lia.
    + by apply MsgPacket_read_none in H as ->.
  - destruct r as [m|].
    + apply MsgPacket_read_some in H as [_ ->]. simpl.
      pose proof (getPacketLength_pos m). lia.
    + by apply MsgPacket_read_none in H as ->.
Qed.

Lemma overrun_loop_readFd_nonneg fuel pe rp q b q' :
  overrun_loop fuel pe rp q = Some (b, q') → 0 ≤ m_readFd q → 0 ≤ m_readFd q'.
Proof.
  revert q. induction fuel as [|fuel IH]; intros q; simpl.
  - destruct (_ && _); [done|]. by intros [= <- <-].
  - destruct (_ && _); [|by intros [= <- <-]].
    destruct (internalRead q) as [[m|] q1] eqn:Hr.
    + intros H Hq. apply (IH q1); [done|]. by eapply internalRead_readFd_nonneg.
    + intros [= <- <-]. by eapply internalRead_readFd_nonneg.
Qed.

Lemma write_begin_index_ok ts q :
  0 < to_off_t (m_bufferSize q) → index_ok q →
  index_ok (write_begin ts q)
  ∧ m_writeFd (write_begin ts q) < to_off_t (m_bufferSize q).
Proof.
  intros Hcap (H1&H2&H3&H4&H5&H6). unfold write_begin, index_ok.
  destruct (m_queueStartTime q =? 0); cbn;
    destruct (Z.leb_spec (to_off_t (m_bufferSize q)) (m_writeFd q)); cbn;
    (split; [|lia]); repeat split; try done; try lia.
  all: try (eapply Forall_impl; [exact H5|]; unfold entry_ok; cbn; intros; lia).
  all: try (intros _; lia).
  all: tauto.
Qed.

Lemma trim_index_ok pos q : index_ok q → index_ok (trim pos q).
Proof.
  intros (H1&H2&H3&H4&H5&H6).
  destruct (trim_drop pos q) as (k&_&Hk).
  destruct (trim_frame pos q) as (_&Hw&_&Hr&_).
  destruct (trim_wraps pos q) as (_&Hc&_&Hb&_&Hh).
  unfold index_ok, entry_ok in *. rewrite Hw, Hr, Hc, Hb, Hh, Hk.
  repeat split; try done; try tauto.
  - by apply Forall_drop.
  - rewrite <- (take_drop k (m_indexList q)) in H6.
    by apply StronglySorted_app_1_r in H6.
Qed.

Lemma write_finish_index_ok ts io d q :
  m_writeFd q < to_off_t (m_bufferSize q) → index_ok q →
  index_ok (write_finish ts io d (m_writeFd q) q).
Proof.
  intros Hcap Hq.
  pose proof (trim_index_ok (m_writeFd q + getPacketLength (PacketData.p d)) q Hq)
    as (H1&H2&H3&H4&H5&H6).
  destruct (trim_frame (m_writeFd q + getPacketLength (PacketData.p d)) q)
    as (_&Hw&_&Hr&_).
  destruct (trim_wraps (m_writeFd q + getPacketLength (PacketData.p d)) q)
    as (_&Hc&_&Hb&_&Hh).
  destruct (write_finish_effect ts io d (m_writeFd q) q) as (_&_&Hi&Hrf&_&Hwf).
  destruct (write_finish_wraps ts io d (m_writeFd q) q) as (_&Hcf&_&Hbf&_&Hhf).
  pose proof (getPacketLength_pos (PacketData.p d)) as Hlen.
  assert (m_writeFd q ≤ m_writeFd (write_finish ts io d (m_writeFd q) q)) as Hle.
  { rewrite Hwf. destruct io; lia. }
  unfold index_ok. rewrite Hi, Hrf, Hcf, Hhf.
  rewrite Hw, Hr, Hc, Hh in *.
  assert (Forall (entry_ok (write_finish ts io d (m_writeFd q) q))
            (m_indexList (trim (m_writeFd q + getPacketLength (PacketData.p d)) q)))
    as Hold.
  { eapply Forall_impl; [exact H5|]. unfold entry_ok.
    rewrite Hbf, Hcf, Hb, Hc, Hw. intros e. lia. }
  repeat split; try lia; try tauto.
  - apply Forall_app. split; [done|].
    unfold index_entry. destruct (_ && _); [|done].
    apply Forall_singleton. unfold entry_ok. rewrite Hbf, Hcf.
    cbn [PacketIndex.filePosition PacketIndex.wrapCount]. lia.
  - apply StronglySorted_app. split; [|split].
    + intros a b Ha Hb'. unfold index_entry in Hb'.
      destruct (_ && _); [|by apply elem_of_nil in Hb'].
      apply list_elem_of_singleton in Hb' as ->.
      rewrite Forall_forall in H5. specialize (H5 a Ha).
      unfold entry_ok, gen_offset_le in *. rewrite Hc, Hw in H5. rewrite Hcf.
      cbn [PacketIndex.filePosition PacketIndex.wrapCount]. lia.
    + done.
    + unfold index_entry. destruct (_ && _); repeat constructor.
Qed.

Lemma write_index_ok ts io d q ok q' :
  write ts io d q = Some (ok, q') →
  0 < to_off_t (m_bufferSize q) → index_ok q → index_ok q'.
Proof.
  intros H Hcap Hq.
  destruct (write_begin_index_ok ts q Hcap Hq) as [Hq1 Hlt].
  apply write_inv in H as (b & q2 & Hl & Hq').
  assert (index_ok q2) as Hq2.
  { eapply index_ok_read_side; [by eapply overrun_loop_frame| |done].
    eapply overrun_loop_readFd_nonneg; [done|].
    rewrite write_begin_readFd. apply Hq. }
  apply overrun_loop_frame in Hl as (Hb&Hw&_).
  destruct b; destruct Hq' as [_ ->]; [|done].
  rewrite <- Hw. apply write_finish_index_ok; [|done].
  by rewrite Hw, Hb, write_begin_bufferSize.
Qed.

Lemma call_index_ok c q q' :
  call c q = Some q' →
  0 < to_off_t (m_bufferSize q) → index_ok q → index_ok q'.
Proof.
  destruct c as [m c t|ts io|k|t|on]; simpl.
  - intros [= <-] _. unfold queue. by case_match.
  - unfold writer_step. destruct (m_writerQueue q) as [|d rest];
      [by intros [= <-]|].
    destruct (write _ _ _ _) as [[ok q1]|] eqn:Hw; [|done]. intros [= <-] ? ?.
    by eapply write_index_ok.
  - intros [= <-] _ Hq.
    eapply index_ok_read_side; [apply read_frame_of_read| |done].
    unfold read. destruct (m_pause q); [apply Hq|].
    eapply internalRead_readFd_nonneg; [apply surjective_pairing|].
    destruct k; [|apply Hq].
    destruct (seekNextKeyFrame_lands q) as [->|(e&_&Hle&->)]; [apply Hq|].
    simpl. destruct Hq as (_&?&_). lia.
  - intros [= <-] _ Hq.
    destruct (m_indexList q) as [|h idx] eqn:Hi.
    + assert (seek t q = (0, q)) as -> by (unfold seek; by rewrite Hi). done.
    + destruct (seek_lands t q) as (e&He&->); [by rewrite Hi|].
      destruct Hq as (H1&H2&H3&H4&H5&H6).
      rewrite Forall_forall in H5. pose proof (H5 e He) as (?&_).
      unfold index_ok. simpl. repeat split; try done; try lia; try tauto.
      by apply Forall_forall.
  - intros [= <-] _. unfold pause. by case_match.
Qed.

Lemma sum_bytes_app l1 l2 : sum_bytes (l1 ++ l2) = sum_bytes l1 + sum_bytes l2.
Proof. induction l1 as [|x l1 IH]; simpl; [done|]. rewrite IH. lia. Qed.

Lemma sum_bytes_lengths_nonneg ms : 0 ≤ sum_bytes (lengths_of ms).
Proof.
  induction ms as [|m ms IH]; simpl; [done|].
  pose proof (getPacketLength_pos m). lia.
Qed.

Lemma laid_out_app f o ms m :
  laid_out f o (ms ++ [m])
  ↔ laid_out f o ms ∧ f !! (o + sum_bytes (lengths_of ms)) = Some m.
Proof.
  revert o. induction ms as [|x ms IH]; intros o; simpl.
  - rewrite Z.add_0_r. tauto.
  - rewrite IH, Z.add_assoc. tauto.
Qed.

Lemma starts_below_app capacity o ms m :
  starts_below capacity o (ms ++ [m])
  ↔ starts_below capacity o ms ∧ o + sum_bytes (lengths_of ms) < capacity.
Proof.
  revert o. induction ms as [|x ms IH]; intros o; simpl.
  - rewrite Z.add_0_r. tauto.
  - rewrite IH, Z.add_assoc. tauto.
Qed.

(** Writing beyond everything stored destroys nothing. *)
Lemma file_write_beyond f w m o :
  file_below f w → o ≠ w → file_write f w m !! o = f !! o.
Proof.
  intros Hf Ho. unfold file_write. rewrite lookup_insert_ne by done.
  destruct (f !! o) as [x|] eqn:Hx.
  - apply map_lookup_filter_Some. split; [done|].
    unfold overlaps. simpl. specialize (Hf o x Hx). lia.
  - apply map_lookup_filter_None. by left.
Qed.

Lemma file_write_below f w m :
  file_below f w → file_below (file_write f w m) (w + getPacketLength m).
Proof.
  intros Hf o x Hx. pose proof (getPacketLength_pos m).
  destruct (decide (o = w)) as [->|Hne].
  - rewrite file_write_lookup in Hx. injection Hx as <-. lia.
  - rewrite file_write_beyond in Hx by done. specialize (Hf o x Hx). lia.
Qed.

Lemma laid_out_file_write f w m o ms :
  file_below f w → o + sum_bytes (lengths_of ms) ≤ w →
  laid_out f o ms → laid_out (file_write f w m) o ms.
Proof.
  intros Hf. revert o. induction ms as [|x ms IH]; intros o Ho; simpl; [done|].
  intros [Hx Hms]. simpl in Ho. pose proof (getPacketLength_pos x).
  pose proof (sum_bytes_lengths_nonneg ms). split.
  - rewrite file_write_beyond; [done|done|lia].
  - apply IH; [lia|done].
Qed.

(** The overrun loop does nothing while the flag is down. *)
Lemma overrun_loop_unwrapped fuel pe rp q :
  m_wrapped q = false → overrun_loop fuel pe rp q = Some (true, q).
Proof. intros Hw. destruct fuel; simpl; by rewrite Hw, andb_false_r. Qed.

Lemma write_filled ts d ms q :
  filled ms q → m_writeFd q < to_off_t (m_bufferSize q) →
  ∃ q', write ts true d q = Some (true, q')
        ∧ filled (ms ++ [PacketData.p d]) q'
        ∧ m_bufferSize q' = m_bufferSize q
        ∧ m_wrapCount q' = m_wrapCount q.
Proof.
  intros (Hw&Hp&Hr&Hwf&Hl&Hb) Hcap.
  assert (write_begin ts q
          = if m_queueStartTime q =? 0 then set_queueStartTime ts q else q)
    as Hbegin.
  { unfold write_begin. destruct (m_queueStartTime q =? 0); cbn;
      by destruct (Z.leb_spec (to_off_t (m_bufferSize q)) (m_writeFd q));
        [lia|]. }
  assert (m_wrapped (write_begin ts q) = false
          ∧ m_writeFd (write_begin ts q) = m_writeFd q
          ∧ m_file (write_begin ts q) = m_file q
          ∧ m_pause (write_begin ts q) = m_pause q
          ∧ m_bufferSize (write_begin ts q) = m_bufferSize q
          ∧ m_readFd (write_begin ts q) = m_readFd q)
    as (Hw1&Hwf1&Hf1&Hp1&Hb1&Hr1).
  { rewrite Hbegin. by destruct (m_queueStartTime q =? 0). }
  eexists. split.
  { rewrite write_unfold. cbv zeta.
    by rewrite (overrun_loop_unwrapped _ _ _ _ Hw1). }
  set (q1 := write_begin ts q) in *.
  destruct (write_finish_effect ts true d (m_writeFd q1) q1)
    as (Hf&_&_&Hrd&Hpa&Hwr).
  destruct (write_finish_wraps ts true d (m_writeFd q1) q1)
    as (Hwp&Hwc&_&Hbs&_).
  assert (m_wrapCount q1 = m_wrapCount q) as Hwc1.
  { subst q1. rewrite Hbegin. by destruct (m_queueStartTime q =? 0). }
  rewrite Hwc, Hwc1.
  unfold filled.
  rewrite Hf, Hrd, Hpa, Hwr, Hwp, Hbs, Hwf1, Hf1, Hp1, Hb1, Hw1, Hr1, Hr.
  repeat split; try done.
  - unfold lengths_of. rewrite fmap_app, sum_bytes_app. simpl.
    fold (lengths_of ms). lia.
  - apply laid_out_app. split.
    + apply laid_out_file_write; [done|lia|done].
    + rewrite <- Hwf. apply file_write_lookup.
  - by apply file_write_below.
Qed.

Lemma write_all_filled ws ms q :
  filled ms q →
  starts_below (to_off_t (m_bufferSize q)) (m_writeFd q) (packets_of ws) →
  ∃ q', write_all ws q = Some q'
        ∧ filled (ms ++ packets_of ws) q'
        ∧ m_bufferSize q' = m_bufferSize q
        ∧ m_wrapCount q' = m_wrapCount q.
Proof.
  revert ms q. induction ws as [|[ts d] ws IH]; intros ms q Hq Hs.
  - exists q. by rewrite app_nil_r.
  - simpl in Hs. destruct Hs as [Hlt Hs].
    destruct (write_filled ts d ms q Hq Hlt) as (q1&Hw&Hq1&Hb&Hc).
    destruct (IH (ms ++ [PacketData.p d]) q1 Hq1) as (q'&Hws&Hq'&Hb'&Hc').
    { rewrite Hb. destruct Hq1 as (_&_&_&->&_). destruct Hq as (_&_&_&Hwf&_).
      unfold lengths_of. rewrite fmap_app, sum_bytes_app. simpl.
      fold (lengths_of ms). rewrite <- Hwf, Z.add_0_r. done. }
    exists q'. simpl. rewrite Hw. split; [done|].
    rewrite <- app_assoc in Hq'. split; [done|]. split; congruence.
Qed.

Lemma starts_below_of_sum capacity o ms :
  o + sum_bytes (lengths_of ms) ≤ capacity → starts_below capacity o ms.
Proof.
  revert o. induction ms as [|m ms IH]; intros o; simpl; [done|].
  intros Ho. pose proof (getPacketLength_pos m).
  pose proof (sum_bytes_lengths_nonneg ms). split; [lia|]. apply IH. lia.
Qed.

(** Reading back what lies back to back from the read cursor on. *)
Lemma read_all_laid_out ms q :
  m_pause q = false →
  laid_out (m_file q) (m_readFd q) ms →
  m_writeFd q = m_readFd q + sum_bytes (lengths_of ms) →
  starts_below (to_off_t (m_bufferSize q)) (m_readFd q) ms →
  read_all (length ms) q = (Some <$> ms, set_readFd (m_writeFd q) q).
Proof.
  revert q. induction ms as [|m ms IH]; intros q Hp Hl Hwf Hs.
  - simpl in *. rewrite Hwf, Z.add_0_r. by rewrite set_readFd_same.
  - simpl in Hl, Hs, Hwf. destruct Hl as [Hm Hl]. destruct Hs as [Hlt Hs].
    pose proof (getPacketLength_pos m). pose proof (sum_bytes_lengths_nonneg ms).
    assert (read false q
            = (Some m, set_readFd (m_readFd q + getPacketLength m) q)) as Hrd.
    { unfold read, internalRead, MsgPacket_read. rewrite Hp.
      destruct (Z.leb_spec (to_off_t (m_bufferSize q)) (m_readFd q)); [lia|].
      destruct (Z.leb_spec (m_writeFd q) (m_readFd q)); [lia|]. simpl.
      by rewrite Hm. }
    change (read_all (length (m :: ms)) q)
      with (let '(r, q') := read false q in
            let '(rs, q'') := read_all (length ms) q' in (r :: rs, q'')).
    rewrite Hrd. rewrite IH; simpl; try done; lia.
Qed.

Lemma filled_new bufferSize : filled [] (LiveQueue_new bufferSize).
Proof. by repeat split. Qed.

(** What writing [ws] into a new instance and reading as many packets back
    gives, as long as every packet starts below the capacity. *)
Lemma write_all_read_all bufferSize ws :
  starts_below (to_off_t bufferSize) 0 (packets_of ws) →
  ∃ q', write_all ws (LiveQueue_new bufferSize) = Some q'
        ∧ filled (packets_of ws) q'
        ∧ m_bufferSize q' = bufferSize ∧ m_wrapCount q' = 0
        ∧ read_all (length ws) q'
          = (Some <$> packets_of ws, set_readFd (m_writeFd q') q').
Proof.
  intros Hs.
  destruct (write_all_filled ws [] (LiveQueue_new bufferSize)
              (filled_new bufferSize) Hs) as (q'&Hw&Hq'&Hb&Hc).
  exists q'. simpl in *. do 4 (split; [done|]).
  destruct Hq' as (Hwr&Hp&Hr&Hwf&Hl&_).
  replace (length ws) with (length (packets_of ws))
    by (unfold packets_of; apply length_fmap).
  apply read_all_laid_out; rewrite ?Hr, ?Hb; try done.
Qed.

(** X5. Round trip below the capacity: when packets whose lengths add up to
    less than the capacity are written into a new instance through a
    descriptor that accepts them, all writes succeed, and as many reads
    return exactly these packets, in the order written; the read cursor then
    stands on the write cursor and a further read returns NULL and changes
    nothing. *)
Theorem fifo_round_trip (bufferSize : Z) (ws : list (Z * PacketData.t)) :
  sum_bytes (lengths_of (packets_of ws)) < to_off_t bufferSize →
  ∃ q' q'',
    write_all ws (LiveQueue_new bufferSize) = Some q'
    ∧ read_all (length ws) q' = (Some <$> packets_of ws, q'')
    ∧ m_readFd q'' = m_writeFd q''
    ∧ read false q'' = (None, q'').
Proof.
  intros Hsum.
  destruct (write_all_read_all bufferSize ws) as (q'&Hw&Hq'&Hb&Hc&Hr).
  { apply starts_below_of_sum. lia. }
  exists q', (set_readFd (m_writeFd q') q'). repeat split; try done.
  destruct Hq' as (Hwr&Hp&_&Hwf&_).
  unfold read, internalRead. simpl. rewrite Hp, Hb, Hwf.
  destruct (Z.leb_spec (to_off_t bufferSize)
              (sum_bytes (lengths_of (packets_of ws)))); [lia|].
  simpl. by rewrite Z.leb_refl, Hwr.
Qed.

Lemma fifo_round_trip_witness :
  ∃ q' q'',
    write_all two_writes (LiveQueue_new 100) = Some q'
    ∧ read_all (length two_writes) q' = (Some <$> packets_of two_writes, q'')
    ∧ m_readFd q'' = m_writeFd q''
    ∧ read false q'' = (None, q'').
Proof.
  apply (fifo_round_trip 100 two_writes). vm_compute. reflexivity.
Defined.

(** X6. When the packets written into a new instance, through a descriptor
    that accepts them, each start below the capacity but add up to the
    capacity or more (the last one reaches or crosses it), all writes still
    succeed and as many reads return them in
    order; but the next read, instead of returning NULL, wraps the read
    cursor although the write cursor never wrapped (wrap generation 0),
    raises the wrapped flag and returns the first packet a second time. *)
Theorem read_past_capacity_repeats_first_packet
    (bufferSize : Z) (ws : list (Z * PacketData.t)) (m0 : MsgPacket) :
  head (packets_of ws) = Some m0 →
  starts_below (to_off_t bufferSize) 0 (packets_of ws) →
  to_off_t bufferSize ≤ sum_bytes (lengths_of (packets_of ws)) →
  ∃ q' q'' q3,
    write_all ws (LiveQueue_new bufferSize) = Some q'
    ∧ read_all (length ws) q' = (Some <$> packets_of ws, q'')
    ∧ read false q'' = (Some m0, q3)
    ∧ m_wrapCount q3 = 0 ∧ m_wrapped q3 = true
    ∧ m_readFd q3 = getPacketLength m0.
Proof.
  intros Hm0 Hs Hsum.
  destruct (write_all_read_all bufferSize ws Hs) as (q'&Hw&Hq'&Hb&Hc&Hr).
  destruct Hq' as (Hwr&Hp&_&Hwf&Hl&_).
  destruct (packets_of ws) as [|m ms] eqn:Hms; [done|]. injection Hm0 as ->.
  simpl in Hl. destruct Hl as [Hl0 _].
  pose proof (getPacketLength_pos m0).
  pose proof (sum_bytes_lengths_nonneg ms).
  eexists q', (set_readFd (m_writeFd q') q'), _. split; [done|].
  split; [done|]. split.
  - unfold read, internalRead, MsgPacket_read. simpl. rewrite Hp, Hb, Hwf.
    destruct (Z.leb_spec (to_off_t bufferSize)
                (sum_bytes (lengths_of (m0 :: ms)))); [|lia].
    simpl. rewrite Hwr. simpl.
    destruct (Z.leb_spec (getPacketLength m0 + sum_bytes (lengths_of ms)) 0);
      [lia|].
    simpl. rewrite Hl0. reflexivity.
  - simpl. by rewrite Hc, Hwr.
Qed.

Lemma read_past_capacity_repeats_first_packet_witness :
  ∃ q' q'' q3,
    write_all two_sixty_writes (LiveQueue_new 100) = Some q'
    ∧ read_all (length two_sixty_writes) q'
      = (Some <$> packets_of two_sixty_writes, q'')
    ∧ read false q'' = (Some (pkt 1 ftPFRAME 60), q3)
    ∧ m_wrapCount q3 = 0 ∧ m_wrapped q3 = true
    ∧ m_readFd q3 = getPacketLength (pkt 1 ftPFRAME 60).
Proof.
  apply (read_past_capacity_repeats_first_packet 100 two_sixty_writes
           (pkt 1 ftPFRAME 60)).
  - reflexivity.
  - vm_compute. repeat split.
  - vm_compute. discriminate.
Defined.

Lemma write_deleted ts io d q ok q' :
  write ts io d q = Some (ok, q') →
  g_deleted q'
  = g_deleted q ++ (if fails_in_loop ts d q then [] else [PacketData.p d]).
Proof.
  intros H. unfold fails_in_loop.
  apply write_inv in H as (b & q2 & Hl & Hq). rewrite Hl.
  apply overrun_loop_frame in Hl as (_&_&_&_&_&_&_&_&_&Hd).
  destruct (write_begin_frame ts q) as (_&Hd1&_).
  destruct b; destruct Hq as [_ ->].
  - destruct (write_finish_effect ts io d (m_writeFd (write_begin ts q)) q2)
      as (_&->&_). by rewrite Hd, Hd1.
  - by rewrite Hd, Hd1, app_nil_r.
Qed.

Lemma call_accounting c q q' :
  call c q = Some q' →
  held q' ++ g_deleted q' ++ leaked c q ≡ₚ held q ++ g_deleted q ++ submitted c.
Proof.
  unfold held. destruct c as [m c t|ts io|k|t|on]; simpl.
  - intros [= <-]. unfold queue. case_match; simpl.
    + by rewrite app_nil_r.
    + rewrite fmap_app. simpl. solve_Permutation.
  - unfold writer_step. destruct (m_writerQueue q) as [|d rest] eqn:Hq.
    { intros [= <-]. by rewrite Hq. }
    destruct (write _ _ _ _) as [[ok q1]|] eqn:Hw; [|done]. intros [= <-].
    rewrite (write_writerQueue _ _ _ _ _ _ Hw), (write_deleted _ _ _ _ _ _ Hw).
    simpl. destruct (fails_in_loop _ _ _); solve_Permutation.
  - intros [= <-].
    destruct (read_frame_of_read k q) as (_&_&_&_&_&_&_&_&->&->). done.
  - intros [= <-]. by destruct (seek_frame t q) as [pos ->].
  - intros [= <-]. unfold pause. by case_match.
Qed.

Lemma run_accounting cs q q' :
  run cs q = Some q' →
  held q' ++ g_deleted q' ++ all_leaked cs q
  ≡ₚ held q ++ g_deleted q ++ all_submitted cs.
Proof.
  revert q. induction cs as [|c cs IH]; intros q; simpl.
  - intros [= <-]. done.
  - destruct (call c q) as [q1|] eqn:Hc; [|done]. intros Hr.
    apply IH in Hr. apply call_accounting in Hc.
    unfold all_submitted in *. simpl.
    transitivity (leaked c q ++ held q1 ++ g_deleted q1 ++ cs ≫= submitted).
    { rewrite <- Hr. solve_Permutation. }
    transitivity ((held q1 ++ g_deleted q1 ++ leaked c q) ++ cs ≫= submitted).
    { solve_Permutation. }
    rewrite Hc. solve_Permutation.
Qed.

Lemma destructor_loop_spec l q :
  m_writerQueue (destructor_loop l q) = (match l with [] => m_writerQueue q | _ => [] end)
  ∧ g_deleted (destructor_loop l q) = g_deleted q ++ (PacketData.p <$> l).
Proof.
  revert q. induction l as [|d l IH]; intros q; simpl.
  - by rewrite app_nil_r.
  - destruct (IH (set_writerQueue l (delete_packet (PacketData.p d) q)))
      as [-> ->]. simpl. rewrite <- app_assoc. by destruct l.
Qed.

(** X7. Ownership of the submitted packets: after any history of calls on
    a new instance, the packets waiting in the submission list, the packets
    destroyed so far and the packets of the writes that left through the
    overrun loop are, together, exactly the packets submitted, each once: no
    packet is destroyed twice or lost in another way, and the only packets
    never destroyed are those of writes that returned from inside the overrun
    loop. The destructor empties the submission list and destroys the
    packets that waited in it. *)
Theorem packets_destroyed_once_or_leaked
    (bufferSize : Z) (cs : list Call) (q : LiveQueue) :
  run cs (LiveQueue_new bufferSize) = Some q →
  held q ++ g_deleted q ++ all_leaked cs (LiveQueue_new bufferSize)
  ≡ₚ all_submitted cs
  ∧ m_writerQueue (LiveQueue_destructor q) = []
  ∧ g_deleted (LiveQueue_destructor q)
      ++ all_leaked cs (LiveQueue_new bufferSize)
    ≡ₚ all_submitted cs.
Proof.
  intros Hr. apply run_accounting in Hr. simpl in Hr. split; [done|].
  unfold LiveQueue_destructor.
  destruct (destructor_loop_spec (m_writerQueue q) q) as [-> ->].
  split; [by destruct (m_writerQueue q)|].
  rewrite <- Hr. unfold held. solve_Permutation.
Qed.

Lemma packets_destroyed_once_or_leaked_witness :
  held (after failed_wrap 100) ++ g_deleted (after failed_wrap 100)
    ++ all_leaked failed_wrap (LiveQueue_new 100)
  ≡ₚ all_submitted failed_wrap
  ∧ m_writerQueue (LiveQueue_destructor (after failed_wrap 100)) = []
  ∧ g_deleted (LiveQueue_destructor (after failed_wrap 100))
      ++ all_leaked failed_wrap (LiveQueue_new 100)
    ≡ₚ all_submitted failed_wrap.
Proof.
  apply (packets_destroyed_once_or_leaked 100 failed_wrap
           (after failed_wrap 100)).
  vm_compute. reflexivity.
Defined.

Lemma index_entry_time ts d q' start e :
  e ∈ index_entry ts d q' start → PacketIndex.wallclockTime e = ts.
Proof.
  unfold index_entry. destruct (_ && _); [|by intros ?%elem_of_nil].
  by intros ->%list_elem_of_singleton.
Qed.

Lemma write_times_ok ts io d q ok q' t :
  write ts io d q = Some (ok, q') → t ≤ ts → times_ok t q → times_ok ts q'.
Proof.
  intros H Hts [Hf Hs]. unfold times_ok.
  apply write_effect in H as [(_&_&_&_&->)|(_&_&_&_&k&_&->)].
  - split; [|done]. eapply Forall_impl; [done|]. simpl. lia.
  - assert (Forall (λ e, PacketIndex.wallclockTime e ≤ ts)
              (drop k (m_indexList q))) as Hd.
    { apply Forall_drop. eapply Forall_impl; [done|]. simpl. lia. }
    split.
    + apply Forall_app. split; [done|]. apply Forall_forall.
      intros e He%index_entry_time. lia.
    + apply StronglySorted_app. split; [|split].
      * intros a b Ha Hb%index_entry_time. rewrite Forall_forall in Hd.
        unfold time_le. rewrite Hb. by apply Hd.
      * rewrite <- (take_drop k (m_indexList q)) in Hs.
        by apply StronglySorted_app_1_r in Hs.
      * unfold index_entry. destruct (_ && _); repeat constructor.
Qed.

Lemma run_times_ok cs q q' t :
  run cs q = Some q' → clock_monotone t cs → times_ok t q →
  ∃ t', t ≤ t' ∧ times_ok t' q'.
Proof.
  revert q t. induction cs as [|c cs IH]; intros q t; simpl.
  - intros [= <-] _ Hq. exists t. split; [lia|done].
  - destruct (call c q) as [q1|] eqn:Hc; [|done]. intros Hr Hm Hq.
    destruct c as [m c t0|ts io|k|t0|on]; simpl in Hc.
    + injection Hc as <-. apply (IH _ t Hr Hm).
      unfold queue, times_ok. by case_match.
    + destruct Hm as [Hts Hm]. unfold writer_step in Hc.
      destruct (m_writerQueue q) as [|d rest].
      * injection Hc as <-. destruct (IH _ ts Hr Hm) as (t'&?&?).
        { destruct Hq as [Hf Hs]. split; [|done].
          eapply Forall_impl; [done|]. simpl. lia. }
        exists t'. split; [lia|done].
      * destruct (write _ _ _ _) as [[ok q2]|] eqn:Hw; [|done].
        injection Hc as <-. destruct (IH _ ts Hr Hm) as (t'&?&?).
        { eapply write_times_ok; [done|done|]. done. }
        exists t'. split; [lia|done].
    + injection Hc as <-. apply (IH _ t Hr Hm).
      destruct (read_frame_of_read k q) as (_&_&_&_&_&_&_&Hi&_).
      unfold times_ok. by rewrite Hi.
    + injection Hc as <-. apply (IH _ t Hr Hm).
      by destruct (seek_frame t0 q) as [pos ->].
    + injection Hc as <-. apply (IH _ t Hr Hm).
      unfold pause, times_ok. by case_match.
Qed.

(** X8. If the wall clock read by the writes never goes back, the keyframe
    index of every state reached from a new instance is in wall-clock order,
    also across wraps and trims; and then a seek to a time strictly between
    the oldest and the newest entry lands on an entry at or before the
    target that has the greatest wall-clock time among all entries at or
    before the target. *)
Theorem monotone_clock_orders_index
    (bufferSize t0 t : Z) (cs : list Call) (q : LiveQueue)
    (h s : PacketIndex.t) :
  run cs (LiveQueue_new bufferSize) = Some q → clock_monotone t0 cs →
  head (m_indexList q) = Some h → last (m_indexList q) = Some s →
  PacketIndex.wallclockTime h < t → t < PacketIndex.wallclockTime s →
  Sorted time_le (m_indexList q)
  ∧ ∃ e, e ∈ m_indexList q
         ∧ seek t q
           = (PacketIndex.pts e, set_readFd (PacketIndex.filePosition e) q)
         ∧ PacketIndex.wallclockTime e ≤ t
         ∧ ∀ x, x ∈ m_indexList q → PacketIndex.wallclockTime x ≤ t →
                PacketIndex.wallclockTime x ≤ PacketIndex.wallclockTime e.
Proof.
  intros Hr Hm Hh Hs Hold Hnew.
  destruct (run_times_ok cs _ q t0 Hr Hm) as (t'&_&_&Hsorted).
  { split; constructor. }
  apply StronglySorted_Sorted in Hsorted as Hsorted'. split; [done|].
  rewrite (seek_unfold t q h s Hh Hs).
  destruct (Z.leb_spec (PacketIndex.wallclockTime s) t); [lia|].
  destruct (Z.leb_spec t (PacketIndex.wallclockTime h)); [lia|].
  destruct (seek_loop_finds t _ h Hh Hold) as [e He]. rewrite He.
  pose proof (seek_loop_spec t (reverse (m_indexList q))) as Hsp.
  rewrite He in Hsp. destruct Hsp as (l1&l2&Hrev&_&Hle).
  exists e. repeat split; try done.
  - apply elem_of_reverse. rewrite Hrev. apply elem_of_app. right. by left.
  - by apply seek_loop_latest.
Qed.

Lemma monotone_clock_orders_index_witness :
  Sorted time_le (m_indexList q_three)
  ∧ ∃ e, e ∈ m_indexList q_three
         ∧ seek 1000 q_three
           = (PacketIndex.pts e,
              set_readFd (PacketIndex.filePosition e) q_three)
         ∧ PacketIndex.wallclockTime e ≤ 1000
         ∧ ∀ x, x ∈ m_indexList q_three → PacketIndex.wallclockTime x ≤ 1000 →
                PacketIndex.wallclockTime x ≤ PacketIndex.wallclockTime e.
Proof.
  apply (monotone_clock_orders_index 1000 0 1000 three_frames q_three
           (PacketIndex.mk 0 0 1000 0) (PacketIndex.mk 200 2000 3000 0)).
  - vm_compute. reflexivity.
  - simpl. lia.
  - vm_compute. reflexivity.
  - vm_compute. reflexivity.
  - simpl. lia.
  - simpl. lia.
Defined.

Lemma write_before_first_wrap ts io d q ok q' :
  write ts io d q = Some (ok, q') → m_hasWrapped q' = false →
  m_hasWrapped q = false ∧ write_start q = m_writeFd q
  ∧ m_writeFd q < to_off_t (m_bufferSize q).
Proof.
  intros H Hh. apply write_inv in H as (b & q2 & Hl & Hq).
  apply overrun_loop_frame in Hl as (_&_&_&Hh2&_).
  assert (m_hasWrapped (write_begin ts q) = false) as Hb.
  { rewrite <- Hh2. destruct b; destruct Hq as [_ ->]; [|done].
    by destruct (write_finish_wraps ts io d (m_writeFd (write_begin ts q)) q2)
      as (_&_&_&_&_&<-). }
  revert Hb. unfold write_begin, write_start.
  destruct (m_queueStartTime q =? 0); cbn;
    destruct (Z.leb_spec (to_off_t (m_bufferSize q)) (m_writeFd q)); cbn;
    try done.
Qed.

Lemma write_keyframes_intact ts d q ok q' :
  write ts true d q = Some (ok, q') → m_hasWrapped q' = false →
  keyframes_intact q → keyframes_intact q'.
Proof.
  intros H Hh [Hk Hb].
  destruct (write_before_first_wrap _ _ _ _ _ _ H Hh) as (_&Hst&Hlt).
  pose proof (write_bufferSize _ _ _ _ _ _ H) as Hbs.
  apply write_effect in H as [(_&Hf&Hw&_&Hi)|(_&Hf&Hw&_&k&_&Hi)];
    unfold keyframes_intact; rewrite Hf, Hw, Hi, Hbs, Hst.
  - done.
  - split; [|by apply file_write_below].
    apply Forall_app. split.
    + apply Forall_drop. eapply Forall_impl; [exact Hk|]. simpl.
      intros e (He&m&Hm&Hkey). split; [done|]. exists m. split; [|done].
      rewrite file_write_beyond; [done|done|].
      specialize (Hb _ _ Hm). pose proof (getPacketLength_pos m). lia.
    + unfold index_entry. destruct (bool_decide _) eqn:Hkey; simpl;
        [|done]. destruct (bool_decide (PacketData.content d = scVIDEO));
        [|done].
      apply Forall_singleton. simpl. split; [done|].
      exists (PacketData.p d). split; [apply file_write_lookup|].
      by apply bool_decide_eq_true in Hkey.
Qed.

Lemma call_hasWrapped_sticky c q q' :
  call c q = Some q' → m_hasWrapped q = true → m_hasWrapped q' = true.
Proof.
  destruct c as [m c t|ts io|k|t|on]; simpl.
  - intros [= <-]. unfold queue. by case_match.
  - unfold writer_step. destruct (m_writerQueue q) as [|d rest];
      [by intros [= <-]|].
    destruct (write _ _ _ _) as [[ok q1]|] eqn:Hw; [|done]. intros [= <-] Hh.
    destruct (m_hasWrapped q1) eqn:Hh1; [done|].
    apply (write_before_first_wrap _ _ _ _ _ _ Hw) in Hh1 as (Hh1&_).
    simpl in Hh1. congruence.
  - intros [= <-]. by destruct (read_frame_of_read k q) as (_&_&_&->&_).
  - intros [= <-]. by destruct (seek_frame t q) as [pos ->].
  - intros [= <-]. unfold pause. by case_match.
Qed.

Lemma run_hasWrapped_sticky cs q q' :
  run cs q = Some q' → m_hasWrapped q' = false → m_hasWrapped q = false.
Proof.
  revert q. induction cs as [|c cs IH]; intros q; simpl.
  - by intros [= <-].
  - destruct (call c q) as [q1|] eqn:Hc; [|done]. intros Hr Hh.
    apply IH in Hr; [|done]. destruct (m_hasWrapped q) eqn:Hq; [|done].
    apply (call_hasWrapped_sticky _ _ _ Hc) in Hq. congruence.
Qed.

Lemma run_keyframes_intact cs q q' :
  run cs q = Some q' → Forall descriptor_accepts cs →
  m_hasWrapped q' = false → keyframes_intact q → keyframes_intact q'.
Proof.
  revert q. induction cs as [|c cs IH]; intros q; simpl.
  - by intros [= <-].
  - destruct (call c q) as [q1|] eqn:Hc; [|done]. intros Hr Hio Hh Hq.
    apply Forall_cons_1 in Hio as [Hc_io Hio]. apply (IH q1); try done.
    pose proof (run_hasWrapped_sticky _ _ _ Hr Hh) as Hh1.
    destruct c as [m c t|ts io|k|t|on]; simpl in Hc, Hc_io.
    + injection Hc as <-. unfold queue, keyframes_intact. by case_match.
    + subst io. unfold writer_step in Hc.
      destruct (m_writerQueue q) as [|d rest]; [by injection Hc as <-|].
      destruct (write _ _ _ _) as [[ok q2]|] eqn:Hw; [|done].
      injection Hc as <-. by eapply write_keyframes_intact.
    + injection Hc as <-.
      destruct (read_frame_of_read k q) as (Hb&Hw&Hf&_&_&_&_&Hi&_).
      unfold keyframes_intact. by rewrite Hb, Hw, Hf, Hi.
    + injection Hc as <-. by destruct (seek_frame t q) as [pos ->].
    + injection Hc as <-. unfold pause, keyframes_intact. by case_match.
Qed.

Lemma internalRead_at_stored q m :
  m_file q !! m_readFd q = Some m →
  m_readFd q < to_off_t (m_bufferSize q) →
  m_readFd q + getPacketLength m ≤ m_writeFd q →
  internalRead q = (Some m, set_readFd (m_readFd q + getPacketLength m) q).
Proof.
  intros Hm Hlt Hle. pose proof (getPacketLength_pos m).
  unfold internalRead, MsgPacket_read.
  destruct (Z.leb_spec (to_off_t (m_bufferSize q)) (m_readFd q)); [lia|].
  destruct (Z.leb_spec (m_writeFd q) (m_readFd q)); [lia|]. simpl.
  by rewrite Hm.
Qed.

(** X9. Before the first wrap of the write cursor, and as long as the
    descriptor accepted every packet, seek and read compose: on a queue that
    is not paused and has a keyframe indexed, a seek to any time followed by
    a read, in either mode, returns a packet, that packet is an I-frame, it
    is the packet stored at the offset of an index entry, and the read
    cursor ends just behind it. *)
Theorem seek_then_read_returns_keyframe
    (bufferSize t : Z) (cs : list Call) (q : LiveQueue) (keyFrameMode : bool) :
  run cs (LiveQueue_new bufferSize) = Some q →
  Forall descriptor_accepts cs →
  m_hasWrapped q = false → m_pause q = false → m_indexList q ≠ [] →
  ∃ m e q',
    read keyFrameMode (seek t q).2 = (Some m, q')
    ∧ getClientID m = ftIFRAME
    ∧ e ∈ m_indexList q
    ∧ m_file q !! PacketIndex.filePosition e = Some m
    ∧ m_readFd q' = PacketIndex.filePosition e + getPacketLength m.
Proof.
  intros Hr Hio Hh Hp Hne.
  assert (keyframes_intact q) as [Hk Hb].
  { eapply run_keyframes_intact; try done. }
  rewrite Forall_forall in Hk.
  destruct (seek_lands t q Hne) as (e0&He0&->). simpl.
  set (q1 := set_readFd (PacketIndex.filePosition e0) q).
  assert (∃ e, e ∈ m_indexList q
               ∧ (if keyFrameMode then seekNextKeyFrame q1 else q1)
                 = set_readFd (PacketIndex.filePosition e) q) as (e&He&Hq2).
  { destruct keyFrameMode; [|by exists e0].
    destruct (seekNextKeyFrame_lands q1) as [->|(e&He&_&->)]; [by exists e0|].
    by exists e. }
  destruct (Hk e He) as (Hlt&m&Hm&Hkey).
  exists m, e. eexists. unfold read. simpl. rewrite Hp, Hq2.
  rewrite internalRead_at_stored with (m := m); simpl; try done.
  by apply Hb.
Qed.

Lemma seek_then_read_returns_keyframe_witness :
  ∃ m e q',
    read false (seek 1000 q_three).2 = (Some m, q')
    ∧ getClientID m = ftIFRAME
    ∧ e ∈ m_indexList q_three
    ∧ m_file q_three !! PacketIndex.filePosition e = Some m
    ∧ m_readFd q' = PacketIndex.filePosition e + getPacketLength m.
Proof.
  apply (seek_then_read_returns_keyframe 1000 1000 three_frames q_three false).
  - vm_compute. reflexivity.
  - repeat constructor.
  - vm_compute. reflexivity.
  - vm_compute. reflexivity.
  - vm_compute. discriminate.
Defined.

(** More fuel does not change what the loop returns. *)
Lemma overrun_loop_more_fuel fuel fuel' pe rp q r :
  overrun_loop fuel pe rp q = Some r → (fuel ≤ fuel')%nat →
  overrun_loop fuel' pe rp q = Some r.
Proof.
  revert fuel' q. induction fuel as [|fuel IH]; intros fuel' q; simpl.
  - destruct (_ && _) eqn:Hc; [done|]. intros [= <-] _.
    destruct fuel'; simpl; by rewrite Hc.
  - destruct (_ && _) eqn:Hc.
    + intros H Hf. destruct fuel' as [|fuel']; [lia|]. simpl. rewrite Hc.
      destruct (internalRead q) as [[m|] q1]; [|done]. apply IH; [done|lia].
    + intros [= <-] _. destruct fuel'; simpl; by rewrite Hc.
Qed.

(** X10. The overrun loop of [write] ends: it makes at most as many skips as
    there are bytes between the read cursor and the capacity, and two more;
    any larger bound on its iterations gives the same result. It only moves
    the read cursor and the wrapped flag; and when it ends without failing,
    either it did nothing or it leaves the wrapped flag down. *)
Theorem overrun_loop_ends_within_bound
    (fuel : nat) (pe rp : Z) (q : LiveQueue) :
  (Z.to_nat (to_off_t (m_bufferSize q) - m_readFd q) + 2 ≤ fuel)%nat →
  ∃ b q', overrun_loop fuel pe rp q = Some (b, q')
          ∧ overrun_loop (overrun_fuel q) pe rp q = Some (b, q')
          ∧ read_frame q q'
          ∧ (b = true → q' = q ∨ m_wrapped q' = false).
Proof.
  intros Hf.
  destruct (overrun_loop (overrun_fuel q) pe rp q) as [[b q']|] eqn:Hl.
  - exists b, q'. split; [|split; [done|split]].
    + eapply overrun_loop_more_fuel; [done|]. unfold overrun_fuel. lia.
    + by eapply overrun_loop_frame.
    + intros ->. apply overrun_loop_exit in Hl as [[-> _]|?]; auto.
  - apply overrun_loop_terminates in Hl; [done|]. unfold overrun_fuel. lia.
Qed.

Lemma overrun_loop_ends_within_bound_witness :
  ∃ b q', overrun_loop 200 55 50 q_lapped = Some (b, q')
          ∧ overrun_loop (overrun_fuel q_lapped) 55 50 q_lapped = Some (b, q')
          ∧ read_frame q_lapped q'
          ∧ (b = true → q' = q_lapped ∨ m_wrapped q' = false).
Proof.
  apply (overrun_loop_ends_within_bound 200 55 50 q_lapped).
  vm_compute. lia.
Defined.

Lemma first_boundary_again r l i j :
  StronglySorted offset_le l → first_boundary r l = Some (i, j) →
  first_boundary (PacketIndex.filePosition j) l = Some (i, j).
Proof.
  revert i j. induction l as [|a l IH]; intros i j Hs; [done|].
  destruct l as [|b l]; [done|]. rewrite !first_boundary_cons.
  apply StronglySorted_cons in Hs as [Ha Hs].
  destruct (boundary r (a, b)) eqn:Hb.
  - intros [= <- <-]. apply boundary_spec in Hb.
    assert (boundary (PacketIndex.filePosition b) (a, b) = true) as ->; [|done].
    apply boundary_spec. unfold is_boundary in *. lia.
  - intros Hf. pose proof (IH i j Hs Hf) as ->.
    apply first_boundary_Some in Hf as (l1&l2&Hl&_&Hij).
    assert (offset_le b i) as Hbi.
    { destruct l1 as [|x l1]; simpl in Hl.
      - injection Hl as -> _. unfold offset_le. lia.
      - injection Hl as -> Hl. apply StronglySorted_cons in Hs as [Hb' _].
        rewrite Forall_forall in Hb'. apply Hb'. rewrite Hl.
        apply elem_of_app. right. by left. }
    assert (boundary (PacketIndex.filePosition j) (a, b) = false) as ->;
      [|done].
    apply not_true_is_false. intros Hab%boundary_spec.
    unfold is_boundary, offset_le in *. simpl in *. lia.
Qed.

(** X11. [seekNextKeyFrame] never moves the read cursor backwards, changes
    nothing but the read cursor, and either leaves the state as it is or
    puts the read cursor on the offset of an index entry. On an index in
    file-offset order a second call straight after the first changes nothing
    more. *)
Theorem seekNextKeyFrame_moves_forward_onto_index (q qs : LiveQueue) :
  Sorted offset_le (m_indexList qs) →
  m_readFd q ≤ m_readFd (seekNextKeyFrame q)
  ∧ read_frame q (seekNextKeyFrame q)
  ∧ m_wrapped (seekNextKeyFrame q) = m_wrapped q
  ∧ (seekNextKeyFrame q = q
     ∨ ∃ e, e ∈ m_indexList q
            ∧ m_readFd (seekNextKeyFrame q) = PacketIndex.filePosition e)
  ∧ seekNextKeyFrame (seekNextKeyFrame qs) = seekNextKeyFrame qs.
Proof.
  intros Hs. split; [|split; [|split; [|split]]].
  - destruct (seekNextKeyFrame_lands q) as [->|(e&_&Hle&->)]; [lia|done].
  - apply seekNextKeyFrame_frame.
  - by destruct (seekNextKeyFrame_lands q) as [->|(e&_&_&->)].
  - destruct (seekNextKeyFrame_lands q) as [->|(e&He&_&->)]; [by left|].
    right. by exists e.
  - apply Sorted_StronglySorted in Hs;
      [|intros a b c; unfold offset_le; lia].
    rewrite (seekNextKeyFrame_unfold qs).
    destruct (first_boundary (m_readFd qs) (m_indexList qs)) as [[i j]|] eqn:Hf.
    + rewrite seekNextKeyFrame_unfold. simpl.
      by rewrite (first_boundary_again _ _ _ _ Hs Hf).
    + rewrite seekNextKeyFrame_unfold. by rewrite Hf.
Qed.

Lemma seekNextKeyFrame_moves_forward_onto_index_witness :
  m_readFd q_two_generations ≤ m_readFd (seekNextKeyFrame q_two_generations)
  ∧ read_frame q_two_generations (seekNextKeyFrame q_two_generations)
  ∧ m_wrapped (seekNextKeyFrame q_two_generations)
    = m_wrapped q_two_generations
  ∧ (seekNextKeyFrame q_two_generations = q_two_generations
     ∨ ∃ e, e ∈ m_indexList q_two_generations
            ∧ m_readFd (seekNextKeyFrame q_two_generations)
              = PacketIndex.filePosition e)
  ∧ seekNextKeyFrame (seekNextKeyFrame (set_readFd 100 q_three))
    = seekNextKeyFrame (set_readFd 100 q_three).
Proof.
  apply (seekNextKeyFrame_moves_forward_onto_index q_two_generations
           (set_readFd 100 q_three)).
  assert (m_indexList (set_readFd 100 q_three)
          = [PacketIndex.mk 0 0 1000 0; PacketIndex.mk 200 2000 3000 0])
    as -> by (vm_compute; reflexivity).
  repeat first [apply Sorted_cons | apply Sorted_nil
               | apply HdRel_cons | apply HdRel_nil].
  unfold offset_le. simpl. lia.
Defined.

(** X12. The writer thread consumes the submission list from the front, one
    entry for each turn, whether its write succeeds, is refused by the
    descriptor or leaves through the overrun loop: an entry is never put
    back or retried, and a turn that finds the list empty does nothing. The
    turns of the writer thread change neither the pause flag nor the
    capacity. *)
Theorem writer_takes_entries_off_the_front
    (env : list (Z * bool)) (q q' : LiveQueue) :
  run (writer_turns env) q = Some q' →
  m_writerQueue q' = drop (length env) (m_writerQueue q)
  ∧ m_pause q' = m_pause q
  ∧ m_bufferSize q' = m_bufferSize q.
Proof.
  revert q. induction env as [|[ts io] env IH]; intros q; simpl.
  - by intros [= <-].
  - unfold writer_step.
    destruct (m_writerQueue q) as [|d rest] eqn:Hq.
    + intros Hr. apply IH in Hr as (->&->&->). rewrite Hq.
      by rewrite !drop_nil.
    + destruct (write _ _ _ _) as [[ok q1]|] eqn:Hw; [|done]. intros Hr.
      apply IH in Hr as (->&->&->).
      rewrite (write_writerQueue _ _ _ _ _ _ Hw),
        (write_bufferSize _ _ _ _ _ _ Hw). simpl. split; [done|].
      split; [|done].
      apply write_inv in Hw as (b & q2 & Hl & Hq').
      apply overrun_loop_frame in Hl as (_&_&_&_&_&Hp&_).
      destruct (write_begin_frame ts (set_writerQueue rest q)) as (_&_&_&Hp1).
      destruct b; destruct Hq' as [_ ->].
      * destruct (write_finish_effect ts io d
                    (m_writeFd (write_begin ts (set_writerQueue rest q))) q2)
          as (_&_&_&_&->&_). by rewrite Hp, Hp1.
      * by rewrite Hp, Hp1.
Qed.

Lemma writer_takes_entries_off_the_front_witness :
  m_writerQueue
    (after (three_waiting ++ writer_turns [(1, true); (2, false)]) 100)
  = drop (length [(1, true); (2, false)])
      (m_writerQueue (after three_waiting 100))
  ∧ m_pause (after (three_waiting ++ writer_turns [(1, true); (2, false)]) 100)
    = m_pause (after three_waiting 100)
  ∧ m_bufferSize
      (after (three_waiting ++ writer_turns [(1, true); (2, false)]) 100)
    = m_bufferSize (after three_waiting 100).
Proof.
  apply (writer_takes_entries_off_the_front [(1, true); (2, false)]
           (after three_waiting 100)).
  vm_compute. reflexivity.
Defined.

Lemma reachable_index_ok bufferSize q :
  reachable bufferSize q → 0 < to_off_t bufferSize →
  m_bufferSize q = bufferSize ∧ index_ok q.
Proof.
  intros Hq Hcap.
  apply (reachable_invariant
           (λ q, m_bufferSize q = bufferSize ∧ index_ok q) bufferSize);
    [|clear q Hq|done].
  - split; [done|]. unfold index_ok. simpl. repeat split; try done.
    all: constructor.
  - intros c q q' Hc [Hb Hi]. split.
    + by rewrite (call_bufferSize _ _ _ Hc).
    + eapply call_index_ok; [done| |done]. by rewrite Hb.
Qed.

(** ** Descriptors that may be invalid *)

Lemma Fd_new_opened old bufferSize :
  Fd.LiveQueue_new true true old bufferSize = LiveQueue_new bufferSize.
Proof. reflexivity. Qed.

Lemma Fd_lseek_read_valid pos q :
  0 ≤ m_readFd q → 0 ≤ pos → Fd.lseek_read pos q = set_readFd pos q.
Proof.
  intros Hr Hp. unfold Fd.lseek_read, Fd.valid.
  destruct (Z.leb_spec 0 (m_readFd q)); [|lia].
  by destruct (Z.leb_spec 0 pos); [|lia].
Qed.

Lemma Fd_lseek_read_invalid pos q :
  m_readFd q < 0 → Fd.lseek_read pos q = q.
Proof.
  intros Hr. unfold Fd.lseek_read, Fd.valid.
  by destruct (Z.leb_spec 0 (m_readFd q)); [lia|].
Qed.

Lemma Fd_lseek_read_negative pos q : pos < 0 → Fd.lseek_read pos q = q.
Proof.
  intros Hr. unfold Fd.lseek_read.
  destruct (Z.leb_spec 0 pos); [lia|]. by rewrite andb_false_r.
Qed.

Lemma Fd_internalRead_valid q :
  0 ≤ m_readFd q → Fd.internalRead q = internalRead q.
Proof.
  intros Hr. unfold Fd.internalRead, internalRead, Fd.read_wrap, read_wrap.
  rewrite Fd_lseek_read_valid by (done || lia).
  unfold Fd.MsgPacket_read, MsgPacket_read, Fd.valid.
  destruct (to_off_t (m_bufferSize q) <=? m_readFd q); cbn.
  - by destruct (_ && _).
  - destruct (_ && _); [done|]. by destruct (Z.leb_spec 0 (m_readFd q)); [|lia].
Qed.

Lemma Fd_overrun_loop_valid fuel pe rp q :
  0 ≤ m_readFd q → Fd.overrun_loop fuel pe rp q = overrun_loop fuel pe rp q.
Proof.
  revert q. induction fuel as [|fuel IH]; intros q Hr; simpl; [done|].
  destruct (_ && _); [|done]. rewrite Fd_internalRead_valid by done.
  destruct (internalRead q) as [[m|] q1] eqn:Hi; [|done].
  apply IH. by eapply internalRead_readFd_nonneg.
Qed.

(** The read side of an instance whose read descriptor is invalid. *)
Lemma Fd_internalRead_invalid q :
  m_readFd q < 0 →
  ∃ q', Fd.internalRead q = (None, q') ∧ read_frame q q'
        ∧ m_readFd q' = m_readFd q
        ∧ (m_readFd q < to_off_t (m_bufferSize q) → q' = q).
Proof.
  intros Hr. unfold Fd.internalRead, Fd.read_wrap.
  rewrite Fd_lseek_read_invalid by done.
  unfold Fd.MsgPacket_read, Fd.valid.
  destruct (Z.leb_spec (to_off_t (m_bufferSize q)) (m_readFd q)); cbn.
  - destruct (Z.leb_spec 0 (m_readFd q)); [lia|].
    eexists. split; [by destruct (_ && _)|]. repeat split; try done. lia.
  - destruct (Z.leb_spec 0 (m_readFd q)); [lia|].
    exists q. split; [by destruct (_ && _)|]. repeat split; done.
Qed.

Lemma Fd_overrun_loop_terminates fuel pe rp q :
  (Z.to_nat (to_off_t (m_bufferSize q) - m_readFd q) + 2 ≤ fuel)%nat →
  Fd.overrun_loop fuel pe rp q ≠ None.
Proof.
  intros Hf. destruct (Z.le_gt_cases 0 (m_readFd q)) as [Hr|Hr].
  - rewrite Fd_overrun_loop_valid by done. by apply overrun_loop_terminates.
  - destruct fuel as [|fuel]; [lia|]. simpl. destruct (_ && _); [|done].
    by destruct (Fd_internalRead_invalid q Hr) as (q'&->&_).
Qed.

Lemma Fd_overrun_loop_frame fuel pe rp q b q' :
  Fd.overrun_loop fuel pe rp q = Some (b, q') → read_frame q q'.
Proof.
  destruct (Z.le_gt_cases 0 (m_readFd q)) as [Hr|Hr].
  - rewrite Fd_overrun_loop_valid by done. apply overrun_loop_frame.
  - destruct fuel as [|fuel]; simpl.
    + destruct (_ && _); [done|]. intros [= <- <-]. apply read_frame_refl.
    + destruct (_ && _); [|intros [= <- <-]; apply read_frame_refl].
      destruct (Fd_internalRead_invalid q Hr) as (q1&->&Hf&_).
      by intros [= <- <-].
Qed.

Lemma trim_writeFd pos q : m_writeFd (trim pos q) = m_writeFd q.
Proof. unfold trim. repeat case_match; done. Qed.

Lemma Fd_MsgPacket_write_valid io m q :
  0 ≤ m_writeFd q → Fd.MsgPacket_write io m q = MsgPacket_write io m q.
Proof.
  intros Hw. unfold Fd.MsgPacket_write, MsgPacket_write, Fd.valid.
  by destruct (Z.leb_spec 0 (m_writeFd q)); [|lia].
Qed.

Lemma Fd_write_valid ts io d q :
  0 ≤ m_readFd q → 0 ≤ m_writeFd q → Fd.write ts io d q = write ts io d q.
Proof.
  intros Hr Hw. unfold Fd.write, write, Fd.write_wrap, write_wrap,
    Fd.lseek_write, Fd.valid.
  destruct (m_queueStartTime q =? 0);
    cbv beta iota zeta;
    cbn [m_bufferSize m_writeFd m_readFd set_queueStartTime];
    (destruct (Z.leb_spec 0 (m_writeFd q)); [|lia]); cbn [andb Z.leb];
    destruct (to_off_t (m_bufferSize q) <=? m_writeFd q);
    cbv beta iota zeta;
    (rewrite Fd_overrun_loop_valid by done);
    (destruct (overrun_loop _ _ _ _) as [[[] q2]|] eqn:Hl; [|done..]);
    apply overrun_loop_frame in Hl as (_&Hwf&_); cbn in Hwf;
    rewrite Fd_MsgPacket_write_valid; try done.
  all: destruct (_ && _); cbn; rewrite trim_writeFd; lia.
Qed.

Lemma Fd_seek_valid t q :
  0 ≤ m_readFd q →
  Forall (λ e, 0 ≤ PacketIndex.filePosition e) (m_indexList q) →
  Fd.seek t q = seek t q.
Proof.
  intros Hr Hi. unfold Fd.seek, seek.
  destruct (reverse (m_indexList q)) as [|s l] eqn:Hrev; [done|].
  destruct (m_indexList q) as [|h idx] eqn:Hidx; [done|].
  rewrite Forall_forall in Hi.
  assert (s ∈ h :: idx) as Hs.
  { apply elem_of_reverse. rewrite Hrev. by left. }
  rewrite !Fd_lseek_read_valid; try done.
  - destruct (_ <=? _); [done|]. destruct (_ <=? _); [done|].
    destruct (seek_loop t (s :: l)) as [e|] eqn:He; [|done].
    rewrite Fd_lseek_read_valid; try done. apply Hi.
    pose proof (seek_loop_spec t (s :: l)) as Hsp. rewrite He in Hsp.
    destruct Hsp as (l1&l2&Hl&_). apply elem_of_reverse.
    rewrite Hrev, Hl. apply elem_of_app. right. by left.
  - apply Hi. by left.
  - by apply Hi.
Qed.

Lemma Fd_seekNextKeyFrame_valid q :
  0 ≤ m_readFd q → Fd.seekNextKeyFrame q = seekNextKeyFrame q.
Proof.
  intros Hr. pose proof (seekNextKeyFrame_lands q) as Hl.
  unfold Fd.seekNextKeyFrame, seekNextKeyFrame in *.
  destruct (nextKeyFrame_loop _ _) as [pos|]; [|done].
  destruct Hl as [Hl|(e&_&Hle&Hl)].
  - apply (f_equal m_readFd) in Hl. simpl in Hl.
    by rewrite Fd_lseek_read_valid by lia.
  - apply (f_equal m_readFd) in Hl. simpl in Hl.
    by rewrite Fd_lseek_read_valid by lia.
Qed.

Lemma Fd_read_valid k q : 0 ≤ m_readFd q → Fd.read k q = read k q.
Proof.
  intros Hr. unfold Fd.read, read. destruct (m_pause q); [done|].
  destruct k; [|by apply Fd_internalRead_valid].
  rewrite Fd_seekNextKeyFrame_valid by done.
  apply Fd_internalRead_valid.
  destruct (seekNextKeyFrame_lands q) as [->|(e&_&Hle&->)]; [done|]. simpl. lia.
Qed.

Lemma Fd_call_valid c q : index_ok q → Fd.call c q = call c q.
Proof.
  intros (Hw&Hr&_&_&Hi&_).
  destruct c as [m c t|ts io|k|t|on]; simpl; try done.
  - unfold Fd.writer_step, writer_step.
    destruct (m_writerQueue q) as [|d rest]; [done|].
    by rewrite Fd_write_valid.
  - by rewrite Fd_read_valid.
  - rewrite Fd_seek_valid; [done..|].
    eapply Forall_impl; [exact Hi|]. by intros e ((?&_)&_).
Qed.

(** On an instance whose two descriptors were opened the methods are the
    operations of the first part, in every history. *)
Lemma Fd_run_valid cs q :
  0 < to_off_t (m_bufferSize q) → index_ok q → Fd.run cs q = run cs q.
Proof.
  revert q. induction cs as [|c cs IH]; intros q Hcap Hq; simpl; [done|].
  rewrite Fd_call_valid by done.
  destruct (call c q) as [q1|] eqn:Hc; [|done].
  apply IH.
  - by rewrite (call_bufferSize _ _ _ Hc).
  - by eapply call_index_ok.
Qed.

Lemma index_ok_new bufferSize : index_ok (LiveQueue_new bufferSize).
Proof. unfold index_ok. simpl. repeat split; try done. all: constructor. Qed.

Lemma Fd_run_opened cs old bufferSize :
  0 < to_off_t bufferSize →
  Fd.run cs (Fd.LiveQueue_new true true old bufferSize)
  = run cs (LiveQueue_new bufferSize).
Proof. intros Hcap. apply Fd_run_valid; [done|apply index_ok_new]. Qed.

(** X13. In every state reached, by calls of queue, read, seek and pause
    and turns of the writer thread, from a new instance with a positive
    capacity whose two descriptors were opened, the keyframe index is ordered
    by wrap generation and, within one generation, by file offset; every
    entry lies at an offset from 0 up to, but not including, the capacity,
    belongs to a generation between 0 and the current one, and, if it belongs
    to the current generation, lies at or below the write cursor. *)
Theorem index_ordered_by_generation_then_offset
    (writeOpens readOpens : bool) (old : gmap Z MsgPacket) (bufferSize : Z)
    (cs : list Call) (q : LiveQueue) :
  Fd.run cs (Fd.LiveQueue_new writeOpens readOpens old bufferSize) = Some q →
  writeOpens = true → readOpens = true → 0 < to_off_t bufferSize →
  StronglySorted gen_offset_le (m_indexList q)
  ∧ Forall (λ e, 0 ≤ PacketIndex.filePosition e < to_off_t bufferSize
                 ∧ 0 ≤ PacketIndex.wrapCount e ≤ m_wrapCount q
                 ∧ (PacketIndex.wrapCount e = m_wrapCount q →
                    PacketIndex.filePosition e ≤ m_writeFd q))
      (m_indexList q).
Proof.
  intros Hr -> -> Hcap. rewrite Fd_run_opened in Hr by done.
  destruct (reachable_index_ok bufferSize q) as (Hb&_&_&_&_&Hf&Hs);
    [by exists cs|done|].
  split; [done|]. unfold entry_ok in Hf. by rewrite Hb in Hf.
Qed.

Lemma index_ordered_by_generation_then_offset_witness :
  StronglySorted gen_offset_le (m_indexList (after two_generations 100))
  ∧ Forall (λ e, 0 ≤ PacketIndex.filePosition e < to_off_t 100
                 ∧ 0 ≤ PacketIndex.wrapCount e
                   ≤ m_wrapCount (after two_generations 100)
                 ∧ (PacketIndex.wrapCount e
                    = m_wrapCount (after two_generations 100) →
                    PacketIndex.filePosition e
                    ≤ m_writeFd (after two_generations 100)))
      (m_indexList (after two_generations 100)).
Proof.
  apply (index_ordered_by_generation_then_offset true true ∅ 100
           two_generations (after two_generations 100)).
  - vm_compute. reflexivity.
  - reflexivity.
  - reflexivity.
  - vm_compute. reflexivity.
Defined.

(** X14. In every state reached, by calls of queue, read, seek and pause
    and turns of the writer thread, from a new instance with a positive
    capacity whose two descriptors were opened, both cursors and the wrap
    generation are non-negative, the has-wrapped flag is up exactly when the
    wrap generation is positive, and the capacity is the one the instance was
    created with. *)
Theorem cursors_and_generation_stay_sound
    (writeOpens readOpens : bool) (old : gmap Z MsgPacket) (bufferSize : Z)
    (cs : list Call) (q : LiveQueue) :
  Fd.run cs (Fd.LiveQueue_new writeOpens readOpens old bufferSize) = Some q →
  writeOpens = true → readOpens = true → 0 < to_off_t bufferSize →
  0 ≤ m_readFd q ∧ 0 ≤ m_writeFd q ∧ 0 ≤ m_wrapCount q
  ∧ (m_hasWrapped q = true ↔ 0 < m_wrapCount q)
  ∧ m_bufferSize q = bufferSize.
Proof.
  intros Hr -> -> Hcap. rewrite Fd_run_opened in Hr by done.
  destruct (reachable_index_ok bufferSize q) as (Hb&Hw&Hrd&Hc&Hh&_);
    [by exists cs|done|]. done.
Qed.

Lemma cursors_and_generation_stay_sound_witness :
  0 ≤ m_readFd (after two_generations 100)
  ∧ 0 ≤ m_writeFd (after two_generations 100)
  ∧ 0 ≤ m_wrapCount (after two_generations 100)
  ∧ (m_hasWrapped (after two_generations 100) = true
     ↔ 0 < m_wrapCount (after two_generations 100))
  ∧ m_bufferSize (after two_generations 100) = 100.
Proof.
  apply (cursors_and_generation_stay_sound true true ∅ 100 two_generations
           (after two_generations 100)).
  - vm_compute. reflexivity.
  - reflexivity.
  - reflexivity.
  - vm_compute. reflexivity.
Defined.

Lemma Fd_write_unfold ts io d q :
  Fd.write ts io d q =
    let q1 := Fd_write_begin ts q in
    match Fd.overrun_loop (overrun_fuel q1)
            (write_start q + getPacketLength (PacketData.p d)) (m_readFd q) q1
    with
    | None => None
    | Some (false, q2) => Some (false, q2)
    | Some (true, q2) => Some (Fd_write_finish ts io d (write_start q) q2)
    end.
Proof.
  unfold Fd.write, Fd_write_begin, Fd_write_finish, write_start.
  destruct (m_queueStartTime q =? 0);
    cbv beta iota zeta; cbn [m_bufferSize m_writeFd m_readFd set_queueStartTime];
    destruct (to_off_t (m_bufferSize q) <=? m_writeFd q);
    cbv beta iota zeta;
    (destruct (Fd.overrun_loop _ _ _ _) as [[[] q2]|]; [|done..]);
    by destruct (Fd.MsgPacket_write _ _ _).
Qed.

Lemma Fd_write_begin_frame ts q :
  m_readFd (Fd_write_begin ts q) = m_readFd q
  ∧ m_bufferSize (Fd_write_begin ts q) = m_bufferSize q
  ∧ m_file (Fd_write_begin ts q) = m_file q
  ∧ m_indexList (Fd_write_begin ts q) = m_indexList q
  ∧ m_writerQueue (Fd_write_begin ts q) = m_writerQueue q
  ∧ m_pause (Fd_write_begin ts q) = m_pause q
  ∧ g_deleted (Fd_write_begin ts q) = g_deleted q
  ∧ (m_writeFd q < 0 → m_writeFd (Fd_write_begin ts q) = m_writeFd q)
  ∧ (m_writeFd q < to_off_t (m_bufferSize q) →
     m_writeFd (Fd_write_begin ts q) = m_writeFd q
     ∧ m_wrapped (Fd_write_begin ts q) = m_wrapped q
     ∧ m_hasWrapped (Fd_write_begin ts q) = m_hasWrapped q
     ∧ m_wrapCount (Fd_write_begin ts q) = m_wrapCount q).
Proof.
  unfold Fd_write_begin, Fd.write_wrap, Fd.lseek_write, Fd.valid.
  destruct (m_queueStartTime q =? 0); cbn;
    destruct (Z.leb_spec (to_off_t (m_bufferSize q)) (m_writeFd q));
    destruct (Z.leb_spec 0 (m_writeFd q)); cbn; repeat split; try done; lia.
Qed.

Lemma Fd_write_returns ts io d q : ∃ ok q', Fd.write ts io d q = Some (ok, q').
Proof.
  rewrite Fd_write_unfold. cbv zeta.
  destruct (Fd.overrun_loop _ _ _ _) as [[[] q2]|] eqn:Hl.
  - destruct (Fd_write_finish _ _ _ _ _). eauto.
  - eauto.
  - apply Fd_overrun_loop_terminates in Hl; [done|]. unfold overrun_fuel. lia.
Qed.

Lemma Fd_write_finish_effect ts io d wp q :
  let r := Fd_write_finish ts io d wp q in
  m_readFd r.2 = m_readFd q ∧ m_bufferSize r.2 = m_bufferSize q
  ∧ m_writerQueue r.2 = m_writerQueue q ∧ m_pause r.2 = m_pause q
  ∧ m_wrapped r.2 = m_wrapped q
  ∧ m_hasWrapped r.2 = m_hasWrapped q ∧ m_wrapCount r.2 = m_wrapCount q
  ∧ g_deleted r.2 = g_deleted q ++ [PacketData.p d]
  ∧ (m_writeFd q < 0 →
     r.1 = false ∧ m_writeFd r.2 = m_writeFd q ∧ m_file r.2 = m_file q)
  ∧ (m_hasWrapped q = false →
     m_indexList r.2 = m_indexList q ++ index_entry ts d r.2 wp).
Proof.
  unfold Fd_write_finish, Fd.MsgPacket_write, Fd.valid, index_entry, trim.
  destruct (bool_decide (getClientID (PacketData.p d) = ftIFRAME)
            && bool_decide (PacketData.content d = scVIDEO));
    destruct (m_hasWrapped q) eqn:Hh; cbn [negb andb].
  all: try (destruct (m_indexList q) as [|e rest] eqn:Hi;
            [|destruct ((_ <? _) && (_ <? _)); cbn; rewrite ?Hi; cbn;
              destruct rest]).
  all: cbn; destruct (Z.leb_spec 0 (m_writeFd q)); destruct io; cbn.
  all: repeat split; try done; try (intros; lia); try (intros; congruence).
  all: by rewrite ?app_nil_r.
Qed.

Lemma Fd_lseek_read_frame pos q : read_frame q (Fd.lseek_read pos q).
Proof.
  unfold Fd.lseek_read. destruct (_ && _); [|apply read_frame_refl].
  by repeat split.
Qed.

Lemma Fd_internalRead_frame q : read_frame q (Fd.internalRead q).2.
Proof.
  destruct (Z.le_gt_cases 0 (m_readFd q)) as [Hr|Hr].
  - rewrite Fd_internalRead_valid by done.
    eapply internalRead_frame. apply surjective_pairing.
  - by destruct (Fd_internalRead_invalid q Hr) as (q'&->&?&_).
Qed.

Lemma Fd_seekNextKeyFrame_frame q : read_frame q (Fd.seekNextKeyFrame q).
Proof.
  unfold Fd.seekNextKeyFrame.
  destruct (nextKeyFrame_loop _ _); [apply Fd_lseek_read_frame|].
  apply read_frame_refl.
Qed.

Lemma Fd_read_frame k q : read_frame q (Fd.read k q).2.
Proof.
  unfold Fd.read. destruct (m_pause q); [apply read_frame_refl|].
  destruct k; [|apply Fd_internalRead_frame].
  eapply read_frame_trans; [apply Fd_seekNextKeyFrame_frame|].
  apply Fd_internalRead_frame.
Qed.

Lemma Fd_seek_frame t q : read_frame q (Fd.seek t q).2.
Proof.
  unfold Fd.seek. repeat case_match; simpl;
    first [apply Fd_lseek_read_frame | apply read_frame_refl].
Qed.

(** A seek that finds no entry at an offset a descriptor can take, or no
    valid descriptor, moves nothing. *)
Lemma Fd_seek_stays t q :
  m_readFd q < 0
  ∨ Forall (λ e, PacketIndex.filePosition e < 0) (m_indexList q) →
  (Fd.seek t q).2 = q.
Proof.
  intros H.
  assert (∀ e, e ∈ m_indexList q →
               Fd.lseek_read (PacketIndex.filePosition e) q = q) as Hl.
  { intros e He. destruct H as [H|H].
    - by apply Fd_lseek_read_invalid.
    - rewrite Forall_forall in H. apply Fd_lseek_read_negative. by apply H. }
  unfold Fd.seek.
  destruct (reverse (m_indexList q)) as [|s l] eqn:Hrev; [done|].
  destruct (m_indexList q) as [|h idx] eqn:Hidx; [done|].
  assert (s ∈ h :: idx) as Hs.
  { apply elem_of_reverse. rewrite Hrev. by left. }
  destruct (_ <=? _); [by apply Hl|].
  destruct (_ <=? _); [apply Hl; by left|].
  destruct (seek_loop t (s :: l)) as [e|] eqn:He; [|done].
  apply Hl.
  pose proof (seek_loop_spec t (s :: l)) as Hsp. rewrite He in Hsp.
  destruct Hsp as (l1&l2&Hl12&_). apply elem_of_reverse.
  rewrite Hrev, Hl12. apply elem_of_app. right. by left.
Qed.

Lemma Fd_read_invalid k q :
  m_readFd q < 0 → m_readFd q < to_off_t (m_bufferSize q) →
  Fd.read k q = (None, q).
Proof.
  intros Hr Hcap. unfold Fd.read. destruct (m_pause q); [done|].
  assert (Fd.seekNextKeyFrame q = q) as Hs.
  { unfold Fd.seekNextKeyFrame. destruct (nextKeyFrame_loop _ _); [|done].
    by apply Fd_lseek_read_invalid. }
  destruct (Fd_internalRead_invalid q Hr) as (q'&Hi&_&_&Hq).
  destruct k; rewrite ?Hs, Hi; by rewrite Hq.
Qed.

Lemma Fd_overrun_loop_invalid fuel pe rp q b q' :
  m_readFd q < 0 → Fd.overrun_loop fuel pe rp q = Some (b, q') →
  m_readFd q' = m_readFd q
  ∧ (m_readFd q < to_off_t (m_bufferSize q) → m_wrapped q' = m_wrapped q).
Proof.
  intros Hr. destruct fuel as [|fuel]; simpl.
  - destruct (_ && _); [done|]. by intros [= <- <-].
  - destruct (_ && _); [|by intros [= <- <-]].
    destruct (Fd_internalRead_invalid q Hr) as (q1&->&_&H1&H2).
    intros [= <- <-]. split; [done|]. intros Hc. by rewrite H2.
Qed.

(** A write on an invalid write descriptor, in a buffer that has not
    wrapped. *)
Lemma Fd_write_invalid ts io d q :
  m_writeFd q < 0 → 0 ≤ to_off_t (m_bufferSize q) → m_hasWrapped q = false →
  ∃ q', Fd.write ts io d q = Some (false, q')
        ∧ m_writeFd q' = m_writeFd q ∧ m_file q' = m_file q
        ∧ m_hasWrapped q' = false ∧ m_wrapCount q' = m_wrapCount q
        ∧ m_bufferSize q' = m_bufferSize q
        ∧ m_writerQueue q' = m_writerQueue q
        ∧ (m_readFd q < 0 →
           m_readFd q' = m_readFd q ∧ m_wrapped q' = m_wrapped q)
        ∧ (m_indexList q' = m_indexList q
           ∨ m_indexList q' = m_indexList q ++ index_entry ts d q' (m_writeFd q))
        ∧ (m_wrapped q = false →
           g_deleted q' = g_deleted q ++ [PacketData.p d]
           ∧ m_indexList q'
             = m_indexList q ++ index_entry ts d q' (m_writeFd q)).
Proof.
  intros Hw Hcap Hh.
  destruct (Fd_write_begin_frame ts q) as (Hr1&Hb1&Hf1&Hi1&Hq1&_&Hd1&_&H1).
  destruct H1 as (Hw1&Hwr1&Hh1&Hc1); [lia|].
  assert (write_start q = m_writeFd q) as Hws.
  { unfold write_start. destruct (Z.leb_spec (to_off_t (m_bufferSize q))
                                     (m_writeFd q)); [lia|done]. }
  rewrite Fd_write_unfold. cbv zeta. rewrite Hws.
  destruct (Fd.overrun_loop _ _ _ _) as [[b q2]|] eqn:Hl;
    [|apply Fd_overrun_loop_terminates in Hl; [done|unfold overrun_fuel; lia]].
  pose proof (Fd_overrun_loop_frame _ _ _ _ _ _ Hl)
    as (Hb2&Hw2&Hf2&Hh2&Hc2&_&_&Hi2&Hq2&Hd2).
  assert (m_readFd q < 0 →
          m_readFd q2 = m_readFd q ∧ m_wrapped q2 = m_wrapped q) as Hinv.
  { intros Hr. apply Fd_overrun_loop_invalid in Hl as [-> Hl2];
      [|by rewrite Hr1]. split; [done|]. rewrite Hl2, Hwr1; [done|].
    rewrite Hr1, Hb1. lia. }
  assert (m_wrapped q = false → b = true ∧ q2 = Fd_write_begin ts q) as Hnw.
  { intros Hwr. destruct (overrun_fuel _); simpl in Hl;
      rewrite Hwr1, Hwr, andb_false_r in Hl; by injection Hl as <- <-. }
  destruct b.
  - destruct (Fd_write_finish_effect ts io d (m_writeFd q) q2)
      as (Hr3&Hb3&Hq3&_&Hwr3&Hh3&Hc3&Hd3&H3&Hi3).
    destruct H3 as (Hok&Hw3&Hf3); [lia|].
    specialize (Hi3 ltac:(congruence)).
    destruct (Fd_write_finish _ _ _ _ q2) as [ok q3]. simpl in *. subst ok.
    exists q3. split; [done|]. rewrite Hi3, Hi2, Hi1.
    repeat split; try congruence; try (by right).
    all: match goal with H : m_readFd _ < 0 |- _ => destruct (Hinv H) end;
      congruence.
  - exists q2. split; [done|].
    assert (m_wrapped q ≠ false) as Hwr by (intros Hwr; by destruct (Hnw Hwr)).
    repeat split; try congruence; try (left; congruence).
    all: match goal with H : m_readFd _ < 0 |- _ => destruct (Hinv H) end;
      congruence.
Qed.

Lemma index_entry_offset ts d q' start :
  Forall (λ e, PacketIndex.filePosition e = start) (index_entry ts d q' start).
Proof. unfold index_entry. destruct (_ && _); by repeat constructor. Qed.

Lemma Fd_run_invariant (P : LiveQueue → Prop) :
  (∀ c q q', Fd.call c q = Some q' → P q → P q') →
  ∀ cs q q', Fd.run cs q = Some q' → P q → P q'.
Proof.
  intros Hstep cs. induction cs as [|c cs IH]; intros q q'; simpl.
  - by intros [= <-].
  - destruct (Fd.call c q) as [q1|] eqn:Hc; [|done]. eauto.
Qed.

Lemma Fd_write_readFd_invalid ts io d q ok q' :
  m_readFd q < 0 → Fd.write ts io d q = Some (ok, q') →
  m_readFd q' = m_readFd q ∧ m_bufferSize q' = m_bufferSize q.
Proof.
  intros Hr. rewrite Fd_write_unfold. cbv zeta.
  destruct (Fd_write_begin_frame ts q) as (Hr1&Hb1&_).
  destruct (Fd.overrun_loop _ _ _ _) as [[b q2]|] eqn:Hl; [|done].
  pose proof (Fd_overrun_loop_frame _ _ _ _ _ _ Hl) as (Hb2&_).
  apply Fd_overrun_loop_invalid in Hl as [Hr2 _]; [|by rewrite Hr1].
  destruct b.
  - destruct (Fd_write_finish_effect ts io d (write_start q) q2)
      as (Hr3&Hb3&_).
    destruct (Fd_write_finish _ _ _ _ q2) as [ok3 q3]. simpl in *.
    intros [= <- <-]. split; congruence.
  - intros [= <- <-]. split; congruence.
Qed.

Lemma Fd_call_write_unopened old bufferSize readOpens c q q' :
  0 < to_off_t bufferSize →
  Fd.call c q = Some q' →
  write_unopened old bufferSize readOpens q →
  write_unopened old bufferSize readOpens q'.
Proof.
  intros Hcap Hc (Hw&Hf&Hh&Hb&Hi&Hro). subst bufferSize.
  destruct c as [m c t|ts io|k|t|on]; simpl in Hc.
  - injection Hc as <-. unfold queue. by case_match.
  - unfold Fd.writer_step in Hc.
    destruct (m_writerQueue q) as [|d rest]; [by injection Hc as <-|].
    destruct (Fd_write_invalid ts io d (set_writerQueue rest q))
      as (q1&Hq1&Hw1&Hf1&Hh1&_&Hb1&_&Hr1&Hi1&_); simpl; [lia|lia|done|].
    rewrite Hq1 in Hc. injection Hc as <-. simpl in *.
    unfold write_unopened. rewrite Hw1, Hf1, Hb1. repeat split; try done.
    + destruct Hi1 as [->| ->]; [done|]. apply Forall_app. split; [done|].
      rewrite Hw. apply index_entry_offset.
    + match goal with H : readOpens = false |- _ => destruct (Hro H) end.
      destruct Hr1 as [-> _]; [lia|done].
    + match goal with H : readOpens = false |- _ => destruct (Hro H) end.
      destruct Hr1 as [_ ->]; [lia|done].
  - injection Hc as <-.
    pose proof (Fd_read_frame k q) as (Hb2&Hw2&Hf2&Hh2&_&_&_&Hi2&_).
    unfold write_unopened. rewrite Hw2, Hf2, Hh2, Hb2, Hi2.
    repeat split; try done.
    + match goal with H : readOpens = false |- _ => destruct (Hro H) end.
      rewrite Fd_read_invalid; [done|lia|lia].
    + match goal with H : readOpens = false |- _ => destruct (Hro H) end.
      rewrite Fd_read_invalid; [done|lia|lia].
  - injection Hc as <-. rewrite Fd_seek_stays; [done|]. right.
    eapply Forall_impl; [exact Hi|]. simpl. lia.
  - injection Hc as <-. unfold pause. by case_match.
Qed.

Lemma Fd_call_readFd_invalid bufferSize c q q' :
  0 < to_off_t bufferSize →
  Fd.call c q = Some q' →
  m_readFd q = -1 ∧ m_bufferSize q = bufferSize →
  m_readFd q' = -1 ∧ m_bufferSize q' = bufferSize.
Proof.
  intros Hcap Hc [Hr Hb]. subst bufferSize.
  destruct c as [m c t|ts io|k|t|on]; simpl in Hc.
  - injection Hc as <-. unfold queue. by case_match.
  - unfold Fd.writer_step in Hc.
    destruct (m_writerQueue q) as [|d rest]; [by injection Hc as <-|].
    destruct (Fd.write _ _ _ _) as [[ok q1]|] eqn:Hw; [|done].
    injection Hc as <-.
    apply Fd_write_readFd_invalid in Hw as [-> ->]; simpl; [done|lia].
  - injection Hc as <-. rewrite Fd_read_invalid; [done|lia|lia].
  - injection Hc as <-. rewrite Fd_seek_stays; [done|]. left. lia.
  - injection Hc as <-. unfold pause. by case_match.
Qed.

(** X16. An instance whose write descriptor could not be opened stores
    nothing: in every state reached from it, in a buffer of positive
    capacity, the write cursor reads -1 and the file is what it was; every
    write returns false; every index entry lies at offset -1, where no packet
    is, and no seek moves the read cursor. While the flag is down, as it
    always is if the read descriptor could not be opened either, a write
    still destroys its packet and still indexes a video I-frame, at
    offset -1. *)
Theorem invalid_write_descriptor_stores_nothing
    (readOpens : bool) (old : gmap Z MsgPacket) (bufferSize : Z)
    (cs : list Call) (q : LiveQueue) :
  Fd.run cs (Fd.LiveQueue_new false readOpens old bufferSize) = Some q →
  0 < to_off_t bufferSize →
  m_writeFd q = -1 ∧ m_file q = old
  ∧ Forall (λ e, PacketIndex.filePosition e = -1) (m_indexList q)
  ∧ (readOpens = false → m_wrapped q = false)
  ∧ (∀ t, (Fd.seek t q).2 = q)
  ∧ ∀ timeStamp io_ok data,
      ∃ q', Fd.write timeStamp io_ok data q = Some (false, q')
            ∧ m_writeFd q' = -1 ∧ m_file q' = old
            ∧ (m_wrapped q = false →
               g_deleted q' = g_deleted q ++ [PacketData.p data]
               ∧ m_indexList q'
                 = m_indexList q ++ index_entry timeStamp data q' (-1)).
Proof.
  intros Hr Hcap.
  assert (write_unopened old bufferSize readOpens q)
    as (Hw&Hf&Hh&Hb&Hi&Hro).
  { eapply (Fd_run_invariant (write_unopened old bufferSize readOpens));
      [|exact Hr|].
    - intros c q1 q2. by apply Fd_call_write_unopened.
    - unfold write_unopened. simpl.
      do 5 (split; [done || constructor|]). by intros ->. }
  split; [done|]. split; [done|]. split; [done|].
  split; [intros Hro'; by apply Hro|]. split.
  - intros t. apply Fd_seek_stays. right.
    eapply Forall_impl; [exact Hi|]. simpl. lia.
  - intros ts io d.
    destruct (Fd_write_invalid ts io d q)
      as (q'&Hq'&Hw'&Hf'&_&_&_&_&_&_&Hi'); [lia|rewrite Hb; lia|done|].
    exists q'. rewrite Hw in *. rewrite Hf in *. done.
Qed.

Lemma invalid_write_descriptor_stores_nothing_witness :
  m_writeFd q_unopened = -1 ∧ m_file q_unopened = ∅
  ∧ Forall (λ e, PacketIndex.filePosition e = -1) (m_indexList q_unopened)
  ∧ m_indexList q_unopened = [PacketIndex.mk (-1) 1 1000 0]
  ∧ (Fd.seek 5 q_unopened).2 = q_unopened.
Proof.
  destruct (invalid_write_descriptor_stores_nothing false ∅ 100
              (submit 1 (pkt 1 ftIFRAME 60)) q_unopened)
    as (Hw & Hf & Hi & _ & Hs & _).
  - vm_compute. reflexivity.
  - vm_compute. reflexivity.
  - split; [exact Hw|]. split; [exact Hf|]. split; [exact Hi|].
    split; [vm_compute; reflexivity|apply Hs].
Defined.

(** X17. An instance whose read descriptor could not be opened delivers
    nothing: in every state reached from it, in a buffer of positive
    capacity, the read cursor reads -1, every read, in either mode, returns
    NULL and changes nothing, and no seek changes the state, whatever was
    written. *)
Theorem invalid_read_descriptor_reads_nothing
    (writeOpens : bool) (old : gmap Z MsgPacket) (bufferSize : Z)
    (cs : list Call) (q : LiveQueue) :
  Fd.run cs (Fd.LiveQueue_new writeOpens false old bufferSize) = Some q →
  0 < to_off_t bufferSize →
  m_readFd q = -1
  ∧ (∀ keyFrameMode, Fd.read keyFrameMode q = (None, q))
  ∧ (∀ t, (Fd.seek t q).2 = q).
Proof.
  intros Hr Hcap.
  assert (m_readFd q = -1 ∧ m_bufferSize q = bufferSize) as [Hq Hb].
  { eapply (Fd_run_invariant
              (λ q, m_readFd q = -1 ∧ m_bufferSize q = bufferSize));
      [|exact Hr|done].
    intros c q1 q2. by apply Fd_call_readFd_invalid. }
  split; [done|]. split.
  - intros k. apply Fd_read_invalid; rewrite ?Hb; lia.
  - intros t. apply Fd_seek_stays. left. lia.
Qed.

Lemma invalid_read_descriptor_reads_nothing_witness :
  m_readFd q_read_unopened = -1
  ∧ (∀ keyFrameMode,
       Fd.read keyFrameMode q_read_unopened = (None, q_read_unopened))
  ∧ (∀ t, (Fd.seek t q_read_unopened).2 = q_read_unopened).
Proof.
  apply (invalid_read_descriptor_reads_nothing true ∅ 100
           (submit 1 (pkt 1 ftIFRAME 60)) q_read_unopened).
  - vm_compute. reflexivity.
  - vm_compute. reflexivity.
Defined.

(** [strncmp] over [n] characters of a pattern without the character 0 is
    zero exactly for the strings that begin with these [n] characters. *)
Lemma strncmp_prefix (pat s : string) (n : nat) :
  (n ≤ String.length pat)%nat →
  (∀ i c, (i < n)%nat → String.get i pat = Some c → c ≠ Ascii.zero) →
  strncmp s pat n = 0 ↔ String.prefix (String.substring 0 n pat) s = true.
Proof.
  revert pat s. induction n as [|n IH]; intros pat s Hlen Hnz.
  - simpl. destruct pat; simpl; by destruct s.
  - destruct pat as [|c pat]; simpl in Hlen; [lia|].
    assert (c ≠ Ascii.zero) as Hc by (apply (Hnz 0%nat); [lia|done]).
    assert (Z.of_N (Ascii.N_of_ascii c) ≠ 0) as Hc0.
    { intros H0. apply Hc. rewrite <- (Ascii.ascii_N_embedding c).
      replace (Ascii.N_of_ascii c) with 0%N by lia. done. }
    destruct s as [|c' s];
      cbn [strncmp char_at_head string_tail String.prefix String.substring].
    + destruct (Z.eqb_spec 0 (Z.of_N (Ascii.N_of_ascii c))); [lia|]. split; [lia|done].
    + destruct (Z.eqb_spec (Z.of_N (Ascii.N_of_ascii c')) (Z.of_N (Ascii.N_of_ascii c)))
        as [Heq|Hne].
      * assert (c' = c) as ->.
        { rewrite <- (Ascii.ascii_N_embedding c'), <- (Ascii.ascii_N_embedding c).
          f_equal. lia. }
        destruct (Z.eqb_spec (Z.of_N (Ascii.N_of_ascii c)) 0); [done|].
        destruct (Ascii.ascii_dec c c); [|done].
        apply IH; [lia|]. intros i x Hi Hx. apply (Hnz (S i)); [lia|done].
      * destruct (Ascii.ascii_dec c c') as [->|]; [done|]. split; [lia|done].
Qed.

(** X15. [removeTimeShiftFiles] unlinks nothing when the directory cannot be
    opened. Otherwise it unlinks exactly the entries whose names begin with
    the sixteen characters "robotv-ringbuffe": the comparison is over 16
    characters of the 18 of "robotv-ringbuffer-". So the storage file of
    every instance is unlinked, and so is any other entry that begins with
    these sixteen characters, whatever follows them. *)
Theorem removeTimeShiftFiles_matches_sixteen_characters
    (entries : list string) (name number rest : string) :
  removeTimeShiftFiles None = []
  ∧ (name ∈ removeTimeShiftFiles (Some entries)
     ↔ name ∈ entries ∧ String.prefix "robotv-ringbuffe" name = true)
  ∧ removeTimeShiftFiles (Some (entries ++ [storage_file number]))
    = removeTimeShiftFiles (Some entries) ++ [storage_file number]
  ∧ removeTimeShiftFiles
      (Some (entries ++ [String.append "robotv-ringbuffe" rest]))
    = removeTimeShiftFiles (Some entries)
      ++ [String.append "robotv-ringbuffe" rest].
Proof.
  assert (∀ s, (strncmp s "robotv-ringbuffer-" 16 =? 0) = true
               ↔ String.prefix "robotv-ringbuffe" s = true) as Htest.
  { intros s. rewrite Z.eqb_eq.
    apply (strncmp_prefix "robotv-ringbuffer-" s 16).
    - simpl. lia.
    - intros i c Hi Hc. do 16 (destruct i as [|i]; [by injection Hc as <-|]).
      lia. }
  split; [done|]. split; [|split].
  - unfold removeTimeShiftFiles.
    by rewrite list_elem_of_In, filter_In, <- list_elem_of_In, Htest.
  - unfold removeTimeShiftFiles. by rewrite List.filter_app.
  - unfold removeTimeShiftFiles. by rewrite List.filter_app.
Qed.
